(** * StereoAlgorithm: scanline stereo matching by dynamic programming

    A shallow embedding of [createDisparityMap] (StereoAlgorithm.py) and the
    properties of its cost matrix, direction matrix, backward traversal and
    final rescale.

    The function is compiled by numba ([@nb.njit]).  Its integers are
    64-bit machine integers, its costs and its disparity maps are float64.
    The embedding is written once over an interface [Arith] of the float
    operations the code uses; [binary64] instantiates it with the IEEE 754
    double precision operations of [SpecFloat] (what the program runs), and
    [exact] with the rationals (arithmetic without rounding). *)

From Stdlib Require Import ZArith QArith Qcanon Lia List Bool Sorted.
From Stdlib Require Import Floats.SpecFloat.
From stdpp Require Import base tactics option list.

Close Scope Q_scope.
Close Scope Qc_scope.
Open Scope nat_scope.

(** ** Outcomes of a run *)

(** The exceptions the code can raise. *)
Inductive exn : Set :=
| IndexError          (* an index outside an array's axis *)
| ZeroDivisionError   (* numba's default error model: [x / 0.0] raises *)
| ValueError.         (* [max()] of a zero-size array *)

(** A run returns a value, raises, or is still looping when the fuel that
    bounds the [while] loop is used up. *)
Inductive outcome (A : Type) : Type :=
| Done (a : A)
| Raise (e : exn)
| OutOfFuel.
Arguments Done {A} a.
Arguments Raise {A} e.
Arguments OutOfFuel {A}.

#[export] Instance outcome_bind : MBind outcome := fun A B k m =>
  match m with
  | Done a => k a
  | Raise e => Raise e
  | OutOfFuel => OutOfFuel
  end.

(** ** Machine integers *)

(** numba types [uint8 - uint8] as [uint64]: the difference wraps modulo
    2^64.  [pow(x, 2)] of that value with the [int64] literal 2 is typed
    [int64]: the low 64 bits of the square, read as a signed integer. *)
Definition uint64 (z : Z) : Z := (z mod 2 ^ 64)%Z.
Definition int64 (z : Z) : Z := ((z + 2 ^ 63) mod 2 ^ 64 - 2 ^ 63)%Z.
Definition sub_uint64 (z1 z2 : Z) : Z := uint64 (z1 - z2)%Z.
Definition pow2_int64 (x : Z) : Z := int64 (x * x)%Z.

(** [astype(np.uint8)] keeps the low 8 bits of the truncated value. *)
Definition uint8 (z : Z) : Z := (z mod 2 ^ 8)%Z.

(** Line 6. *)
Definition variance : Z := 16%Z.

(** ** The float operations used by the code *)

Class Arith (F : Type) := {
  of_int : Z -> F;          (* conversion of an integer to float64 *)
  fadd   : F -> F -> F;
  fmul   : F -> F -> F;
  fdiv   : F -> F -> F;
  fltb   : F -> F -> bool;  (* [<]  *)
  feqb   : F -> F -> bool;  (* [==] *)
  ftrunc : F -> Z           (* conversion to an integer: truncation *)
}.

(** *** IEEE 754 binary64 *)

(** The format: 53 bits of precision, exponents below 1024. *)
Definition prec : Z := 53%Z.
Definition emax : Z := 1024%Z.

(** Truncation toward zero of a finite value; the conversion of a NaN or an
    infinity is undefined in C, and is taken to be 0 here. *)
Definition SFtrunc (x : spec_float) : Z :=
  match x with
  | S754_finite s m e =>
      let a := match e with
               | Z0 => Zpos m
               | Zpos p => (Zpos m * 2 ^ e)%Z
               | Zneg p => (Zpos m / 2 ^ (Zpos p))%Z
               end in
      if s then (- a)%Z else a
  | _ => 0%Z
  end.

#[export] Instance binary64 : Arith spec_float := {
  of_int z := binary_normalize prec emax z 0%Z false;
  fadd := SFadd prec emax;
  fmul := SFmul prec emax;
  fdiv := SFdiv prec emax;
  fltb := SFltb;
  feqb := SFeqb;
  ftrunc := SFtrunc
}.

(** *** Exact rational arithmetic *)

(** Truncation toward zero. *)
Definition Qctrunc (x : Qc) : Z := Z.quot (Qnum x) (Zpos (Qden x)).

#[export] Instance exact : Arith Qc := {
  of_int z := Q2Qc (inject_Z z);
  fadd := Qcplus;
  fmul := Qcmult;
  fdiv := Qcdiv;
  fltb x y := if Qclt_le_dec x y then true else false;
  feqb := Qc_eq_bool;
  ftrunc := Qctrunc
}.

(** ** Arrays *)

Section Arrays.
Context {A : Type}.

(** [M[i][j]] for an index inside the array; [d] stands for a read outside
    of it, which the builder never does (see [buildMatrices]). *)
Definition get2 (d : A) (M : list (list A)) (i j : nat) : A :=
  default d (M !! i ≫= fun row => row !! j).

(** [M[i][j] = v] on a matrix that holds the cell. *)
Definition set2 (M : list (list A)) (i j : nat) (v : A) : list (list A) :=
  alter (fun row => <[j := v]> row) i M.

(** [M[i][j] = v] where the index may fall outside the array: the store
    raises IndexError.  This is the behaviour of NumPy, and of numba when
    its bounds checks are on; with numba's default (no bounds check) a
    store outside a row is undefined, it lands in the next row or past the
    buffer. *)
Definition write2 (M : list (list A)) (i j : nat) (v : A)
  : outcome (list (list A)) :=
  match M !! i with
  | Some row => if decide (j < length row) then Done (set2 M i j v)
                else Raise IndexError
  | None => Raise IndexError
  end.

(** [np.zeros((n, m))], [np.ones((n, m))]. *)
Definition full (n m : nat) (v : A) : list (list A) :=
  replicate n (replicate m v).
End Arrays.

(** ** The cost matrix builder (lines 33-66) *)

(** Tags of the direction matrix, a [uint8] array. *)
Definition MATCH : Z := 1%Z.
Definition SKIP_LEFT : Z := 2%Z.
Definition SKIP_RIGHT : Z := 3%Z.

(** What the builder prints when no candidate equals the minimum. *)
Inductive diag : Set :=
| ErrorMatchingMinimum (i j : nat).

Section Builder.
Context {F : Type} `{Arith F}.

(** [0.0] *)
Definition zero : F := of_int 0%Z.

(** [pow((z1 - z2), 2) / variance] *)
Definition matchingCost (z1 z2 : Z) : F :=
  fdiv (of_int (pow2_int64 (sub_uint64 z1 z2))) (of_int variance).

(** Python's [min(a, b, c)]: the first of the smallest, by [<]. *)
Definition min_of3 (a b c : F) : F :=
  let m := a in
  let m := if fltb b m then b else m in
  if fltb c m then c else m.

(** The two matrices of a row, and what was printed while filling them. *)
Record matrices : Type := {
  costMatrix : list (list F);
  directionMatrix : list (list Z);
  printed : list diag
}.

(** Lines 37-39. *)
Definition initBoundary (columnCount : nat) (occlusionCost : F)
    (C : list (list F)) : list (list F) :=
  foldl (fun C i =>
           let C := set2 C i 0 (fmul (of_int (Z.of_nat i)) occlusionCost) in
           set2 C 0 i (fmul (of_int (Z.of_nat i)) occlusionCost))
        C (seq 0 (columnCount + 1)).

(** The three candidates of cell (i, j), read from the cost matrix.  Both
    rows have [columnCount] samples, so the reads of lines 42 and 44 are
    inside the rows; [nth]'s default stands for a read outside (images of
    different widths), which the code does not check. *)
Definition candidates (leftRow rightRow : list Z) (occlusionCost : F)
    (C : list (list F)) (i j : nat) : F * F * F :=
  let z1 := nth (i - 1) leftRow 0%Z in
  let z2 := nth (j - 1) rightRow 0%Z in
  let min1 := fadd (get2 zero C (i - 1) (j - 1)) (matchingCost z1 z2) in
  let min2 := fadd (get2 zero C (i - 1) j) occlusionCost in
  let min3 := fadd (get2 zero C i (j - 1)) occlusionCost in
  (min1, min2, min3).

(** The body of the inner loop, lines 44-66. *)
Definition cell (leftRow rightRow : list Z) (occlusionCost : F)
    (i j : nat) (st : matrices) : matrices :=
  let '(min1, min2, min3) :=
    candidates leftRow rightRow occlusionCost (costMatrix st) i j in
  let minimum := min_of3 min1 min2 min3 in
  let C := set2 (costMatrix st) i j minimum in
  if feqb minimum min3 then
    {| costMatrix := C;
       directionMatrix := set2 (directionMatrix st) i j SKIP_RIGHT;
       printed := printed st |}
  else if feqb minimum min1 then
    {| costMatrix := C;
       directionMatrix := set2 (directionMatrix st) i j MATCH;
       printed := printed st |}
  else if feqb minimum min2 then
    {| costMatrix := C;
       directionMatrix := set2 (directionMatrix st) i j SKIP_LEFT;
       printed := printed st |}
  else
    {| costMatrix := C;
       directionMatrix := directionMatrix st;
       printed := printed st ++ [ErrorMatchingMinimum i j] |}.

(** Lines 33-66 for one pair of rows. *)
Definition buildMatrices (columnCount : nat) (leftRow rightRow : list Z)
    (occlusionCost : F) : matrices :=
  let C := full (columnCount + 1) (columnCount + 1) zero in
  let D := full (columnCount + 1) (columnCount + 1) 1%Z in
  let C := initBoundary columnCount occlusionCost C in
  foldl (fun st i =>
           foldl (fun st j => cell leftRow rightRow occlusionCost i j st)
                 st (seq 1 columnCount))
        {| costMatrix := C; directionMatrix := D; printed := [] |}
        (seq 1 columnCount).
End Builder.

(** A float64 constant with an integer value. *)
Definition b64 (z : Z) : spec_float := of_int z.

(** ** Backward traversal (lines 69-86) *)

(** [abs(i - j) * 10 + 128] *)
Definition disparity (i j : nat) : Z :=
  (Z.abs (Z.of_nat i - Z.of_nat j) * 10 + 128)%Z.

Section Traversal.
Context {St : Type}.
(** What the MATCH branch does with the matched pair (i, j) before it
    moves the cursor: the two writes of lines 77-78 in the program. *)
Variable emit : nat -> nat -> St -> outcome St.
Variable D : list (list Z).

(** The [while] loop from cursor (i, j).  A tag other than 1, 2, 3 prints
    and leaves the cursor where it is, so the loop never ends; [fuel]
    bounds the number of iterations. *)
Fixpoint backwardTraversal (fuel : nat) (i j : nat) (s : St)
  : outcome (nat * nat * St) :=
  if negb (i =? 0) && negb (j =? 0) then
    match fuel with
    | O => OutOfFuel
    | S fuel' =>
        let tag := get2 0%Z D i j in
        if (tag =? 1)%Z then
          s' ← emit i j s; backwardTraversal fuel' (i - 1) (j - 1) s'
        else if (tag =? 2)%Z then backwardTraversal fuel' (i - 1) j s
        else if (tag =? 3)%Z then backwardTraversal fuel' i (j - 1) s
        else backwardTraversal fuel' i j s
    end
  else Done (i, j, s).
End Traversal.

(** The traversal that only records the matched pairs, in emission order. *)
Definition record (i j : nat) (tr : list (nat * nat))
  : outcome (list (nat * nat)) := Done (tr ++ [(i, j)]).

(** The matched pairs of the traversal of [D] from (N, N). *)
Definition matchedPairs (D : list (list Z)) (fuel columnCount : nat)
  : outcome (nat * nat * list (nat * nat)) :=
  backwardTraversal record D fuel columnCount columnCount [].

Section Estimator.
Context {F : Type} `{Arith F}.

(** Lines 76-78: both maps are written at the cursor values i and j. *)
Definition writeDisparity (rowNo i j : nat)
    (maps : list (list F) * list (list F))
  : outcome (list (list F) * list (list F)) :=
  let d := of_int (disparity i j) in
  lm ← write2 maps.1 rowNo i d;
  rm ← write2 maps.2 rowNo j d;
  Done (lm, rm).

(** ** Rescale (lines 89-92) *)

(** [np.isnan(x)]: a NaN is the only value that differs from itself. *)
Definition isnan (x : F) : bool := negb (feqb x x).

(** The scan of [ndarray.max()]: a NaN is returned as soon as it is met. *)
Fixpoint max_from (m : F) (l : list F) : F :=
  match l with
  | [] => m
  | v :: l' => if isnan v then v
               else max_from (if fltb m v then v else m) l'
  end.

(** [M.max()]; a zero-size array raises ValueError. *)
Definition array_max (M : list (list F)) : outcome F :=
  match concat M with
  | [] => Raise ValueError
  | x :: xs => Done (if isnan x then x else max_from x xs)
  end.

(** [255.0 / M.max()] *)
Definition scale (M : list (list F)) : outcome F :=
  mx ← array_max M;
  if feqb mx zero then Raise ZeroDivisionError
  else Done (fdiv (of_int 255%Z) mx).

(** [M.astype(np.uint8)] *)
Definition astype_uint8 (M : list (list F)) : list (list Z) :=
  map (map (fun x => uint8 (ftrunc x))) M.

(** Lines 89-92: the left map is rescaled first, then the right one. *)
Definition finalize (maps : list (list F) * list (list F))
  : outcome (list (list Z) * list (list Z)) :=
  sl ← scale maps.1;
  let lm := map (map (fun x => fmul x sl)) maps.1 in
  sr ← scale maps.2;
  let rm := map (map (fun x => fmul x sr)) maps.2 in
  Done (astype_uint8 lm, astype_uint8 rm).

(** ** The whole function *)

(** One iteration of the loop over the rows (lines 30-86). *)
Definition processRow (fuel columnCount : nat)
    (leftImage rightImage : list (list Z)) (occlusionCost : F)
    (rowNo : nat) (maps : list (list F) * list (list F))
  : outcome (list (list F) * list (list F)) :=
  let leftRow := nth rowNo leftImage [] in
  let rightRow := nth rowNo rightImage [] in
  let m := buildMatrices columnCount leftRow rightRow occlusionCost in
  r ← backwardTraversal (writeDisparity rowNo) (directionMatrix m)
        fuel columnCount columnCount maps;
  Done r.2.

(** [for rowNo in range(rowCount)], stopping at the first exception. *)
Fixpoint forRows (body : nat -> list (list F) * list (list F) ->
                         outcome (list (list F) * list (list F)))
    (rows : list nat) (maps : list (list F) * list (list F))
  : outcome (list (list F) * list (list F)) :=
  match rows with
  | [] => Done maps
  | rowNo :: rows' => maps' ← body rowNo maps; forRows body rows' maps'
  end.

(** Lines 26-93.  An image is the list of its rows; [shape[1]] is the
    length of the first row (0 for an image without rows).  [fuel] bounds
    the [while] loop of each row. *)
Definition createDisparityMap (fuel : nat)
    (leftImage rightImage : list (list Z)) (occlusionCost : F)
    (leftDisparityMap rightDisparityMap : list (list F))
  : outcome (list (list Z) * list (list Z)) :=
  let rowCount := length leftImage in
  let columnCount := length (nth 0 leftImage []) in
  maps ← forRows (processRow fuel columnCount leftImage rightImage
                    occlusionCost)
                 (seq 0 rowCount) (leftDisparityMap, rightDisparityMap);
  finalize maps.

(** The call made by [go] (lines 111-114): both maps start as zeros of the
    left image's shape. *)
Definition go_call (fuel : nat) (leftImage rightImage : list (list Z))
    (occlusionCost : F) : outcome (list (list Z) * list (list Z)) :=
  let rowCount := length leftImage in
  let columnCount := length (nth 0 leftImage []) in
  createDisparityMap fuel leftImage rightImage occlusionCost
    (full rowCount columnCount zero) (full rowCount columnCount zero).
End Estimator.


(** * Vocabulary of the properties *)

(** ** Shapes, loop invariant, tags *)

Section ArrayShape.
Context {A : Type}.

(** An [n] by [m] array. *)
Definition shaped (n m : nat) (M : list (list A)) : Prop :=
  length M = n /\ Forall (fun row => length row = m) M.

End ArrayShape.

Section BuilderSpec.
Context {F : Type} `{Arith F}.
Variables (N : nat) (L R : list Z) (c : F).

(** [i * occlusionCost] *)
Definition scaled (i : nat) : F := fmul (of_int (Z.of_nat i)) c.

(** The tag the builder records for three candidates, if any. *)
Definition tagOf (cands : F * F * F) : option Z :=
  let '(min1, min2, min3) := cands in
  let minimum := min_of3 min1 min2 min3 in
  if feqb minimum min3 then Some SKIP_RIGHT
  else if feqb minimum min1 then Some MATCH
  else if feqb minimum min2 then Some SKIP_LEFT
  else None.

(** Their minimum. *)
Definition minOf (cands : F * F * F) : F :=
  let '(min1, min2, min3) := cands in min_of3 min1 min2 min3.

(** Cell (a, b) has been filled once the loops are past row [i],
    column [j]. *)
Definition done_upto (i j a b : nat) : Prop := a < i \/ (a = i /\ b <= j).

(** The invariant of the two nested loops of lines 41-66, when the cells
    up to (i, j) are filled. *)
Record built_upto (i j : nat) (st : matrices) : Prop := {
  bu_shapeC : shaped (N + 1) (N + 1) (costMatrix st);
  bu_shapeD : shaped (N + 1) (N + 1) (directionMatrix st);
  bu_row0 : forall b, b <= N -> get2 zero (costMatrix st) 0 b = scaled b;
  bu_col0 : forall a, a <= N -> get2 zero (costMatrix st) a 0 = scaled a;
  bu_cost : forall a b, 1 <= a <= N -> 1 <= b <= N -> done_upto i j a b ->
    get2 zero (costMatrix st) a b =
    minOf (candidates L R c (costMatrix st) a b);
  bu_dir : forall a b, 1 <= a <= N -> 1 <= b <= N -> done_upto i j a b ->
    get2 0%Z (directionMatrix st) a b =
    default 1%Z (tagOf (candidates L R c (costMatrix st) a b));
  bu_fresh : forall a b, ~ done_upto i j a b ->
    get2 0%Z (directionMatrix st) a b = get2 0%Z (full (N + 1) (N + 1) 1%Z) a b;
  bu_printed : forall a b,
    ErrorMatchingMinimum a b ∈ printed st <->
    (1 <= a <= N /\ 1 <= b <= N /\ done_upto i j a b /\
     tagOf (candidates L R c (costMatrix st) a b) = None)
}.

End BuilderSpec.

(** Every interior cell of [D] carries one of the three tags. *)
Definition valid_tags (N : nat) (D : list (list Z)) : Prop :=
  forall i j, 1 <= i <= N -> 1 <= j <= N ->
    get2 0%Z D i j = MATCH \/ get2 0%Z D i j = SKIP_LEFT \/
    get2 0%Z D i j = SKIP_RIGHT.

(** [q] is strictly smaller than [p] in both coordinates. *)
Definition pair_below (p q : nat * nat) : Prop := q.1 < p.1 /\ q.2 < p.2.

(** ** Laws of the arithmetic *)

(** [x <= y], as the code can test it: [not (y < x)]. *)
Definition fle {F : Type} `{Arith F} (x y : F) : Prop := fltb y x = false.

(** The laws of the order and of the sign that the proofs below rely on.
    [good] singles out the values a cost matrix can hold (not NaN, not
    negative) and [cost_ok] the admissible occlusion costs (positive and
    finite).  Both [binary64] and [exact] satisfy them. *)
Class OrderedArith (F : Type) `{Arith F} : Type := {
  good : F -> Prop;
  cost_ok : F -> Prop;
  good_zero : good zero;
  good_cost c : cost_ok c -> good c;
  cost_pos c : cost_ok c -> fltb zero c = true;
  good_scale n c : (0 <= n)%Z -> cost_ok c -> good (fmul (of_int n) c);
  good_add x y : good x -> good y -> good (fadd x y);
  good_match d : (0 <= d < 256)%Z ->
    good (fdiv (of_int (d * d)%Z) (of_int variance));
  feqb_eq x y : good x -> good y -> feqb x y = true <-> x = y;
  flt_asym x y : good x -> good y -> fltb x y = true -> fltb y x = false;
  fle_trans x y z : good x -> good y -> good z ->
    fle x y -> fle y z -> fle x z;
  fle_antisym x y : good x -> good y -> fle x y -> fle y x -> x = y;
  scale_0 c : cost_ok c -> fmul (of_int 0%Z) c = zero;
  fadd_0_0 : fadd zero zero = zero;
  match_0 : fdiv (of_int 0%Z) (of_int variance) = zero;
  fadd_pos x c : good x -> cost_ok c -> fltb zero (fadd x c) = true
}.

(** Addition and the product by an integer are monotone.  This holds in
    exact arithmetic and, since rounding to nearest is monotone, in
    [binary64]. *)
Class MonotoneArith (F : Type) `{OrderedArith F} : Prop := {
  fadd_mono x x' y y' : good x -> good x' -> good y -> good y' ->
    fle x x' -> fle y y' -> fle (fadd x y) (fadd x' y');
  scale_mono n c c' : (0 <= n)%Z -> cost_ok c -> cost_ok c' ->
    fle c c' -> fle (fmul (of_int n) c) (fmul (of_int n) c')
}.

(** Arithmetic without rounding: the product by the next integer is one
    more term of the sum. *)
Class ExactArith (F : Type) `{MonotoneArith F} : Prop := {
  scale_succ n c : (0 <= n)%Z -> cost_ok c ->
    fmul (of_int (n + 1)%Z) c = fadd (fmul (of_int n) c) c
}.

(** 8-bit samples. *)
Definition uint8s (l : list Z) : Prop := Forall (fun z => (0 <= z < 256)%Z) l.

Section Binary64Values.
Local Open Scope Z_scope.

(** The sign of the values a cost matrix holds in binary64: +0, a positive
    finite number whose exponent is at least [emin], or +infinity. *)
Definition good64 (x : spec_float) : Prop :=
  match x with
  | S754_zero false | S754_infinity false => True
  | S754_finite false _ e => emin prec emax <= e
  | _ => False
  end.

(** Such a value in the canonical representation of IEEE 754 (the mantissa
    has [prec] bits, or fewer at the smallest exponent): every float64 is
    one. *)
Definition canonical64 (x : spec_float) : Prop :=
  good64 x /\ valid_binary prec emax x = true.

Definition canonical64b (x : spec_float) : bool :=
  match x with
  | S754_zero false | S754_infinity false => true
  | S754_finite false m e => bounded prec emax m e
  | _ => false
  end.

(** Positive and finite. *)
Definition cost64 (c : spec_float) : Prop :=
  match c with
  | S754_finite false _ e => emin prec emax <= e
  | _ => False
  end.

Definition canonical_cost64 (c : spec_float) : Prop :=
  cost64 c /\ valid_binary prec emax c = true.

Definition finite64 (x : spec_float) : Prop :=
  match x with S754_infinity _ => False | _ => True end.

(** [V / G] rounded to the nearest integer, ties to even. *)
Definition nearest_even (V G : Z) : Z :=
  match 2 * (V mod G) ?= G with
  | Lt => V / G
  | Eq => if Z.even (V / G) then V / G else V / G + 1
  | Gt => V / G + 1
  end.

(** The float of mantissa [q] and exponent [f], after the renormalisation
    of a mantissa of [prec + 1] bits and the overflow test. *)
Definition pack64 (q f : Z) : spec_float :=
  match q with
  | Z0 => S754_zero false
  | Zpos p =>
      if q =? 2 ^ prec then
        if f + 1 <=? emax - prec
        then S754_finite false (Z.to_pos (2 ^ (prec - 1))) (f + 1)
        else S754_infinity false
      else
        if f <=? emax - prec then S754_finite false p f
        else S754_infinity false
  | Zneg _ => S754_nan
  end.

(** The value of a good float, as an integer multiple of [2 ^ ebase];
    +infinity stands at the first power of two that overflows.  [ebase]
    is low enough for the exact product of two floats. *)
Definition ebase : Z := emin prec emax + emin prec emax.
Definition overflow64 : Z := 2 ^ (emax - ebase).

Definition value64 (x : spec_float) : Z :=
  match x with
  | S754_finite _ m e => Zpos m * 2 ^ (e - ebase)
  | S754_infinity _ => overflow64
  | _ => 0
  end.

(** The value of the float nearest to [V] (ties to even), in the same
    unit. *)
Definition round64 (V : Z) : Z :=
  let f := fexp prec emax (Zdigits2 V + ebase) in
  Z.min (nearest_even V (2 ^ (f - ebase)) * 2 ^ (f - ebase)) overflow64.

End Binary64Values.

(** The pairs (k, k), ..., (1, 1). *)
Definition diagonal (k : nat) : list (nat * nat) :=
  map (fun i => (i, i)) (rev (seq 1 k)).

(** What a map holds when every match was on the diagonal. *)
Definition zero_or_128 (x : spec_float) : Prop := x = b64 0 \/ x = b64 128.

(** ** Alignments *)

(** A step of an alignment: match the next left pixel with the next right
    pixel, or skip the next left pixel, or skip the next right pixel. *)
Inductive step : Set := Match | SkipLeft | SkipRight.

Section Alignments.
Context {F : Type} `{Arith F}.
Variables (L R : list Z) (c : F).

(** The cost of a step taken when [a] left and [b] right pixels are
    already aligned. *)
Definition stepCost (a b : nat) (s : step) : F :=
  match s with
  | Match => matchingCost (nth a L 0%Z) (nth b R 0%Z)
  | SkipLeft | SkipRight => c
  end.

Definition advance (a b : nat) (s : step) : nat * nat :=
  match s with
  | Match => (S a, S b)
  | SkipLeft => (S a, b)
  | SkipRight => (a, S b)
  end.

(** Take the steps in order, adding up their costs. *)
Fixpoint walk (a b : nat) (acc : F) (steps : list step) : nat * nat * F :=
  match steps with
  | [] => (a, b, acc)
  | s :: rest =>
      walk (advance a b s).1 (advance a b s).2 (fadd acc (stepCost a b s)) rest
  end.

(** [steps] aligns the first [i] left pixels with the first [j] right
    pixels, at total cost [cost]. *)
Definition aligns (i j : nat) (steps : list step) (cost : F) : Prop :=
  walk 0 0 zero steps = (i, j, cost).

End Alignments.

(** ** Swapping the two images *)

(** The tag seen from the other image: the two skips trade places. *)
Definition mirror (t : Z) : Z :=
  if (t =? SKIP_LEFT)%Z then SKIP_RIGHT
  else if (t =? SKIP_RIGHT)%Z then SKIP_LEFT
  else t.

(** An outcome with its two maps exchanged. *)
Definition swap_outcome {A B} (o : outcome (A * B)) : outcome (B * A) :=
  match o with
  | Done (a, b) => Done (b, a)
  | Raise e => Raise e
  | OutOfFuel => OutOfFuel
  end.

Section Untied.
Context {F : Type} `{Arith F}.

(** Exactly one of the three candidates equals their minimum. *)
Definition untied (cands : F * F * F) : bool :=
  let '(min1, min2, min3) := cands in
  let minimum := min_of3 min1 min2 min3 in
  match feqb minimum min1, feqb minimum min2, feqb minimum min3 with
  | true, false, false | false, true, false | false, false, true => true
  | _, _, _ => false
  end.

(** No interior cell of the row pair has a tie. *)
Definition no_ties (N : nat) (L R : list Z) (c : F) : Prop :=
  forall i j, 1 <= i <= N -> 1 <= j <= N ->
    untied (candidates L R c (costMatrix (buildMatrices N L R c)) i j) = true.
End Untied.

Section SwapRunSpec.
Context {F : Type}.

(** The cursor and the maps of a finished traversal, with left and right
    exchanged. *)
Definition swap_run (o : outcome (nat * nat * (list (list F) * list (list F))))
  : outcome (nat * nat * (list (list F) * list (list F))) :=
  match o with
  | Done (j, i, (lm, rm)) => Done (i, j, (rm, lm))
  | Raise e => Raise e
  | OutOfFuel => OutOfFuel
  end.

End SwapRunSpec.

(** ** Vocabulary of the further properties *)

(** Emit the pairs of a trace, in order. *)
Fixpoint emitAll {St : Type} (emit : nat -> nat -> St -> outcome St)
    (tr : list (nat * nat)) (s : St) : outcome St :=
  match tr with
  | [] => Done s
  | (i, j) :: tr' => s' ← emit i j s; emitAll emit tr' s'
  end.

(** The pairs matched by an alignment that starts with [a] left and [b]
    right pixels aligned, in the order of the alignment (1-based, as the
    cursor of the traversal). *)
Fixpoint matchesOf (a b : nat) (steps : list step) : list (nat * nat) :=
  match steps with
  | [] => []
  | Match :: rest => (S a, S b) :: matchesOf (S a) (S b) rest
  | SkipLeft :: rest => matchesOf (S a) b rest
  | SkipRight :: rest => matchesOf a (S b) rest
  end.

(** An occlusion cost that is not a finite number: an infinity or a NaN. *)
Definition nonfinite64 (c : spec_float) : Prop :=
  match c with
  | S754_infinity _ | S754_nan => True
  | _ => False
  end.

(** Inside a map of [cols] columns. *)
Definition in_cols (cols : nat) (p : nat * nat) : Prop :=
  p.1 < cols /\ p.2 < cols.

(** The test that [x] is exactly [d * d / 16]: a canonical finite
    float whose value is the quotient, and +0 or -0 only for [d = 0]. *)
Definition exact_quotient (d : Z) (x : spec_float) : bool :=
  canonical64b x &&
  match x with S754_infinity _ => false | _ => true end &&
  (16 * value64 x =? d * d * 2 ^ (- ebase))%Z &&
  (match x with S754_zero _ => (d =? 0)%Z | _ => negb (d =? 0)%Z end).

(** * Properties *)

(** ** Machine integers *)

(** The square of the wrapped difference of two 8-bit samples is the square
    of their difference: the wrap-around of the subtraction cancels. *)
Lemma pow2_int64_sub_uint64 (z1 z2 : Z) :
  (0 <= z1 < 256)%Z -> (0 <= z2 < 256)%Z ->
  pow2_int64 (sub_uint64 z1 z2) = ((z1 - z2) * (z1 - z2))%Z.
Proof.
  intros H1 H2. unfold pow2_int64, sub_uint64, uint64, int64.
  destruct (Z_lt_le_dec (z1 - z2) 0) as [Hneg | Hpos].
  - replace ((z1 - z2) mod 2 ^ 64)%Z with (z1 - z2 + 2 ^ 64)%Z.
    + replace ((z1 - z2 + 2 ^ 64) * (z1 - z2 + 2 ^ 64) + 2 ^ 63)%Z
        with ((z1 - z2) * (z1 - z2) + 2 ^ 63
              + (2 * (z1 - z2) + 2 ^ 64) * 2 ^ 64)%Z by ring.
      rewrite Z_mod_plus_full. rewrite Z.mod_small; nia.
    + apply Z.mod_unique with (q := (-1)%Z); lia.
  - rewrite (Z.mod_small (z1 - z2)) by lia.
    rewrite Z.mod_small; nia.
Qed.

(** ** Arrays *)

Section ArrayFacts.
Context {A : Type}.
Implicit Types (M : list (list A)) (i j n m : nat).

Lemma shaped_lookup n m M i row :
  shaped n m M -> M !! i = Some row -> length row = m.
Proof.
  intros [_ Hall] Hrow. rewrite Forall_lookup in Hall. eauto.
Qed.

Lemma shaped_full n m (v : A) : shaped n m (full n m v).
Proof.
  split; [apply length_replicate |].
  apply Forall_forall. intros row Hin.
  apply elem_of_replicate in Hin as [-> _]. apply length_replicate.
Qed.

Lemma shaped_set2 n m M i j v : shaped n m M -> shaped n m (set2 M i j v).
Proof.
  intros [Hlen Hall]. split; [unfold set2; by rewrite length_alter |].
  rewrite Forall_lookup in Hall. apply Forall_lookup. intros k row.
  unfold set2. destruct (decide (i = k)) as [-> | Hne].
  - rewrite list_lookup_alter_eq. destruct (M !! k) as [r |] eqn:E; [| done].
    simpl. intros [= <-]. rewrite length_insert. eauto.
  - rewrite list_lookup_alter_ne by done. eauto.
Qed.

Lemma get2_set2_eq d n m M i j v :
  shaped n m M -> i < n -> j < m -> get2 d (set2 M i j v) i j = v.
Proof.
  intros HM Hi Hj. unfold get2, set2. rewrite list_lookup_alter_eq.
  destruct (lookup_lt_is_Some_2 M i) as [row Hrow]; [destruct HM; lia |].
  rewrite Hrow. simpl. rewrite list_lookup_insert_eq; [done |].
  rewrite (shaped_lookup _ _ _ _ _ HM Hrow). done.
Qed.

Lemma get2_set2_ne d M i j i' j' v :
  (i, j) <> (i', j') -> get2 d (set2 M i j v) i' j' = get2 d M i' j'.
Proof.
  intros Hne. unfold get2, set2. destruct (decide (i = i')) as [-> | Hi].
  - rewrite list_lookup_alter_eq. destruct (M !! i') as [row |]; [| done].
    simpl. rewrite list_lookup_insert_ne; [done | congruence].
  - by rewrite list_lookup_alter_ne.
Qed.

Lemma get2_full d n m (v : A) i j :
  i < n -> j < m -> get2 d (full n m v) i j = v.
Proof.
  intros Hi Hj. unfold get2, full.
  rewrite lookup_replicate_2 by done. simpl.
  by rewrite lookup_replicate_2.
Qed.

Lemma write2_Done M i j v M' :
  write2 M i j v = Done M' ->
  M' = set2 M i j v /\ exists row, M !! i = Some row /\ j < length row.
Proof.
  unfold write2. destruct (M !! i) as [row |]; [| done].
  destruct (decide (j < length row)); [| done].
  intros [= <-]. eauto.
Qed.

Lemma write2_shaped n m M i j v :
  shaped n m M -> i < n ->
  write2 M i j v = if decide (j < m) then Done (set2 M i j v)
                   else Raise IndexError.
Proof.
  intros HM Hi. unfold write2.
  destruct (lookup_lt_is_Some_2 M i) as [row Hrow]; [destruct HM; lia |].
  rewrite Hrow, (shaped_lookup _ _ _ _ _ HM Hrow). done.
Qed.
End ArrayFacts.

(** ** Loops over [range] *)

(** Invariant rule for [for k in range(s, s + n)]. *)
Lemma foldl_seq_ind {A} (P : nat -> A -> Prop) (f : A -> nat -> A) a s n :
  P 0 a ->
  (forall k x, k < n -> P k x -> P (S k) (f x (s + k))) ->
  P n (foldl f a (seq s n)).
Proof.
  intros H0 Hstep. induction n as [| n IH].
  - exact H0.
  - rewrite seq_S, foldl_snoc. apply Hstep; [lia |].
    apply IH. intros k x Hk. apply Hstep. lia.
Qed.

(** ** The cost matrix builder *)

Section BuilderFacts.
Context {F : Type} `{Arith F}.
Variables (N : nat) (L R : list Z) (c : F).

Lemma cell_eq i j st :
  let cands := candidates L R c (costMatrix st) i j in
  cell L R c i j st =
  {| costMatrix := set2 (costMatrix st) i j (minOf cands);
     directionMatrix := match tagOf cands with
                        | Some t => set2 (directionMatrix st) i j t
                        | None => directionMatrix st
                        end;
     printed := match tagOf cands with
                | Some _ => printed st
                | None => printed st ++ [ErrorMatchingMinimum i j]
                end |}.
Proof.
  unfold cell, tagOf, minOf.
  destruct (candidates L R c (costMatrix st) i j) as [[min1 min2] min3].
  simpl. repeat case_match; reflexivity.
Qed.

(** The candidates of a cell do not read the cell itself, nor any cell
    that comes later in the order of the loops. *)
Lemma candidates_set2 C i j a b v :
  1 <= a -> 1 <= b -> (a < i \/ (a = i /\ b <= j)) ->
  candidates L R c (set2 C i j v) a b = candidates L R c C a b.
Proof.
  intros Ha Hb Hdone. unfold candidates.
  repeat (rewrite get2_set2_ne by (intros [=]; lia)). done.
Qed.

Lemma initBoundary_spec :
  let C := initBoundary N c (full (N + 1) (N + 1) zero) in
  shaped (N + 1) (N + 1) C /\
  forall a, a <= N -> get2 zero C a 0 = scaled c a /\ get2 zero C 0 a = scaled c a.
Proof.
  unfold initBoundary.
  set (P := fun k (C : list (list F)) =>
    shaped (N + 1) (N + 1) C /\
    forall a, a < k ->
      get2 zero C a 0 = scaled c a /\ get2 zero C 0 a = scaled c a).
  assert (HP : P (N + 1) (foldl (fun C i =>
             let C := set2 C i 0 (fmul (of_int (Z.of_nat i)) c) in
             set2 C 0 i (fmul (of_int (Z.of_nat i)) c))
          (full (N + 1) (N + 1) zero) (seq 0 (N + 1)))).
  { apply foldl_seq_ind.
    - split; [apply shaped_full | intros; lia].
    - intros k C Hk [Hsh Hlow]. simpl. split.
      + by do 2 apply shaped_set2.
      + intros a Ha. destruct (decide (a = k)) as [-> | Hne].
        * split.
          -- destruct (decide (k = 0)) as [-> | Hk0].
             ++ rewrite (get2_set2_eq _ (N + 1) (N + 1)); [done | | lia | lia].
                by apply shaped_set2.
             ++ rewrite get2_set2_ne by (intros [=]; lia).
                rewrite (get2_set2_eq _ (N + 1) (N + 1)); [done | done | lia | lia].
          -- rewrite (get2_set2_eq _ (N + 1) (N + 1)); [done | | lia | lia].
             by apply shaped_set2.
        * destruct (Hlow a) as [H1 H2]; [lia |].
          repeat (rewrite get2_set2_ne by (intros [=]; lia)). by split. }
  destruct HP as [Hsh Hlow]. split; [done |].
  intros a Ha. apply Hlow. lia.
Qed.

Lemma built_upto_cell i j st :
  i < N -> j < N ->
  built_upto N L R c (S i) j st -> built_upto N L R c (S i) (S j) (cell L R c (S i) (S j) st).
Proof.
  intros Hi Hj [HC HD Hr0 Hc0 Hcost Hdir Hfresh Hpr]. rewrite cell_eq. cbv zeta.
  set (C := costMatrix st) in *. set (D := directionMatrix st) in *.
  set (v := minOf (candidates L R c C (S i) (S j))).
  assert (Hcands : forall a b, 1 <= a -> 1 <= b -> done_upto (S i) (S j) a b ->
    candidates L R c (set2 C (S i) (S j) v) a b = candidates L R c C a b).
  { intros a b Ha Hb Hd. by apply candidates_set2. }
  assert (Hsplit : forall a b, done_upto (S i) (S j) a b ->
    (a = S i /\ b = S j) \/ ((a, b) <> (S i, S j) /\ done_upto (S i) j a b)).
  { unfold done_upto. intros a b Hd.
    destruct (decide (a = S i /\ b = S j)) as [? | Hn]; [by left |].
    right. split; [intros [=]; lia | lia]. }
  assert (Hnew : done_upto (S i) (S j) (S i) (S j)) by (unfold done_upto; lia).
  destruct (tagOf (candidates L R c C (S i) (S j))) as [t |] eqn:Et.
  - split; cbn [costMatrix directionMatrix printed].
    + by apply shaped_set2.
    + by apply shaped_set2.
    + intros b Hb. rewrite get2_set2_ne by (intros [=]; lia). by apply Hr0.
    + intros a Ha. rewrite get2_set2_ne by (intros [=]; lia). by apply Hc0.
    + intros a b Ha Hb Hd. rewrite Hcands by (done || lia).
      destruct (Hsplit a b Hd) as [[-> ->] | [Hne Hd']].
      * rewrite (get2_set2_eq _ (N + 1) (N + 1)); [done | done | lia | lia].
      * rewrite get2_set2_ne by congruence. by apply Hcost.
    + intros a b Ha Hb Hd. rewrite Hcands by (done || lia).
      destruct (Hsplit a b Hd) as [[-> ->] | [Hne Hd']].
      * rewrite (get2_set2_eq _ (N + 1) (N + 1)); [| done | lia | lia].
        by rewrite Et.
      * rewrite get2_set2_ne by congruence. by apply Hdir.
    + intros a b Hd. rewrite get2_set2_ne; [apply Hfresh |].
      * unfold done_upto in *. lia.
      * intros [= <- <-]. by apply Hd.
    + intros a b. rewrite Hpr. split.
      * intros (Ha & Hb & Hd & Hnone).
        assert (Hd' : done_upto (S i) (S j) a b) by (unfold done_upto in *; lia).
        rewrite Hcands by (done || lia). done.
      * intros (Ha & Hb & Hd & Hnone). rewrite Hcands in Hnone by (done || lia).
        destruct (Hsplit a b Hd) as [[-> ->] | [Hne Hd']]; [congruence | done].
  - split; cbn [costMatrix directionMatrix printed].
    + by apply shaped_set2.
    + done.
    + intros b Hb. rewrite get2_set2_ne by (intros [=]; lia). by apply Hr0.
    + intros a Ha. rewrite get2_set2_ne by (intros [=]; lia). by apply Hc0.
    + intros a b Ha Hb Hd. rewrite Hcands by (done || lia).
      destruct (Hsplit a b Hd) as [[-> ->] | [Hne Hd']].
      * rewrite (get2_set2_eq _ (N + 1) (N + 1)); [done | done | lia | lia].
      * rewrite get2_set2_ne by congruence. by apply Hcost.
    + intros a b Ha Hb Hd. rewrite Hcands by (done || lia).
      destruct (Hsplit a b Hd) as [[-> ->] | [Hne Hd']].
      * rewrite Et. cbn [default]. rewrite Hfresh by (unfold done_upto; lia).
        apply get2_full; lia.
      * by apply Hdir.
    + intros a b Hd. apply Hfresh. unfold done_upto in *. lia.
    + intros a b. rewrite elem_of_app, list_elem_of_singleton, Hpr. split.
      * intros [(Ha & Hb & Hd & Hnone) | [= -> ->]].
        -- assert (Hd' : done_upto (S i) (S j) a b)
             by (unfold done_upto in *; lia).
           rewrite Hcands by (done || lia). done.
        -- rewrite Hcands by (done || lia). repeat split; (done || lia).
      * intros (Ha & Hb & Hd & Hnone). rewrite Hcands in Hnone by (done || lia).
        destruct (Hsplit a b Hd) as [[-> ->] | [Hne Hd']]; [by right | by left].
Qed.

(** What the loops of lines 33-66 leave behind: the boundary, and in every
    interior cell the minimum and the tag of that cell's candidates, read
    from the finished cost matrix. *)
Lemma buildMatrices_built :
  built_upto N L R c N N (buildMatrices N L R c).
Proof.
  unfold buildMatrices.
  destruct initBoundary_spec as [Hsh Hb].
  set (C0 := initBoundary N c (full (N + 1) (N + 1) zero)) in *.
  set (st0 := {| costMatrix := C0;
                 directionMatrix := full (N + 1) (N + 1) 1%Z;
                 printed := [] |}).
  assert (H0 : built_upto N L R c 0 N st0).
  { split; simpl.
    - done.
    - apply shaped_full.
    - intros b Hb'. by apply Hb.
    - intros a Ha'. by apply Hb.
    - unfold done_upto. intros; lia.
    - unfold done_upto. intros; lia.
    - done.
    - intros a b. rewrite elem_of_nil. unfold done_upto. split; [done | lia]. }
  assert (Hrow : forall i st, i < N -> built_upto N L R c i N st ->
    built_upto N L R c (S i) N
      (foldl (fun st j => cell L R c (S i) j st) st (seq 1 N))).
  { intros i st Hi Hst.
    apply (foldl_seq_ind (fun j st => built_upto N L R c (S i) j st)).
    - destruct Hst as [HC HD Hr0 Hc0 Hcost Hdir Hfresh Hpr].
      split; try done.
      + intros a b Ha Hb' Hd. apply Hcost; [done | done |].
        unfold done_upto in *. lia.
      + intros a b Ha Hb' Hd. apply Hdir; [done | done |].
        unfold done_upto in *. lia.
      + intros a b Hd. destruct (decide (a <= N /\ b <= N)) as [Hin | Hout].
        * destruct (decide (b = 0)) as [-> | Hb0].
          -- apply Hfresh. unfold done_upto in *. lia.
          -- apply Hfresh. unfold done_upto in *. lia.
        * apply Hfresh. unfold done_upto in *. lia.
      + intros a b. rewrite Hpr. unfold done_upto. split.
        * intros (Ha & Hb' & Hd & Hnone). repeat split; (done || lia).
        * intros (Ha & Hb' & Hd & Hnone). repeat split; (done || lia).
    - intros j st' Hj Hst'. simpl. by apply built_upto_cell. }
  apply (foldl_seq_ind (fun i st => built_upto N L R c i N st)); [done |].
  intros i st Hi Hst. simpl. by apply Hrow.
Qed.
End BuilderFacts.

(** ** Direction tags *)

(** C3. In every interior cell (i, j) the finished cost matrix holds the
    minimum of the three candidates, and the recorded tag is that of the
    first candidate equal to the minimum when they are tested in the order
    skipRight, match, skipLeft: SKIP_RIGHT wins a tie over MATCH, and MATCH
    over SKIP_LEFT. *)
Theorem direction_tie_break {F : Type} `{Arith F}
    (N : nat) (L R : list Z) (c : F) (i j : nat) :
  1 <= i <= N -> 1 <= j <= N ->
  let st := buildMatrices N L R c in
  let '(match_, skipLeft, skipRight) :=
    candidates L R c (costMatrix st) i j in
  let minimum := get2 zero (costMatrix st) i j in
  let tag := get2 0%Z (directionMatrix st) i j in
  minimum = min_of3 match_ skipLeft skipRight /\
  (feqb minimum skipRight = true -> tag = SKIP_RIGHT) /\
  (feqb minimum skipRight = false -> feqb minimum match_ = true ->
   tag = MATCH) /\
  (feqb minimum skipRight = false -> feqb minimum match_ = false ->
   feqb minimum skipLeft = true -> tag = SKIP_LEFT).
Proof.
  intros Hi Hj st.
  pose proof (buildMatrices_built N L R c) as Hb. fold st in Hb.
  assert (Hd : done_upto N N i j) by (unfold done_upto; lia).
  destruct Hb as [_ _ _ _ Hcost Hdir _ _].
  specialize (Hcost i j Hi Hj Hd). specialize (Hdir i j Hi Hj Hd).
  destruct (candidates L R c (costMatrix st) i j) as [[m1 m2] m3].
  cbv zeta. rewrite Hcost, Hdir. unfold minOf, tagOf.
  split; [done |].
  repeat split; intros; repeat case_match; simpl; congruence.
Qed.

Lemma direction_tie_break_witness :
  let st := buildMatrices 2 [10; 10]%Z [10; 50]%Z (b64 5) in
  let '(match_, skipLeft, skipRight) :=
    candidates [10; 10]%Z [10; 50]%Z (b64 5) (costMatrix st) 2 2 in
  let minimum := get2 zero (costMatrix st) 2 2 in
  let tag := get2 0%Z (directionMatrix st) 2 2 in
  minimum = min_of3 match_ skipLeft skipRight /\
  (feqb minimum skipRight = true -> tag = SKIP_RIGHT) /\
  (feqb minimum skipRight = false -> feqb minimum match_ = true ->
   tag = MATCH) /\
  (feqb minimum skipRight = false -> feqb minimum match_ = false ->
   feqb minimum skipLeft = true -> tag = SKIP_LEFT).
Proof.
  apply (direction_tie_break 2 [10; 10]%Z [10; 50]%Z (b64 5) 2 2); lia.
Defined.

(** ** The minimal example *)

(** C5. For L = [10, 10], R = [10, 50], occlusionCost = 5 and variance = 16
    the subtraction 10 - 50 wraps to 2^64 - 40, its square is 1600 all the
    same, and the matching costs are 100 and 0; cell (1, 1) holds 0 with
    tag MATCH, and cell (2, 2) holds 10 with tag SKIP_RIGHT, skipLeft and
    skipRight being both 10 there. *)
Theorem minimal_example :
  let L := [10; 10]%Z in
  let R := [10; 50]%Z in
  let st := buildMatrices 2 L R (b64 5) in
  sub_uint64 10 50 = (2 ^ 64 - 40)%Z /\
  pow2_int64 (sub_uint64 10 50) = 1600%Z /\
  matchingCost 10 50 = b64 100 /\
  matchingCost 10 10 = b64 0 /\
  get2 zero (costMatrix st) 1 1 = b64 0 /\
  get2 0%Z (directionMatrix st) 1 1 = MATCH /\
  candidates L R (b64 5) (costMatrix st) 2 2 = (b64 100, b64 10, b64 10) /\
  get2 zero (costMatrix st) 2 2 = b64 10 /\
  get2 0%Z (directionMatrix st) 2 2 = SKIP_RIGHT.
Proof. vm_compute. repeat split; reflexivity. Qed.

(** ** Backward traversal *)

Section TraversalFacts.
Context {St : Type}.
Variable emit : nat -> nat -> St -> outcome St.
Variable D : list (list Z).

(** The loop stops at once, whatever the fuel, when a cursor is 0. *)
Lemma backwardTraversal_stop fuel i j (s : St) :
  i = 0 \/ j = 0 -> backwardTraversal emit D fuel i j s = Done (i, j, s).
Proof.
  intros Hz. destruct fuel; simpl;
    destruct i, j; simpl; try reflexivity; lia.
Qed.

(** Otherwise it makes one more iteration, which moves the cursor down by
    one in i, in j, or in both. *)
Lemma backwardTraversal_step fuel i j (s : St) :
  backwardTraversal emit D (S fuel) (S i) (S j) s =
  let tag := get2 0%Z D (S i) (S j) in
  if (tag =? 1)%Z then
    s' ← emit (S i) (S j) s;
    backwardTraversal emit D fuel i j s'
  else if (tag =? 2)%Z then backwardTraversal emit D fuel i (S j) s
  else if (tag =? 3)%Z then backwardTraversal emit D fuel (S i) j s
  else backwardTraversal emit D fuel (S i) (S j) s.
Proof.
  cbn [backwardTraversal Nat.eqb negb andb].
  replace (S i - 1) with i by lia. replace (S j - 1) with j by lia.
  reflexivity.
Qed.

Lemma backwardTraversal_no_fuel i j (s : St) :
  backwardTraversal emit D 0 (S i) (S j) s = OutOfFuel.
Proof. reflexivity. Qed.
End TraversalFacts.

Lemma record_run (D : list (list Z)) (N : nat) :
  valid_tags N D ->
  forall m i j tr, i + j <= m -> i <= N -> j <= N ->
  exists n i' j' tr',
    n <= i + j /\
    (forall fuel, n <= fuel ->
       backwardTraversal record D fuel i j tr = Done (i', j', tr ++ tr')) /\
    (forall fuel, fuel < n ->
       backwardTraversal record D fuel i j tr = OutOfFuel) /\
    (i' = 0 \/ j' = 0) /\
    StronglySorted pair_below tr' /\
    Forall (fun p => 1 <= p.1 <= i /\ 1 <= p.2 <= j) tr'.
Proof.
  intros Hvalid m.
  assert (Hstop : forall i j tr, i = 0 \/ j = 0 ->
    exists n i' j' tr',
      n <= i + j /\
      (forall fuel, n <= fuel ->
         backwardTraversal record D fuel i j tr = Done (i', j', tr ++ tr')) /\
      (forall fuel, fuel < n ->
         backwardTraversal record D fuel i j tr = OutOfFuel) /\
      (i' = 0 \/ j' = 0) /\
      StronglySorted pair_below tr' /\
      Forall (fun p => 1 <= p.1 <= i /\ 1 <= p.2 <= j) tr').
  { intros i j tr Hz. exists 0, i, j, []. rewrite app_nil_r.
    split; [lia |]. split; [| split; [| split; [done | split]]].
    - intros fuel _. by apply backwardTraversal_stop.
    - intros fuel Hf. lia.
    - constructor.
    - constructor. }
  induction m as [| m IH]; intros i j tr Hm Hi Hj.
  { apply Hstop. lia. }
  destruct i as [| i]; [apply Hstop; lia |].
  destruct j as [| j]; [apply Hstop; lia |].
  {
    set (tag := get2 0%Z D (S i) (S j)).
    assert (Htag : tag = MATCH \/ tag = SKIP_LEFT \/ tag = SKIP_RIGHT)
      by (apply Hvalid; lia).
    assert (Hrun : forall i1 j1 tr1 pre,
      i1 <= S i -> j1 <= S j -> i1 + j1 < S i + S j ->
      (forall fuel,
        backwardTraversal record D (S fuel)
          (S i) (S j) tr =
        backwardTraversal record D fuel i1 j1 tr1) ->
      tr1 = tr ++ pre ->
      StronglySorted pair_below pre ->
      Forall (fun p => (1 <= p.1 <= S i /\ 1 <= p.2 <= S j)
                       /\ i1 < p.1 /\ j1 < p.2) pre ->
      exists n i' j' tr',
        n <= S i + S j /\
        (forall fuel, n <= fuel ->
           backwardTraversal record D fuel (S i) (S j) tr
           = Done (i', j', tr ++ tr')) /\
        (forall fuel, fuel < n ->
           backwardTraversal record D fuel (S i) (S j) tr
           = OutOfFuel) /\
        (i' = 0 \/ j' = 0) /\
        StronglySorted pair_below tr' /\
        Forall (fun p => 1 <= p.1 <= S i /\
                         1 <= p.2 <= S j) tr').
    { intros i1 j1 tr1 pre Hi1 Hj1 Hm1 Hstep -> Hpre Hpre_in.
      destruct (IH i1 j1 (tr ++ pre)) as (n & i' & j' & tr' & Hn & Hdone
        & Hfuel & Hzero & Hsorted & Hin); [lia | lia | lia |].
      exists (S n), i', j', (pre ++ tr').
      split; [lia |]. split; [| split; [| split; [done | split]]].
      - intros [| fuel] Hf; [lia |]. rewrite Hstep, Hdone by lia.
        by rewrite app_assoc.
      - intros [| fuel] Hf; [reflexivity |]. rewrite Hstep. apply Hfuel. lia.
      - clear -Hpre Hpre_in Hsorted Hin.
        induction Hpre as [| p pre Hss IHp Hall]; [done |].
        apply Forall_cons in Hpre_in as [Hp Hrest]. simpl.
        constructor; [by apply IHp |].
        apply Forall_app. split; [done |].
        eapply Forall_impl; [exact Hin |]. intros q [Hq1 Hq2].
        unfold pair_below. simpl in *. lia.
      - apply Forall_app. split.
        + eapply Forall_impl; [exact Hpre_in |]. intros q Hq. simpl in *. lia.
        + eapply Forall_impl; [exact Hin |]. intros q Hq. simpl in *. lia. }
    destruct Htag as [Ht | [Ht | Ht]].
    + apply (Hrun i j (tr ++ [(S i, S j)])
               [(S i, S j)]); try lia; try done.
      * intros fuel. rewrite backwardTraversal_step. fold tag. by rewrite Ht.
      * repeat constructor.
      * apply Forall_singleton. simpl. lia.
    + apply (Hrun i (S j) tr []); try lia; try done.
      * intros fuel. rewrite backwardTraversal_step. fold tag. by rewrite Ht.
      * by rewrite app_nil_r.
      * constructor.
    + apply (Hrun (S i) j tr []); try lia; try done.
      * intros fuel. rewrite backwardTraversal_step. fold tag. by rewrite Ht.
      * by rewrite app_nil_r.
      * constructor.
  }
Qed.

(** The loop returns only at a cursor with [i = 0] or [j = 0]. *)
Lemma backwardTraversal_Done {St : Type} (emit : nat -> nat -> St -> outcome St)
    (D : list (list Z)) fuel i0 j0 (s0 : St) i j s :
  backwardTraversal emit D fuel i0 j0 s0 = Done (i, j, s) -> i = 0 \/ j = 0.
Proof.
  revert i0 j0 s0. induction fuel as [| fuel IH]; intros i0 j0 s0.
  - destruct i0, j0; simpl; intros [=]; subst; lia.
  - destruct i0 as [| i0]; [simpl; intros [=]; subst; lia |].
    destruct j0 as [| j0]; [simpl; intros [=]; subst; lia |].
    rewrite backwardTraversal_step. cbv zeta.
    repeat case_match; try apply IH.
    destruct (emit (S i0) (S j0) s0) as [s' | e |]; simpl; [apply IH | done | done].
Qed.

(** C6. On a direction matrix whose interior cells carry MATCH, SKIP_LEFT
    or SKIP_RIGHT, the loop started at (N, N) ends after some number
    [n <= 2 * N] of iterations (with less fuel it is still running, with
    more the result is the same); it returns at once at a cursor with
    i = 0 or j = 0 and only at such a cursor; and the matched pairs it
    emitted are strictly decreasing in both coordinates. *)
Theorem traversal_terminates (N : nat) (D : list (list Z)) :
  valid_tags N D ->
  exists n i j tr,
    n <= 2 * N /\
    (forall fuel, n <= fuel -> matchedPairs D fuel N = Done (i, j, tr)) /\
    (forall fuel, fuel < n -> matchedPairs D fuel N = OutOfFuel) /\
    (i = 0 \/ j = 0) /\
    (forall fuel a b s, a = 0 \/ b = 0 ->
       backwardTraversal record D fuel a b s = Done (a, b, s)) /\
    (forall fuel a0 b0 s0 a b s,
       backwardTraversal record D fuel a0 b0 s0 = Done (a, b, s) ->
       a = 0 \/ b = 0) /\
    StronglySorted pair_below tr /\
    Forall (fun p => 1 <= p.1 <= N /\ 1 <= p.2 <= N) tr.
Proof.
  intros Hvalid.
  destruct (record_run D N Hvalid (N + N) N N []) as
    (n & i & j & tr & Hn & Hdone & Hfuel & Hz & Hss & Hin); [lia | lia | lia |].
  exists n, i, j, tr. unfold matchedPairs.
  split; [lia |]. split; [exact Hdone |]. split; [exact Hfuel |].
  split; [exact Hz |]. split; [intros; by apply backwardTraversal_stop |].
  split; [intros *; apply backwardTraversal_Done |]. by split.
Qed.

(** ** Consequences of the laws *)

Section OrderFacts.
Context {F : Type} `{OrderedArith F}.

Lemma flt_irrefl x : good x -> fltb x x = false.
Proof.
  intros Hx. destruct (fltb x x) eqn:E; [| done].
  by rewrite (flt_asym x x Hx Hx E) in E.
Qed.

Lemma fle_refl x : good x -> fle x x.
Proof. apply flt_irrefl. Qed.

Lemma fle_total x y : good x -> good y -> fle x y \/ fle y x.
Proof.
  intros Hx Hy. unfold fle. destruct (fltb y x) eqn:E; [| by left].
  right. by apply flt_asym.
Qed.

Lemma flt_fle x y : good x -> good y -> fltb x y = true -> fle x y.
Proof. intros. by apply flt_asym. Qed.

Lemma feqb_refl x : good x -> feqb x x = true.
Proof. intros Hx. by apply feqb_eq. Qed.

Lemma flt_neq x y : good x -> good y -> fltb x y = true -> feqb x y = false.
Proof.
  intros Hx Hy Hlt. destruct (feqb x y) eqn:E; [| done].
  apply feqb_eq in E; [| done | done]. subst.
  by rewrite flt_irrefl in Hlt.
Qed.

(** [min(a, b, c)] returns one of its arguments. *)
Lemma min_of3_cases (a b c : F) :
  min_of3 a b c = a \/ min_of3 a b c = b \/ min_of3 a b c = c.
Proof. unfold min_of3. repeat case_match; auto. Qed.

Lemma good_min_of3 a b c : good a -> good b -> good c -> good (min_of3 a b c).
Proof.
  intros. destruct (min_of3_cases a b c) as [-> | [-> | ->]]; done.
Qed.

(** It is a lower bound of the three. *)
Lemma min_of3_le a b c :
  good a -> good b -> good c ->
  fle (min_of3 a b c) a /\ fle (min_of3 a b c) b /\ fle (min_of3 a b c) c.
Proof.
  intros Ha Hb Hc. unfold min_of3.
  destruct (fltb b a) eqn:Eba.
  - assert (Hba : fle b a) by (by apply flt_fle).
    destruct (fltb c b) eqn:Ecb.
    + assert (Hcb : fle c b) by (by apply flt_fle).
      repeat split; [| done | by apply fle_refl].
      by apply (fle_trans c b a).
    + repeat split; [done | by apply fle_refl | done].
  - destruct (fltb c a) eqn:Eca.
    + assert (Hca : fle c a) by (by apply flt_fle).
      repeat split; [done | | by apply fle_refl].
      by apply (fle_trans c a b).
    + repeat split; [by apply fle_refl | done | done].
Qed.

(** So it is the smallest of the three, in whatever order they come. *)
Lemma min_of3_glb a b c m :
  good a -> good b -> good c -> good m ->
  fle m a -> fle m b -> fle m c -> fle m (min_of3 a b c).
Proof.
  intros. destruct (min_of3_cases a b c) as [-> | [-> | ->]]; done.
Qed.

Lemma min_of3_swap a b c :
  good a -> good b -> good c -> min_of3 a c b = min_of3 a b c.
Proof.
  intros Ha Hb Hc.
  pose proof (good_min_of3 a b c Ha Hb Hc) as G1.
  pose proof (good_min_of3 a c b Ha Hc Hb) as G2.
  destruct (min_of3_le a b c Ha Hb Hc) as (L1 & L2 & L3).
  destruct (min_of3_le a c b Ha Hc Hb) as (K1 & K2 & K3).
  apply fle_antisym; [done | done | |]; by apply min_of3_glb.
Qed.
End OrderFacts.

(** ** The finished matrices, cell by cell *)

Section FinishedMatrices.
Context {F : Type} `{Arith F}.
Variables (N : nat) (L R : list Z) (c : F).

Lemma cost_row0 b :
  b <= N -> get2 zero (costMatrix (buildMatrices N L R c)) 0 b = scaled c b.
Proof. intros. by apply (buildMatrices_built N L R c). Qed.

Lemma cost_col0 a :
  a <= N -> get2 zero (costMatrix (buildMatrices N L R c)) a 0 = scaled c a.
Proof. intros. by apply (buildMatrices_built N L R c). Qed.

Lemma cost_interior a b :
  1 <= a <= N -> 1 <= b <= N ->
  get2 zero (costMatrix (buildMatrices N L R c)) a b =
  minOf (candidates L R c (costMatrix (buildMatrices N L R c)) a b).
Proof.
  intros. apply (buildMatrices_built N L R c); [done | done |].
  unfold done_upto. lia.
Qed.

Lemma dir_interior a b :
  1 <= a <= N -> 1 <= b <= N ->
  get2 0%Z (directionMatrix (buildMatrices N L R c)) a b =
  default 1%Z
    (tagOf (candidates L R c (costMatrix (buildMatrices N L R c)) a b)).
Proof.
  intros. apply (buildMatrices_built N L R c); [done | done |].
  unfold done_upto. lia.
Qed.

Lemma printed_iff a b :
  ErrorMatchingMinimum a b ∈ printed (buildMatrices N L R c) <->
  (1 <= a <= N /\ 1 <= b <= N /\
   tagOf (candidates L R c (costMatrix (buildMatrices N L R c)) a b) = None).
Proof.
  rewrite (bu_printed _ _ _ _ _ _ _ (buildMatrices_built N L R c)).
  unfold done_upto. split.
  - intros (? & ? & ? & ?). done.
  - intros (? & ? & ?). repeat split; (done || lia).
Qed.

(** The builder leaves one of the three tags in every interior cell, as
    the matrix starts from ones. *)
Lemma buildMatrices_valid_tags :
  valid_tags N (directionMatrix (buildMatrices N L R c)).
Proof.
  intros i j Hi Hj. rewrite dir_interior by done. unfold tagOf.
  destruct (candidates _ _ _ _ _ _) as [[m1 m2] m3].
  repeat case_match; simpl; auto.
Qed.
End FinishedMatrices.

Lemma uint8s_nth l i : uint8s l -> (0 <= nth i l 0%Z < 256)%Z.
Proof.
  intros Hl. destruct (nth_in_or_default i l 0%Z) as [Hin | ->]; [| lia].
  unfold uint8s in Hl. rewrite Forall_forall in Hl. apply Hl.
  by apply list_elem_of_In.
Qed.

Section GoodCosts.
Context {F : Type} `{OrderedArith F}.
Variables (N : nat) (L R : list Z) (c : F).
Hypothesis Hc : cost_ok c.
Hypothesis HL : uint8s L.
Hypothesis HR : uint8s R.

Lemma good_matchingCost z1 z2 :
  (0 <= z1 < 256)%Z -> (0 <= z2 < 256)%Z -> good (matchingCost z1 z2).
Proof.
  intros H1 H2. unfold matchingCost.
  rewrite pow2_int64_sub_uint64 by done. rewrite <- Z.abs_square.
  apply good_match. lia.
Qed.

Lemma good_scaled i : good (scaled c i).
Proof. apply good_scale; [lia | done]. Qed.

(** Every cell of the finished cost matrix is a good value. *)
Lemma good_cell a b :
  a <= N -> b <= N ->
  good (get2 zero (costMatrix (buildMatrices N L R c)) a b).
Proof.
  remember (a + b) as k eqn:Hk. revert a b Hk.
  induction k as [k IH] using lt_wf_ind. intros a b -> Ha Hb.
  destruct (decide (a = 0)) as [-> | Ha0].
  { rewrite cost_row0 by done. apply good_scaled. }
  destruct (decide (b = 0)) as [-> | Hb0].
  { rewrite cost_col0 by done. apply good_scaled. }
  rewrite cost_interior by lia. unfold minOf, candidates.
  apply good_min_of3.
  - apply good_add; [eapply IH; [| reflexivity | |]; lia |].
    apply good_matchingCost; by apply uint8s_nth.
  - apply good_add; [eapply IH; [| reflexivity | |]; lia | by apply good_cost].
  - apply good_add; [eapply IH; [| reflexivity | |]; lia | by apply good_cost].
Qed.

Lemma good_candidates a b :
  1 <= a <= N -> 1 <= b <= N ->
  let '(m1, m2, m3) :=
    candidates L R c (costMatrix (buildMatrices N L R c)) a b in
  good m1 /\ good m2 /\ good m3.
Proof.
  intros Ha Hb. unfold candidates. repeat split.
  - apply good_add; [apply good_cell; lia |].
    apply good_matchingCost; by apply uint8s_nth.
  - apply good_add; [apply good_cell; lia | by apply good_cost].
  - apply good_add; [apply good_cell; lia | by apply good_cost].
Qed.

(** With good candidates the test of lines 57-62 always finds one. *)
Lemma tagOf_good m1 m2 m3 :
  good m1 -> good m2 -> good m3 -> tagOf (m1, m2, m3) <> None.
Proof.
  intros G1 G2 G3. unfold tagOf.
  destruct (min_of3_cases m1 m2 m3) as [-> | [-> | ->]];
    rewrite ?feqb_refl by done; repeat case_match; done.
Qed.
End GoodCosts.

(** ** binary64: rounding, sign and order *)

Section Binary64Facts.
Local Open Scope Z_scope.

Ltac flia := unfold fexp in *; unfold emin in *; unfold prec, emax in *; lia.

Ltac eflia := unfold ebase in *; flia.

(** *** Number of bits *)

Lemma digits2_pos_bounds (m : positive) :
  2 ^ (Zpos (digits2_pos m) - 1) <= Zpos m < 2 ^ Zpos (digits2_pos m).
Proof.
  induction m as [p IH | p IH |]; cbn [digits2_pos].
  - rewrite Pos2Z.inj_succ, (Pos2Z.inj_xI p).
    replace (Z.succ (Zpos (digits2_pos p)) - 1) with (Z.succ (Zpos (digits2_pos p) - 1)) by lia.
    rewrite !Z.pow_succ_r by lia. lia.
  - rewrite Pos2Z.inj_succ, (Pos2Z.inj_xO p).
    replace (Z.succ (Zpos (digits2_pos p)) - 1) with (Z.succ (Zpos (digits2_pos p) - 1)) by lia.
    rewrite !Z.pow_succ_r by lia. lia.
  - simpl. lia.
Qed.

Lemma digits2_pos_unique (m : positive) (d : Z) :
  2 ^ (d - 1) <= Zpos m < 2 ^ d -> Zpos (digits2_pos m) = d.
Proof.
  intros [Hlo Hhi]. pose proof (digits2_pos_bounds m) as [Blo Bhi].
  assert (Hd : 0 <= d).
  { destruct (Z_lt_le_dec d 0) as [Hneg | ?]; [| done].
    rewrite Z.pow_neg_r in Hhi by done. lia. }
  destruct (Z_lt_le_dec (Zpos (digits2_pos m)) d) as [Hlt | Hge].
  - assert (2 ^ Zpos (digits2_pos m) <= 2 ^ (d - 1)) by (apply Z.pow_le_mono_r; lia).
    lia.
  - destruct (Z_lt_le_dec d (Zpos (digits2_pos m))) as [Hgt | Hle]; [| lia].
    assert (2 ^ d <= 2 ^ (Zpos (digits2_pos m) - 1)) by (apply Z.pow_le_mono_r; lia).
    lia.
Qed.

(** *** Shifts *)

Lemma shr_1_spec m r s :
  0 <= m ->
  shr_1 {| shr_m := m; shr_r := r; shr_s := s |} =
  {| shr_m := m / 2; shr_r := Z.odd m; shr_s := r || s |}.
Proof.
  intros Hm. destruct m as [| [p | p |] | p]; try lia; cbn [shr_1].
  - reflexivity.
  - f_equal. rewrite (Pos2Z.inj_xI p). apply Z.div_unique with 1; lia.
  - f_equal. rewrite (Pos2Z.inj_xO p). apply Z.div_unique with 0; lia.
  - reflexivity.
Qed.

Lemma iter_pos_nat {A} (f : A -> A) (p : positive) (x : A) :
  SpecFloat.iter_pos f p x = Nat.iter (Pos.to_nat p) f x.
Proof.
  revert x. induction p as [p IH | p IH |]; intros x; cbn [SpecFloat.iter_pos].
  - rewrite !IH. rewrite Pos2Nat.inj_xI.
    replace (S (2 * Pos.to_nat p))%nat with (Pos.to_nat p + (Pos.to_nat p + 1))%nat by lia.
    rewrite !Nat.iter_add. simpl. reflexivity.
  - rewrite !IH. rewrite Pos2Nat.inj_xO.
    replace (2 * Pos.to_nat p)%nat with (Pos.to_nat p + Pos.to_nat p)%nat by lia.
    by rewrite Nat.iter_add.
  - reflexivity.
Qed.

(** After [n + 1] shifts of [m]: the quotient, the last bit shifted out,
    and whether anything else was shifted out. *)
Lemma shr_iter (n : nat) (m : Z) :
  0 <= m ->
  Nat.iter (S n) shr_1 {| shr_m := m; shr_r := false; shr_s := false |} =
  {| shr_m := m / 2 ^ Z.of_nat (S n);
     shr_r := Z.odd (m / 2 ^ Z.of_nat n);
     shr_s := negb (m mod 2 ^ Z.of_nat n =? 0) |}.
Proof.
  intros Hm. induction n as [| n IH].
  - cbn [Nat.iter]. rewrite shr_1_spec by done. simpl Z.of_nat.
    rewrite Z.pow_0_r, Z.pow_1_r, Z.div_1_r, Z.mod_1_r. reflexivity.
  - change (Nat.iter (S (S n)) shr_1 ?x) with (shr_1 (Nat.iter (S n) shr_1 x)).
    rewrite IH. rewrite shr_1_spec by (apply Z.div_pos; lia).
    assert (Hp : 0 < 2 ^ Z.of_nat n) by (apply Z.pow_pos_nonneg; lia).
    f_equal.
    + rewrite Z.div_div by lia. f_equal.
      rewrite (Nat2Z.inj_succ (S n)), Z.pow_succ_r by lia. lia.
    + rewrite (Nat2Z.inj_succ n), Z.pow_succ_r by lia.
      rewrite (Z.mul_comm 2), Z.rem_mul_r by lia.
      rewrite Zodd_mod, Zmod_odd.
      destruct (Z.odd (m / 2 ^ Z.of_nat n)) eqn:Eo; simpl.
      * pose proof (Z.mod_pos_bound m (2 ^ Z.of_nat n) Hp).
        symmetry. apply negb_true_iff, Z.eqb_neq. lia.
      * rewrite Z.mul_0_r, Z.add_0_r. reflexivity.
Qed.

(** *** Rounding to nearest, ties to even *)

Lemma nearest_even_bounds V G : V / G <= nearest_even V G <= V / G + 1.
Proof.
  unfold nearest_even. destruct (2 * (V mod G) ?= G); [destruct (Z.even _) | |]; lia.
Qed.

Lemma nearest_even_mono V1 V2 G : 0 < G -> 0 <= V1 <= V2 -> nearest_even V1 G <= nearest_even V2 G.
Proof.
  intros HG HV.
  pose proof (Z.div_mod V1 G ltac:(lia)) as E1.
  pose proof (Z.div_mod V2 G ltac:(lia)) as E2.
  pose proof (Z.mod_pos_bound V1 G HG) as B1.
  pose proof (Z.mod_pos_bound V2 G HG) as B2.
  assert (Hq : V1 / G <= V2 / G) by (apply Z.div_le_mono; lia).
  destruct (Z_lt_le_dec (V1 / G) (V2 / G)) as [Hlt | Hge].
  - pose proof (nearest_even_bounds V1 G). pose proof (nearest_even_bounds V2 G). lia.
  - assert (Heq : V1 / G = V2 / G) by lia.
    unfold nearest_even. rewrite Heq in *.
    destruct (Z.compare_spec (2 * (V1 mod G)) G),
      (Z.compare_spec (2 * (V2 mod G)) G);
      destruct (Z.even (V2 / G)); lia.
Qed.

Lemma nearest_even_scale V G c : 0 < G -> 0 < c -> nearest_even (V * c) (G * c) = nearest_even V G.
Proof.
  intros HG Hc. unfold nearest_even.
  rewrite Z.div_mul_cancel_r by lia. rewrite Z.mul_mod_distr_r by lia.
  destruct (Z.compare_spec (2 * (V mod G * c)) (G * c)),
    (Z.compare_spec (2 * (V mod G)) G); try reflexivity; nia.
Qed.

Lemma nearest_even_1 V : nearest_even V 1 = V.
Proof. unfold nearest_even. rewrite Z.mod_1_r, Z.div_1_r. reflexivity. Qed.

(** The shift by [n] bits followed by the rounding of the record. *)
Lemma round_shift (n : nat) (m : Z) :
  0 <= m ->
  let R := Nat.iter n shr_1 {| shr_m := m; shr_r := false; shr_s := false |} in
  round_nearest_even (shr_m R) (loc_of_shr_record R) = nearest_even m (2 ^ Z.of_nat n).
Proof.
  intros Hm. destruct n as [| n]; cbv zeta.
  - simpl. by rewrite nearest_even_1.
  - rewrite shr_iter by done. cbn [shr_m loc_of_shr_record].
    assert (Hp : 0 < 2 ^ Z.of_nat n) by (apply Z.pow_pos_nonneg; lia).
    pose proof (Z.mod_pos_bound m (2 ^ Z.of_nat n) Hp) as Blow.
    assert (Hrho : m mod 2 ^ Z.of_nat (S n) =
                   m mod 2 ^ Z.of_nat n
                   + 2 ^ Z.of_nat n * (m / 2 ^ Z.of_nat n mod 2)).
    { rewrite (Nat2Z.inj_succ n), Z.pow_succ_r by lia.
      rewrite (Z.mul_comm 2). apply Z.rem_mul_r; lia. }
    assert (HG : 2 ^ Z.of_nat (S n) = 2 * 2 ^ Z.of_nat n)
      by (rewrite (Nat2Z.inj_succ n), Z.pow_succ_r by lia; done).
    unfold nearest_even. rewrite Hrho, HG. rewrite Zmod_odd.
    destruct (Z.odd (m / 2 ^ Z.of_nat n)) eqn:Eo;
      destruct (Z.eqb_spec (m mod 2 ^ Z.of_nat n) 0) as [E0 | E0];
      cbn [negb round_nearest_even].
    + rewrite E0. replace (2 * (0 + 2 ^ Z.of_nat n * 1)) with (2 * 2 ^ Z.of_nat n) by ring.
      rewrite Z.compare_refl. reflexivity.
    + destruct (Z.compare_spec (2 * (m mod 2 ^ Z.of_nat n + 2 ^ Z.of_nat n * 1))
                  (2 * 2 ^ Z.of_nat n)); lia || reflexivity.
    + rewrite E0.
      destruct (Z.compare_spec (2 * (0 + 2 ^ Z.of_nat n * 0))
                  (2 * 2 ^ Z.of_nat n)); lia || reflexivity.
    + destruct (Z.compare_spec (2 * (m mod 2 ^ Z.of_nat n + 2 ^ Z.of_nat n * 0))
                  (2 * 2 ^ Z.of_nat n)); lia || reflexivity.
Qed.

Lemma nearest_even_exact a G : 0 < G -> nearest_even (a * G) G = a.
Proof.
  intros HG. unfold nearest_even. rewrite Z.mod_mul, Z.div_mul by lia.
  destruct (Z.compare_spec (2 * 0) G); lia.
Qed.

Lemma nearest_even_upper V G a : 0 < G -> 0 <= V <= a * G -> nearest_even V G <= a.
Proof.
  intros HG HV. rewrite <- (nearest_even_exact a G HG). apply nearest_even_mono; lia.
Qed.

Lemma nearest_even_lower V G a : 0 < G -> 0 <= a * G <= V -> a <= nearest_even V G.
Proof.
  intros HG HV. rewrite <- (nearest_even_exact a G HG). apply nearest_even_mono; lia.
Qed.

Lemma pow2_pos a : 0 <= a -> 0 < 2 ^ a.
Proof. intros. apply Z.pow_pos_nonneg; lia. Qed.

Lemma pow2_le a b : a <= b -> 2 ^ a <= 2 ^ b.
Proof. intros. apply Z.pow_le_mono_r; lia. Qed.

Lemma pow2_add a b : 0 <= a -> 0 <= b -> 2 ^ (a + b) = 2 ^ a * 2 ^ b.
Proof. intros. by apply Z.pow_add_r. Qed.

(** *** Number of bits *)

Lemma Zdigits2_bounds V : 0 < V -> 2 ^ (Zdigits2 V - 1) <= V < 2 ^ Zdigits2 V.
Proof. destruct V as [| p | p]; try lia. intros _. apply digits2_pos_bounds. Qed.

Lemma Zdigits2_unique V d : 2 ^ (d - 1) <= V < 2 ^ d -> 0 < V -> Zdigits2 V = d.
Proof. destruct V as [| p | p]; try lia. intros Hb _. by apply digits2_pos_unique. Qed.

Lemma Zdigits2_pos V : 0 < V -> 0 < Zdigits2 V.
Proof. destruct V as [| p | p]; simpl; lia. Qed.

Lemma Zdigits2_mono V1 V2 : 0 < V1 <= V2 -> Zdigits2 V1 <= Zdigits2 V2.
Proof.
  intros HV. pose proof (Zdigits2_bounds V1 ltac:(lia)) as [L1 U1].
  pose proof (Zdigits2_bounds V2 ltac:(lia)) as [L2 U2].
  destruct (Z_le_gt_dec (Zdigits2 V1) (Zdigits2 V2)) as [| Hgt]; [done |].
  pose proof (pow2_le (Zdigits2 V2) (Zdigits2 V1 - 1) ltac:(lia)). lia.
Qed.

Lemma Zdigits2_shift V j : 0 < V -> 0 <= j -> Zdigits2 (V * 2 ^ j) = Zdigits2 V + j.
Proof.
  intros HV Hj. pose proof (Zdigits2_bounds V HV) as [L U].
  pose proof (Zdigits2_pos V HV) as Hd. pose proof (pow2_pos j Hj) as Hp.
  apply Zdigits2_unique; [| nia].
  replace (Zdigits2 V + j - 1) with (Zdigits2 V - 1 + j) by lia.
  rewrite !pow2_add by lia. nia.
Qed.

(** *** The two stages of [binary_round_aux] *)

Lemma shr_fexp_round m e :
  e <= fexp prec emax (Zpos (digits2_pos m) + e) ->
  let R := shr_fexp prec emax (Zpos m) e loc_Exact in
  round_nearest_even (shr_m (fst R)) (loc_of_shr_record (fst R))
  = nearest_even (Zpos m) (2 ^ (fexp prec emax (Zpos (digits2_pos m) + e) - e))
  /\ snd R = fexp prec emax (Zpos (digits2_pos m) + e).
Proof.
  intros He. unfold shr_fexp, shr. cbn [Zdigits2 shr_record_of_loc].
  destruct (fexp prec emax (Zpos (digits2_pos m) + e) - e) as [| p | p] eqn:E;
    cbn [fst snd]; [| | lia].
  - cbn [shr_m loc_of_shr_record round_nearest_even]. rewrite Z.pow_0_r, nearest_even_1.
    split; [done | lia].
  - rewrite iter_pos_nat. rewrite round_shift by lia.
    rewrite positive_nat_Z. split; [done | lia].
Qed.

Lemma second_stage p f :
  Zpos p <= 2 ^ prec -> emin prec emax <= f ->
  (emin prec emax < f -> 2 ^ (prec - 1) <= Zpos p) ->
  (let '(mrs, e) := shr_fexp prec emax (Zpos p) f loc_Exact in
   match shr_m mrs with
   | Z0 => S754_zero false
   | Zpos m => if e <=? emax - prec then S754_finite false m e
               else S754_infinity false
   | Zneg _ => S754_nan
   end) = pack64 (Zpos p) f.
Proof.
  intros Hq Hf Hn. unfold pack64.
  destruct (Z.eqb_spec (Zpos p) (2 ^ prec)) as [E | E].
  - assert (p = Z.to_pos (2 ^ prec)) as -> by (rewrite <- E; done).
    unfold shr_fexp, shr. cbn [Zdigits2 shr_record_of_loc].
    replace (Zpos (digits2_pos (Z.to_pos (2 ^ prec)))) with (prec + 1)
      by (vm_compute; done).
    replace (fexp prec emax (prec + 1 + f) - f) with 1 by flia.
    replace (Z.to_pos (2 ^ prec)) with (xO (Z.to_pos (2 ^ (prec - 1))))
      by (vm_compute; done).
    cbn [SpecFloat.iter_pos shr_1 shr_m orb]. reflexivity.
  - pose proof (digits2_pos_bounds p) as [L U].
    assert (Hd : Zpos (digits2_pos p) <= prec).
    { destruct (Z_le_gt_dec (Zpos (digits2_pos p)) prec) as [| Hgt]; [done |].
      pose proof (pow2_le prec (Zpos (digits2_pos p) - 1) ltac:(lia)). lia. }
    assert (Hd' : emin prec emax < f -> Zpos (digits2_pos p) = prec).
    { intros Hlt. specialize (Hn Hlt).
      destruct (Z_le_gt_dec prec (Zpos (digits2_pos p))) as [| Hgt]; [lia |].
      pose proof (pow2_le (Zpos (digits2_pos p)) (prec - 1) ltac:(lia)). lia. }
    unfold shr_fexp, shr. cbn [Zdigits2 shr_record_of_loc].
    replace (fexp prec emax (Zpos (digits2_pos p) + f) - f) with 0.
    + cbn [shr_m]. reflexivity.
    + destruct (Z_le_gt_dec f (emin prec emax)) as [Hle | Hgt].
      * flia.
      * specialize (Hd' ltac:(lia)). rewrite Hd'. flia.
Qed.

(** With an exponent not above the target one, [binary_round_aux] shifts
    the mantissa to the target exponent, rounds it to nearest-even and
    packs the result. *)
Lemma binary_round_aux_pack64 m e :
  e <= fexp prec emax (Zpos (digits2_pos m) + e) ->
  binary_round_aux prec emax false (Zpos m) e loc_Exact
  = pack64 (nearest_even (Zpos m) (2 ^ (fexp prec emax (Zpos (digits2_pos m) + e) - e)))
         (fexp prec emax (Zpos (digits2_pos m) + e)).
Proof.
  intros He. unfold binary_round_aux.
  pose proof (shr_fexp_round m e He) as [Hr Hs]. cbv zeta in Hr, Hs.
  destruct (shr_fexp prec emax (Zpos m) e loc_Exact) as [R e'].
  cbn [fst snd] in Hr, Hs. rewrite Hr, Hs. clear Hr Hs R e'.
  set (f := fexp prec emax (Zpos (digits2_pos m) + e)) in *.
  assert (Hf : emin prec emax <= f) by (subst f; flia).
  pose proof (digits2_pos_bounds m) as [L U].
  assert (HG : 0 < 2 ^ (f - e)) by (apply pow2_pos; lia).
  assert (Hup : nearest_even (Zpos m) (2 ^ (f - e)) <= 2 ^ prec).
  { apply nearest_even_upper; [done |]. split; [lia |].
    rewrite <- pow2_add by (unfold prec; lia).
    pose proof (pow2_le (Zpos (digits2_pos m)) (prec + (f - e)) ltac:(subst f; flia)).
    lia. }
  assert (Hlo : emin prec emax < f -> 2 ^ (prec - 1) <= nearest_even (Zpos m) (2 ^ (f - e))).
  { intros Hlt. apply nearest_even_lower; [done |].
    assert (0 < 2 ^ (prec - 1)) by (apply pow2_pos; unfold prec; lia).
    split; [lia |].
    rewrite <- pow2_add by (unfold prec; lia).
    replace (prec - 1 + (f - e)) with (Zpos (digits2_pos m) - 1) by (subst f; flia).
    done. }
  assert (H0 : 0 <= nearest_even (Zpos m) (2 ^ (f - e))).
  { pose proof (nearest_even_bounds (Zpos m) (2 ^ (f - e))).
    assert (0 <= Zpos m / 2 ^ (f - e)) by (apply Z.div_pos; lia). lia. }
  destruct (nearest_even (Zpos m) (2 ^ (f - e))) as [| q | q] eqn:Eq; [| | lia].
  - unfold shr_fexp, shr. cbn [Zdigits2 shr_record_of_loc pack64].
    destruct (fexp prec emax (0 + f) - f) as [| p | p] eqn:E; [done | flia | done].
  - by apply second_stage.
Qed.

Lemma overflow64_pos : 0 < overflow64.
Proof. apply pow2_pos. eflia. Qed.

Lemma overflow64_split a : 0 <= a <= emax - ebase -> overflow64 = 2 ^ a * 2 ^ (emax - ebase - a).
Proof.
  intros Ha. unfold overflow64. rewrite <- pow2_add by lia. f_equal. lia.
Qed.

Lemma pow2_prec : 2 ^ prec = 2 * 2 ^ (prec - 1).
Proof. reflexivity. Qed.

Lemma mantissa_range m e :
  let f := fexp prec emax (Zpos (digits2_pos m) + e) in
  let q := nearest_even (Zpos m) (2 ^ (f - e)) in
  e <= f ->
  0 <= q <= 2 ^ prec /\ (emin prec emax < f -> 2 ^ (prec - 1) <= q).
Proof.
  intros f q He.
  pose proof (digits2_pos_bounds m) as [L U].
  assert (HG : 0 < 2 ^ (f - e)) by (apply pow2_pos; lia).
  repeat split.
  - pose proof (nearest_even_bounds (Zpos m) (2 ^ (f - e))).
    assert (0 <= Zpos m / 2 ^ (f - e)) by (apply Z.div_pos; lia). subst q. lia.
  - apply nearest_even_upper; [done |]. split; [lia |].
    rewrite <- pow2_add by (unfold prec; lia).
    pose proof (pow2_le (Zpos (digits2_pos m)) (prec + (f - e)) ltac:(subst f; flia)).
    lia.
  - intros Hlt. apply nearest_even_lower; [done |].
    assert (0 < 2 ^ (prec - 1)) by (apply pow2_pos; unfold prec; lia).
    split; [lia |].
    rewrite <- pow2_add by (unfold prec; lia).
    replace (prec - 1 + (f - e)) with (Zpos (digits2_pos m) - 1) by (subst f; flia).
    done.
Qed.

Lemma fexp_fix p f :
  Zpos p < 2 ^ prec -> emin prec emax <= f ->
  (emin prec emax < f -> 2 ^ (prec - 1) <= Zpos p) ->
  fexp prec emax (Zpos (digits2_pos p) + f) = f.
Proof.
  intros Hq Hf Hn. pose proof (digits2_pos_bounds p) as [L U].
  assert (Hd : Zpos (digits2_pos p) <= prec).
  { destruct (Z_le_gt_dec (Zpos (digits2_pos p)) prec) as [| Hgt]; [done |].
    pose proof (pow2_le prec (Zpos (digits2_pos p) - 1) ltac:(lia)). lia. }
  destruct (Z_le_gt_dec f (emin prec emax)) as [Hle | Hgt]; [flia |].
  specialize (Hn ltac:(lia)).
  assert (Zpos (digits2_pos p) = prec) as ->; [| flia].
  destruct (Z_le_gt_dec prec (Zpos (digits2_pos p))) as [| Hgt']; [lia |].
  pose proof (pow2_le (Zpos (digits2_pos p)) (prec - 1) ltac:(lia)). lia.
Qed.

Lemma value64_pack64 q f :
  0 <= q <= 2 ^ prec -> emin prec emax <= f ->
  (emin prec emax < f -> 2 ^ (prec - 1) <= q) ->
  value64 (pack64 q f) = Z.min (q * 2 ^ (f - ebase)) overflow64.
Proof.
  intros Hq Hf Hn. pose proof overflow64_pos as Hcap.
  assert (HP : 0 < 2 ^ (f - ebase)) by (apply pow2_pos; eflia).
  assert (H52 : 0 < 2 ^ (prec - 1)) by (apply pow2_pos; unfold prec; lia).
  pose proof pow2_prec as H53.
  destruct q as [| p | p]; [simpl; lia | | lia]. unfold pack64.
  destruct (Z.eqb_spec (Zpos p) (2 ^ prec)) as [E | E].
  - rewrite E. destruct (Z.leb_spec (f + 1) (emax - prec)) as [Hle | Hgt]; cbn [value64].
    + rewrite Z2Pos.id by done.
      replace (f + 1 - ebase) with (1 + (f - ebase)) by lia.
      rewrite pow2_add by eflia. change (2 ^ 1) with 2.
      rewrite (overflow64_split prec) by eflia.
      pose proof (pow2_le (1 + (f - ebase)) (emax - ebase - prec) ltac:(lia)) as Hm.
      rewrite pow2_add in Hm by eflia. change (2 ^ 1) with 2 in Hm. nia.
    + rewrite (overflow64_split prec) by eflia.
      pose proof (pow2_le (emax - ebase - prec) (f - ebase) ltac:(lia)) as Hm.
      assert (0 < 2 ^ (emax - ebase - prec)) by (apply pow2_pos; eflia). nia.
  - destruct (Z.leb_spec f (emax - prec)) as [Hle | Hgt]; cbn [value64].
    + rewrite (overflow64_split prec) by eflia.
      pose proof (pow2_le (f - ebase) (emax - ebase - prec) ltac:(lia)) as Hm.
      nia.
    + specialize (Hn ltac:(flia)).
      rewrite (overflow64_split (prec - 1)) by eflia.
      pose proof (pow2_le (emax - ebase - (prec - 1)) (f - ebase) ltac:(lia)) as Hm.
      assert (0 < 2 ^ (emax - ebase - (prec - 1))) by (apply pow2_pos; eflia). nia.
Qed.

Lemma canonical_pack64 q f :
  0 <= q <= 2 ^ prec -> emin prec emax <= f ->
  (emin prec emax < f -> 2 ^ (prec - 1) <= q) ->
  canonical64 (pack64 q f).
Proof.
  intros Hq Hf Hn. destruct q as [| p | p]; [done | | lia]. unfold pack64.
  destruct (Z.eqb_spec (Zpos p) (2 ^ prec)) as [E | E].
  - destruct (Z.leb_spec (f + 1) (emax - prec)) as [Hle | Hgt]; [| done].
    split; [simpl; lia |]. cbn [valid_binary]. unfold bounded, canonical_mantissa.
    apply andb_true_intro. split; [| by apply Z.leb_le].
    apply Z.eqb_eq.
    replace (Zpos (digits2_pos (Z.to_pos (2 ^ (prec - 1))))) with prec
      by (vm_compute; done).
    flia.
  - destruct (Z.leb_spec f (emax - prec)) as [Hle | Hgt]; [| done].
    split; [simpl; lia |]. cbn [valid_binary]. unfold bounded, canonical_mantissa.
    apply andb_true_intro. split; [| by apply Z.leb_le].
    apply Z.eqb_eq. apply fexp_fix; [lia | done | done].
Qed.

(** The value of the result is the rounded value of the input, and the
    result is canonical. *)
Lemma binary_round_aux_value64 m e :
  ebase <= e -> e <= fexp prec emax (Zpos (digits2_pos m) + e) ->
  value64 (binary_round_aux prec emax false (Zpos m) e loc_Exact)
  = round64 (Zpos m * 2 ^ (e - ebase))
  /\ canonical64 (binary_round_aux prec emax false (Zpos m) e loc_Exact).
Proof.
  intros Hb He. rewrite binary_round_aux_pack64 by done.
  pose proof (mantissa_range m e He) as [Hq Hn]. cbv zeta in Hq, Hn.
  set (f := fexp prec emax (Zpos (digits2_pos m) + e)) in *.
  assert (Hf : emin prec emax <= f) by (subst f; flia).
  split; [| by apply canonical_pack64].
  rewrite value64_pack64 by done. unfold round64.
  rewrite Zdigits2_shift by lia. cbn [Zdigits2].
  replace (Zpos (digits2_pos m) + (e - ebase) + ebase)
    with (Zpos (digits2_pos m) + e) by lia.
  fold f. replace (f - ebase) with ((f - e) + (e - ebase)) at 2 by lia.
  rewrite (pow2_add (f - e)) by lia.
  rewrite nearest_even_scale by (apply pow2_pos; lia). reflexivity.
Qed.

(** *** The rounding is monotone and leaves a float unchanged *)

Lemma nearest_even_nonneg V G : 0 <= V -> 0 < G -> 0 <= nearest_even V G.
Proof.
  intros HV HG. pose proof (nearest_even_bounds V G).
  assert (0 <= V / G) by (apply Z.div_pos; lia). lia.
Qed.

Lemma round64_0 : round64 0 = 0.
Proof.
  unfold round64. cbn [Zdigits2].
  pose proof (nearest_even_exact 0 (2 ^ (fexp prec emax (0 + ebase) - ebase))
                ltac:(apply pow2_pos; eflia)) as E.
  rewrite Z.mul_0_l in E. rewrite E.
  pose proof overflow64_pos. lia.
Qed.

Lemma round64_nonneg V : 0 <= V -> 0 <= round64 V.
Proof.
  intros HV. unfold round64. pose proof overflow64_pos.
  assert (0 < 2 ^ (fexp prec emax (Zdigits2 V + ebase) - ebase))
    by (apply pow2_pos; eflia).
  pose proof (nearest_even_nonneg V _ HV H0). nia.
Qed.

(** Rounding is monotone, across binades and into overflow. *)
Lemma round64_mono V1 V2 : 0 <= V1 <= V2 -> round64 V1 <= round64 V2.
Proof.
  intros HV. destruct (Z.eq_dec V1 0) as [-> | Hnz].
  { rewrite round64_0. apply round64_nonneg. lia. }
  unfold round64. apply Z.min_le_compat_r.
  pose proof (Zdigits2_mono V1 V2 ltac:(lia)) as HD.
  pose proof (Zdigits2_bounds V1 ltac:(lia)) as [L1 U1].
  pose proof (Zdigits2_bounds V2 ltac:(lia)) as [L2 U2].
  pose proof (Zdigits2_pos V1 ltac:(lia)) as P1.
  set (D1 := Zdigits2 V1) in *. set (D2 := Zdigits2 V2) in *.
  set (f1 := fexp prec emax (D1 + ebase)). set (f2 := fexp prec emax (D2 + ebase)).
  assert (Hf : f1 <= f2) by (subst f1 f2; flia).
  assert (HG1 : 0 < 2 ^ (f1 - ebase)) by (apply pow2_pos; subst f1; eflia).
  assert (HG2 : 0 < 2 ^ (f2 - ebase)) by (apply pow2_pos; subst f2; eflia).
  destruct (Z.eq_dec f1 f2) as [E | NE].
  - rewrite E. pose proof (nearest_even_mono V1 V2 (2 ^ (f2 - ebase)) HG2 ltac:(lia)). nia.
  - assert (E2 : f2 = D2 + ebase - prec) by (subst f1 f2; flia).
    assert (HDlt : D1 < D2) by (subst f1 f2; flia).
    assert (Hmid : 2 ^ D1 <= 2 ^ (D2 - 1)) by (apply pow2_le; lia).
    transitivity (2 ^ (D2 - 1)).
    + replace (D2 - 1) with ((D2 - 1 - (f1 - ebase)) + (f1 - ebase)) by lia.
      rewrite pow2_add by (subst f1; eflia).
      apply Z.mul_le_mono_nonneg_r; [lia |].
      apply nearest_even_upper; [done |]. split; [lia |].
      rewrite <- pow2_add by (subst f1; eflia).
      replace (D2 - 1 - (f1 - ebase) + (f1 - ebase)) with (D2 - 1) by lia. lia.
    + replace (D2 - 1) with ((prec - 1) + (f2 - ebase)) at 1 by lia.
      rewrite pow2_add by (subst f2; eflia).
      apply Z.mul_le_mono_nonneg_r; [lia |].
      apply nearest_even_lower; [done |].
      rewrite <- pow2_add by (subst f2; eflia).
      replace (prec - 1 + (f2 - ebase)) with (D2 - 1) by lia.
      split; [| lia]. apply Z.lt_le_incl, pow2_pos. lia.
Qed.

Lemma bounded_inv m e :
  bounded prec emax m e = true ->
  fexp prec emax (Zpos (digits2_pos m) + e) = e /\ e <= emax - prec.
Proof.
  unfold bounded, canonical_mantissa. intros [H1 H2]%andb_true_iff.
  apply Z.eqb_eq in H1. apply Z.leb_le in H2. done.
Qed.

(** A canonical mantissa has at most [prec] bits, and exactly [prec] above
    the smallest exponent. *)
Lemma bounded_mantissa m e :
  bounded prec emax m e = true ->
  emin prec emax <= e <= emax - prec /\ Zpos m < 2 ^ prec /\
  (emin prec emax < e -> 2 ^ (prec - 1) <= Zpos m).
Proof.
  intros [Hc He]%bounded_inv. pose proof (digits2_pos_bounds m) as [L U].
  split; [flia |]. split.
  - pose proof (pow2_le (Zpos (digits2_pos m)) prec ltac:(flia)). lia.
  - intros Hlt. replace (prec - 1) with (Zpos (digits2_pos m) - 1) by flia. done.
Qed.

Lemma value64_finite_lt_overflow64 m e :
  bounded prec emax m e = true -> 0 < value64 (S754_finite false m e) < overflow64.
Proof.
  intros (He & Hm & _)%bounded_mantissa. cbn [value64].
  assert (0 < 2 ^ (e - ebase)) by (apply pow2_pos; eflia).
  split; [nia |]. rewrite (overflow64_split prec) by eflia.
  pose proof (pow2_le (e - ebase) (emax - ebase - prec) ltac:(lia)). nia.
Qed.

(** A float rounds to itself. *)
Lemma round64_idem m e :
  bounded prec emax m e = true ->
  round64 (value64 (S754_finite false m e)) = value64 (S754_finite false m e).
Proof.
  intros Hb. pose proof (value64_finite_lt_overflow64 m e Hb) as Hk.
  pose proof (bounded_inv m e Hb) as [Hc He].
  pose proof (bounded_mantissa m e Hb) as (He' & _).
  cbn [value64] in *. unfold round64.
  rewrite Zdigits2_shift by eflia. cbn [Zdigits2].
  replace (Zpos (digits2_pos m) + (e - ebase) + ebase)
    with (Zpos (digits2_pos m) + e) by lia.
  rewrite Hc. rewrite nearest_even_exact by (apply pow2_pos; eflia). lia.
Qed.

Lemma value64_range x : canonical64 x -> 0 <= value64 x <= overflow64.
Proof.
  pose proof overflow64_pos.
  destruct x as [[] | [] | | [] m e]; intros [Hg Hv]; try done; cbn [value64]; try lia.
  pose proof (value64_finite_lt_overflow64 m e Hv) as Hk. cbn [value64] in Hk. lia.
Qed.

(** *** The order is the order of the values *)

Lemma value64_lt_exp mx ex my ey :
  bounded prec emax mx ex = true -> bounded prec emax my ey = true ->
  ex < ey -> value64 (S754_finite false mx ex) < value64 (S754_finite false my ey).
Proof.
  intros (Hex & Hmx & _)%bounded_mantissa (Hey & _ & Hmy)%bounded_mantissa Hlt.
  specialize (Hmy ltac:(lia)). cbn [value64].
  pose proof pow2_prec as H53.
  assert (0 < 2 ^ (ex - ebase)) by (apply pow2_pos; eflia).
  pose proof (pow2_le (1 + (ex - ebase)) (ey - ebase) ltac:(lia)) as Hm.
  rewrite pow2_add in Hm by eflia. change (2 ^ 1) with 2 in Hm. nia.
Qed.

(** [SFltb] on canonical values compares their values. *)
Lemma value64_lt x y : canonical64 x -> canonical64 y ->
  SFltb x y = true <-> value64 x < value64 y.
Proof.
  pose proof overflow64_pos as Hcap.
  destruct x as [[] | [] | | [] mx ex]; intros [Hgx Hvx]; try done;
  destruct y as [[] | [] | | [] my ey]; intros [Hgy Hvy]; try done;
    cbn [valid_binary] in *;
    try pose proof (value64_finite_lt_overflow64 mx ex Hvx) as Hkx;
    try pose proof (value64_finite_lt_overflow64 my ey Hvy) as Hky;
    unfold SFltb; cbn [SFcompare value64] in *; try (split; [done | lia]);
    try (split; [lia | done]).
  assert (Hpx : 0 < 2 ^ (ex - ebase)) by (apply pow2_pos; simpl in *; eflia).
  destruct (Z.compare_spec ex ey) as [-> | Hlt | Hgt].
  - fold (Pos.compare mx my).
    destruct (Pos.compare_spec mx my) as [-> | Hm | Hm]; split; try done; try nia.
  - pose proof (value64_lt_exp mx ex my ey Hvx Hvy Hlt) as Hk. cbn [value64] in Hk. done.
  - pose proof (value64_lt_exp my ey mx ex Hvy Hvx Hgt) as Hk. cbn [value64] in Hk.
    split; [done | lia].
Qed.

Lemma value64_le x y : canonical64 x -> canonical64 y ->
  SFltb y x = false <-> value64 x <= value64 y.
Proof.
  intros Hx Hy. rewrite <- not_true_iff_false, (value64_lt y x Hy Hx). lia.
Qed.

(** *** Alignment and [binary_round] *)

Lemma pos_iter_xO m d : Zpos (Pos.iter xO m d) = Zpos m * 2 ^ Zpos d.
Proof.
  induction d as [| d IH] using Pos.peano_ind.
  - simpl. lia.
  - rewrite Pos.iter_succ, Pos2Z.inj_xO, IH, Pos2Z.inj_succ, Z.pow_succ_r by lia.
    lia.
Qed.

Lemma shl_align_spec m e e' :
  exists m1 e1, shl_align m e e' = (m1, e1) /\ e1 = Z.min e e' /\
                Zpos m1 = Zpos m * 2 ^ (e - e1).
Proof.
  unfold shl_align. destruct (e' - e) as [| p | p] eqn:E.
  - exists m, e. repeat split; [lia |]. rewrite Z.sub_diag. simpl. lia.
  - exists m, e. repeat split; [lia |]. rewrite Z.sub_diag. simpl. lia.
  - exists (Pos.iter xO m p), e'. repeat split; [lia |].
    rewrite pos_iter_xO. f_equal. f_equal. lia.
Qed.

Lemma digits2_pos_shift m m1 j :
  0 <= j -> Zpos m1 = Zpos m * 2 ^ j ->
  Zpos (digits2_pos m1) = Zpos (digits2_pos m) + j.
Proof.
  intros Hj E. change (Zdigits2 (Zpos m1) = Zdigits2 (Zpos m) + j).
  rewrite E. apply Zdigits2_shift; lia.
Qed.

Lemma binary_round_value64 m e :
  ebase <= e ->
  value64 (binary_round prec emax false m e) = round64 (Zpos m * 2 ^ (e - ebase))
  /\ canonical64 (binary_round prec emax false m e).
Proof.
  intros Hb. unfold binary_round.
  destruct (shl_align_spec m e (fexp prec emax (Zpos (digits2_pos m) + e)))
    as (m1 & e1 & -> & He & Hm).
  assert (Hd : Zpos (digits2_pos m1) + e1 = Zpos (digits2_pos m) + e).
  { rewrite (digits2_pos_shift m m1 (e - e1)) by (done || lia). lia. }
  assert (Hv : Zpos m1 * 2 ^ (e1 - ebase) = Zpos m * 2 ^ (e - ebase)).
  { rewrite Hm, <- Z.mul_assoc, <- pow2_add by eflia. f_equal. f_equal. lia. }
  rewrite <- Hv. apply binary_round_aux_value64; [eflia |]. rewrite Hd. lia.
Qed.

Lemma b64_canonical n : 0 <= n -> canonical64 (b64 n).
Proof.
  intros Hn. unfold b64, of_int, binary64, binary_normalize.
  destruct n as [| p | p]; [done | | lia].
  apply binary_round_value64. eflia.
Qed.

(** *** Addition *)

Lemma value64_overflow64 x : canonical64 x -> value64 x < overflow64 <-> finite64 x.
Proof.
  pose proof overflow64_pos.
  destruct x as [[] | [] | | [] m e]; intros [Hg Hv]; try done; cbn [value64 finite64];
    try (split; [done | lia]); try (split; [lia | done]).
  pose proof (value64_finite_lt_overflow64 m e Hv) as Hk. cbn [value64] in Hk. split; [done | lia].
Qed.

(** The sum of two finite values is the rounded exact sum. *)
Lemma SFadd_value64 x y :
  canonical64 x -> canonical64 y -> finite64 x -> finite64 y ->
  value64 (SFadd prec emax x y) = round64 (value64 x + value64 y)
  /\ canonical64 (SFadd prec emax x y).
Proof.
  destruct x as [[] | [] | | [] mx ex]; intros [Hgx Hvx];
    try (exfalso; exact Hgx);
  destruct y as [[] | [] | | [] my ey]; intros [Hgy Hvy];
    try (exfalso; exact Hgy);
    intros Fx Fy; try (exfalso; exact Fx); try (exfalso; exact Fy);
    cbn [valid_binary] in *.
  - cbn [SFadd value64]. rewrite Z.add_0_l, round64_0. done.
  - cbn [SFadd]. rewrite Z.add_0_l, round64_idem by done. done.
  - cbn [SFadd]. change (value64 (S754_zero false)) with 0.
    rewrite Z.add_0_r, round64_idem by done. done.
  - cbn [SFadd cond_Zopp].
    destruct (shl_align_spec mx ex (Z.min ex ey)) as (m1 & e1 & -> & He1 & Hm1).
    destruct (shl_align_spec my ey (Z.min ex ey)) as (m2 & e2 & -> & He2 & Hm2).
    cbn [fst Z.add binary_normalize].
    pose proof (bounded_mantissa mx ex Hvx) as (Hex & _).
    pose proof (bounded_mantissa my ey Hvy) as (Hey & _).
    replace (value64 (S754_finite false mx ex) + value64 (S754_finite false my ey))
      with (Zpos (m1 + m2) * 2 ^ (Z.min ex ey - ebase)).
    + apply binary_round_value64. eflia.
    + cbn [value64]. rewrite Pos2Z.inj_add, Hm1, Hm2, Z.mul_add_distr_r.
      rewrite <- !Z.mul_assoc, <- !pow2_add by eflia.
      f_equal; f_equal; f_equal; lia.
Qed.

Lemma SFadd_canonical x y :
  canonical64 x -> canonical64 y -> canonical64 (SFadd prec emax x y).
Proof.
  intros Hx Hy.
  destruct x as [[] | [] | | [] mx ex] eqn:Ex; try (by destruct Hx);
  destruct y as [[] | [] | | [] my ey] eqn:Ey; try (by destruct Hy);
    try done; by apply SFadd_value64.
Qed.

(** Addition is monotone in both arguments. *)
Lemma SFadd_mono x x' y y' :
  canonical64 x -> canonical64 x' -> canonical64 y -> canonical64 y' ->
  value64 x <= value64 x' -> value64 y <= value64 y' ->
  value64 (SFadd prec emax x y) <= value64 (SFadd prec emax x' y').
Proof.
  intros Hx Hx' Hy Hy' Lx Ly.
  pose proof (value64_range _ (SFadd_canonical x y Hx Hy)) as Hr.
  pose proof (value64_range x Hx). pose proof (value64_range y Hy).
  destruct (Z_lt_le_dec (value64 x') overflow64) as [Fx' | Ix'].
  - destruct (Z_lt_le_dec (value64 y') overflow64) as [Fy' | Iy'].
    + assert (Fx : value64 x < overflow64) by lia. assert (Fy : value64 y < overflow64) by lia.
      apply value64_overflow64 in Fx, Fy, Fx', Fy'; try done.
      destruct (SFadd_value64 x y) as [-> _]; try done.
      destruct (SFadd_value64 x' y') as [-> _]; try done.
      apply round64_mono. lia.
    + assert (Ey : y' = S754_infinity false).
      { destruct y' as [[] | [] | | [] m e]; try (exfalso; exact (proj1 Hy'));
          [exfalso; pose proof overflow64_pos; cbn [value64] in Iy'; lia | reflexivity |].
        destruct Hy' as [_ Hv]. pose proof (value64_finite_lt_overflow64 m e Hv). lia. }
      subst y'.
      destruct x' as [[] | [] | | [] m e]; try (by destruct Hx'); cbn [SFadd value64]; lia.
  - assert (Ex : x' = S754_infinity false).
      { destruct x' as [[] | [] | | [] m e]; try (exfalso; exact (proj1 Hx'));
          [exfalso; pose proof overflow64_pos; cbn [value64] in Ix'; lia | reflexivity |].
        destruct Hx' as [_ Hv]. pose proof (value64_finite_lt_overflow64 m e Hv). lia. }
    subst x'.
    destruct y' as [[] | [] | | [] m e]; try (by destruct Hy'); cbn [SFadd value64]; lia.
Qed.

(** *** Product *)

(** The product of two finite values is the rounded exact product. *)
Lemma SFmul_value64 mx ex my ey :
  bounded prec emax mx ex = true -> bounded prec emax my ey = true ->
  value64 (SFmul prec emax (S754_finite false mx ex) (S754_finite false my ey))
  = round64 (Zpos mx * Zpos my * 2 ^ (ex + ey - ebase))
  /\ canonical64 (SFmul prec emax (S754_finite false mx ex) (S754_finite false my ey)).
Proof.
  intros Hx Hy. cbn [SFmul xorb].
  pose proof (bounded_mantissa mx ex Hx) as (Hex & _ & Hnx).
  pose proof (bounded_mantissa my ey Hy) as (Hey & _ & Hny).
  rewrite <- Pos2Z.inj_mul. apply binary_round_aux_value64; [eflia |].
  pose proof (digits2_pos_bounds (mx * my)) as [L U].
  rewrite Pos2Z.inj_mul in U.
  assert (H52 : 0 < 2 ^ (prec - 1)) by (apply pow2_pos; unfold prec; lia).
  destruct (Z_le_gt_dec ex (emin prec emax)) as [Lx | Gx];
    [destruct (Z_le_gt_dec ey (emin prec emax)) as [Ly | Gy] |].
  - flia.
  - specialize (Hny ltac:(lia)).
    assert (prec <= Zpos (digits2_pos (mx * my))); [| flia].
    destruct (Z_le_gt_dec prec (Zpos (digits2_pos (mx * my)))) as [| Hgt]; [done |].
    pose proof (pow2_le (Zpos (digits2_pos (mx * my))) (prec - 1) ltac:(lia)). nia.
  - specialize (Hnx ltac:(lia)).
    assert (prec <= Zpos (digits2_pos (mx * my))); [| flia].
    destruct (Z_le_gt_dec prec (Zpos (digits2_pos (mx * my)))) as [| Hgt]; [done |].
    pose proof (pow2_le (Zpos (digits2_pos (mx * my))) (prec - 1) ltac:(lia)). nia.
Qed.

Lemma SFmul_canonical x c :
  canonical64 x -> cost64 c -> valid_binary prec emax c = true ->
  canonical64 (SFmul prec emax x c).
Proof.
  destruct x as [[] | [] | | [] mx ex]; intros [Hgx Hvx]; try done;
  destruct c as [[] | [] | | [] mc ec]; intros Hgc Hvc; try done.
  by apply SFmul_value64.
Qed.

(** The product by a fixed value is monotone. *)
Lemma SFmul_mono x c c' :
  canonical64 x -> cost64 c -> valid_binary prec emax c = true ->
  cost64 c' -> valid_binary prec emax c' = true ->
  value64 c <= value64 c' ->
  value64 (SFmul prec emax x c) <= value64 (SFmul prec emax x c').
Proof.
  destruct x as [[] | [] | | [] mx ex]; intros [Hgx Hvx]; try done;
  destruct c as [[] | [] | | [] mc ec]; intros Hgc Hvc; try done;
  destruct c' as [[] | [] | | [] mc' ec']; intros Hgc' Hvc'; try done;
    cbn [valid_binary] in *; intros Hk.
  destruct (SFmul_value64 mx ex mc ec) as [-> _]; try done.
  destruct (SFmul_value64 mx ex mc' ec') as [-> _]; try done.
  pose proof (bounded_mantissa mx ex Hvx) as (Hex & _).
  pose proof (bounded_mantissa mc ec Hvc) as (Hec & _).
  pose proof (bounded_mantissa mc' ec' Hvc') as (Hec' & _).
  cbn [value64] in Hk.
  assert (E : forall e, emin prec emax <= e ->
            2 ^ (ex + e - ebase) = 2 ^ (ex - emin prec emax) * 2 ^ (e - emin prec emax)).
  { intros e He. rewrite <- pow2_add by lia. f_equal. unfold ebase. lia. }
  assert (E' : forall e, emin prec emax <= e ->
            2 ^ (e - ebase) = 2 ^ (e - emin prec emax) * 2 ^ (- emin prec emax)).
  { intros e He. rewrite <- pow2_add by flia. f_equal. unfold ebase. lia. }
  rewrite (E' ec), (E' ec') in Hk by lia.
  assert (0 < 2 ^ (- emin prec emax)) by (apply pow2_pos; flia).
  assert (0 < 2 ^ (ex - emin prec emax)) by (apply pow2_pos; lia).
  assert (0 < 2 ^ (ec - emin prec emax)) by (apply pow2_pos; lia).
  assert (0 < 2 ^ (ec' - emin prec emax)) by (apply pow2_pos; lia).
  apply round64_mono. rewrite (E ec), (E ec') by lia. split; [nia |].
  assert (Zpos mc * 2 ^ (ec - emin prec emax) <= Zpos mc' * 2 ^ (ec' - emin prec emax)) by nia.
  nia.
Qed.

Lemma canonical64b_sound x : canonical64b x = true -> canonical64 x.
Proof.
  destruct x as [[] | [] | | [] m e]; try done. cbn [canonical64b]. intros Hb.
  split; [| done]. cbn [good64]. by apply bounded_mantissa in Hb as [[? ?] _].
Qed.

Lemma canonical_cost64_canonical c : canonical_cost64 c -> canonical64 c.
Proof. destruct c as [[] | [] | | [] m e]; intros [Hc Hv]; done. Qed.

(** *** The matching costs, by enumeration of the 256 squared differences *)

Lemma match_canonical d :
  0 <= d < 256 ->
  canonical64 (SFdiv prec emax (binary_normalize prec emax (d * d) 0 false)
                 (binary_normalize prec emax variance 0 false)).
Proof.
  intros Hd. apply canonical64b_sound.
  assert (Hall : forallb (fun k =>
            canonical64b (SFdiv prec emax
              (binary_normalize prec emax (Z.of_nat k * Z.of_nat k) 0 false)
              (binary_normalize prec emax variance 0 false))) (seq 0 256) = true)
    by (vm_compute; reflexivity).
  rewrite forallb_forall in Hall. specialize (Hall (Z.to_nat d)).
  rewrite Z2Nat.id in Hall by lia. apply Hall. apply in_seq. lia.
Qed.

(** *** Adding an occlusion cost gives a positive value *)

Lemma SFadd_positive x c :
  canonical64 x -> canonical_cost64 c ->
  SFltb (S754_zero false) (SFadd prec emax x c) = true.
Proof.
  intros Hx Hc. pose proof (canonical_cost64_canonical c Hc) as Hc'.
  apply value64_lt; [done | by apply SFadd_canonical |].
  change (value64 (S754_zero false)) with 0.
  destruct c as [[] | [] | | [] mc ec]; try (exfalso; exact (proj1 Hc)).
  destruct Hc as [_ Hv]. cbn [valid_binary] in Hv.
  pose proof (value64_finite_lt_overflow64 mc ec Hv) as Hk.
  pose proof (value64_range x Hx) as Hr.
  destruct x as [[] | [] | | [] mx ex] eqn:Ex; try (exfalso; exact (proj1 Hx));
    [| cbn [SFadd value64]; apply overflow64_pos |]; rewrite <- Ex in *;
    (destruct (SFadd_value64 x (S754_finite false mc ec)) as [-> _];
      [done | done | by rewrite Ex | done |]);
    (eapply Z.lt_le_trans; [| apply (round64_mono (value64 (S754_finite false mc ec))); lia]);
    rewrite round64_idem by done; lia.
Qed.

(** The order on good values. *)
Lemma SFeqb_eq x y : good64 x -> good64 y -> SFeqb x y = true <-> x = y.
Proof.
  destruct x as [[] | [] | | [] mx ex]; try done;
  destruct y as [[] | [] | | [] my ey]; try done; intros Hx Hy;
    unfold SFeqb; cbn [SFcompare]; try (split; intros; done).
  destruct (Z.compare_spec ex ey) as [-> | Hlt | Hgt];
    [| split; [done | intros [= ? ?]; lia] ..].
  fold (Pos.compare mx my).
  destruct (Pos.compare_spec mx my) as [-> | Hlt | Hgt];
    split; try done; intros [= ?]; lia.
Qed.

Lemma SFltb_spec x y : good64 x -> good64 y ->
  SFltb x y = true <->
  match x, y with
  | S754_zero _, S754_zero _ => False
  | S754_zero _, _ => True
  | S754_infinity _, _ => False
  | S754_finite _ _ _, S754_zero _ => False
  | S754_finite _ _ _, S754_infinity _ => True
  | S754_finite _ mx ex, S754_finite _ my ey =>
      ex < ey \/ (ex = ey /\ Zpos mx < Zpos my)
  | _, _ => False
  end.
Proof.
  destruct x as [[] | [] | | [] mx ex]; try done;
  destruct y as [[] | [] | | [] my ey]; try done; intros Hx Hy;
    unfold SFltb; cbn [SFcompare]; try (split; intros; done).
  destruct (Z.compare_spec ex ey) as [-> | Hlt | Hgt];
    [| split; [lia | done] | split; [done | lia]].
  fold (Pos.compare mx my).
  destruct (Pos.compare_spec mx my) as [-> | Hlt | Hgt];
    split; try done; lia.
Qed.

Lemma SFltb_asym x y : good64 x -> good64 y -> SFltb x y = true -> SFltb y x = false.
Proof.
  intros Hx Hy Hlt. apply not_true_iff_false. intros Hgt.
  apply SFltb_spec in Hlt; [| done | done]. apply SFltb_spec in Hgt; [| done | done].
  destruct x as [[] | [] | | [] mx ex]; try done;
  destruct y as [[] | [] | | [] my ey]; try done; lia.
Qed.

Lemma SFle_trans x y z : good64 x -> good64 y -> good64 z ->
  SFltb y x = false -> SFltb z y = false -> SFltb z x = false.
Proof.
  intros Hx Hy Hz Hxy Hyz. apply not_true_iff_false. intros Hzx.
  apply not_true_iff_false in Hxy, Hyz.
  rewrite SFltb_spec in Hxy, Hyz, Hzx by done.
  destruct x as [[] | [] | | [] mx ex]; try done;
  destruct y as [[] | [] | | [] my ey]; try done;
  destruct z as [[] | [] | | [] mz ez]; try done; try tauto; lia.
Qed.

Lemma SFle_antisym x y : good64 x -> good64 y ->
  SFltb y x = false -> SFltb x y = false -> x = y.
Proof.
  intros Hx Hy Hxy Hyx.
  apply not_true_iff_false in Hxy, Hyx.
  rewrite SFltb_spec in Hxy, Hyx by done.
  destruct x as [[] | [] | | [] mx ex]; try done;
  destruct y as [[] | [] | | [] my ey]; try done; try tauto.
  assert (ex = ey) as -> by lia. assert (mx = my) as -> by lia. done.
Qed.

End Binary64Facts.

#[export] Instance binary64_ordered : OrderedArith spec_float.
Proof.
  refine {| good := canonical64; cost_ok := canonical_cost64 |}.
  - split; done.
  - apply canonical_cost64_canonical.
  - intros [[] | [] | | [] m e] [Hc _]; done.
  - intros n c Hn [Hc Hv].
    apply SFmul_canonical; [by apply b64_canonical | done | done].
  - apply SFadd_canonical.
  - intros d Hd. by apply match_canonical.
  - intros x y [Hx _] [Hy _]. by apply SFeqb_eq.
  - intros x y [Hx _] [Hy _]. by apply SFltb_asym.
  - intros x y z [Hx _] [Hy _] [Hz _]. unfold fle. by apply SFle_trans.
  - intros x y [Hx _] [Hy _]. unfold fle. by apply SFle_antisym.
  - intros [[] | [] | | [] m e] [Hc _]; done.
  - reflexivity.
  - reflexivity.
  - apply SFadd_positive.
Defined.

#[export] Instance binary64_monotone : MonotoneArith spec_float.
Proof.
  split.
  - intros x x' y y' Hx Hx' Hy Hy' Lx Ly.
    apply value64_le in Lx; [| done | done].
    apply value64_le in Ly; [| done | done].
    apply value64_le; [by apply SFadd_canonical | by apply SFadd_canonical |].
    by apply SFadd_mono.
  - intros n c c' Hn [Hc Hv] [Hc' Hv'] Hle.
    pose proof (b64_canonical n Hn) as Hb.
    apply value64_le in Hle; [| by apply canonical_cost64_canonical ..].
    apply value64_le; [by apply SFmul_canonical | by apply SFmul_canonical |].
    by apply SFmul_mono.
Qed.

(** ** Exact rationals *)

Section ExactFacts.
Local Open Scope Qc_scope.

Lemma exact_fltb_true (x y : Qc) : fltb x y = true <-> x < y.
Proof.
  simpl. destruct (Qclt_le_dec x y) as [Hlt | Hle]; split; try done.
  intros Hlt. by apply Qcle_not_lt in Hle.
Qed.

Lemma exact_fltb_false (x y : Qc) : fltb x y = false <-> y <= x.
Proof.
  simpl. destruct (Qclt_le_dec x y) as [Hlt | Hle]; split; try done.
  intros Hle. by apply Qcle_not_lt in Hle.
Qed.

Lemma exact_of_int_nonneg (n : Z) : (0 <= n)%Z -> 0 <= of_int n.
Proof.
  intros Hn. simpl. unfold Qcle. simpl. rewrite !Qred_correct.
  unfold Qle. simpl. lia.
Qed.

Lemma exact_of_int_succ (n : Z) : of_int (n + 1)%Z = of_int n + 1.
Proof.
  simpl. apply Qc_is_canon. simpl. rewrite !Qred_correct.
  rewrite inject_Z_plus. reflexivity.
Qed.

Lemma exact_of_int_0 : of_int 0%Z = 0.
Proof. by apply Qc_is_canon. Qed.

Lemma exact_mult_nonneg (x y : Qc) : 0 <= x -> 0 <= y -> 0 <= x * y.
Proof.
  intros Hx Hy. rewrite <- (Qcmult_0_l y). by apply Qcmult_le_compat_r.
Qed.

Lemma exact_plus_pos (x y : Qc) : 0 <= x -> 0 < y -> 0 < x + y.
Proof.
  intros Hx Hy. apply Qclt_le_trans with y; [done |].
  rewrite <- (Qcplus_0_l y) at 1. apply Qcplus_le_compat; [done |].
  apply Qcle_refl.
Qed.

Lemma exact_inv_variance_nonneg : 0 <= / of_int variance.
Proof. vm_compute. discriminate. Qed.
End ExactFacts.

#[export] Instance exact_ordered : OrderedArith Qc.
Proof.
  refine {| good := fun x => (0 <= x)%Qc; cost_ok := fun c => (0 < c)%Qc |}.
  - unfold zero. rewrite exact_of_int_0. apply Qcle_refl.
  - intros c. apply Qclt_le_weak.
  - intros c Hc. apply exact_fltb_true. unfold zero.
    by rewrite exact_of_int_0.
  - intros n c Hn Hc. change (fmul (of_int n) c) with (of_int n * c)%Qc.
    apply exact_mult_nonneg; [by apply exact_of_int_nonneg |].
    by apply Qclt_le_weak.
  - intros x y Hx Hy. change (fadd x y) with (x + y)%Qc.
    replace 0%Qc with (0 + 0)%Qc by ring. by apply Qcplus_le_compat.
  - intros d Hd.
    change (fdiv (of_int (d * d)%Z) (of_int variance))
      with (of_int (d * d)%Z * / of_int variance)%Qc.
    apply exact_mult_nonneg; [apply exact_of_int_nonneg; nia |].
    apply exact_inv_variance_nonneg.
  - intros x y _ _. change (feqb x y) with (Qc_eq_bool x y).
    split; [apply Qc_eq_bool_correct |].
    intros ->. unfold Qc_eq_bool.
    destruct (Qcanon.Qc_eq_dec y y); [done | congruence].
  - intros x y _ _ Hlt. apply exact_fltb_true in Hlt.
    apply exact_fltb_false. by apply Qclt_le_weak.
  - intros x y z _ _ _. unfold fle. rewrite !exact_fltb_false.
    apply Qcle_trans.
  - intros x y _ _. unfold fle. rewrite !exact_fltb_false.
    intros. by apply Qcle_antisym.
  - intros c _. unfold zero. rewrite exact_of_int_0.
    change (fmul 0%Qc c) with (0 * c)%Qc. ring.
  - unfold zero. rewrite exact_of_int_0. change (0 + 0 = 0)%Qc. ring.
  - unfold zero. rewrite exact_of_int_0.
    change (0 * / of_int variance = 0)%Qc. ring.
  - intros x c Hx Hc. apply exact_fltb_true. unfold zero.
    rewrite exact_of_int_0. change (fadd x c) with (x + c)%Qc.
    by apply exact_plus_pos.
Defined.

#[export] Instance exact_monotone : MonotoneArith Qc.
Proof.
  split.
  - intros x x' y y' _ _ _ _. unfold fle. rewrite !exact_fltb_false.
    apply Qcplus_le_compat.
  - intros n c c' Hn _ _. unfold fle. rewrite !exact_fltb_false. intros Hle.
    change (of_int n * c <= of_int n * c')%Qc.
    rewrite !(Qcmult_comm (of_int n)).
    apply Qcmult_le_compat_r; [done | by apply exact_of_int_nonneg].
Qed.

#[export] Instance exact_exact : ExactArith Qc.
Proof.
  split. intros n c _ _. rewrite exact_of_int_succ.
  change (((of_int n + 1) * c)%Qc = (of_int n * c + c)%Qc). ring.
Qed.

(** ** The fallback branch *)

(** C8. For 8-bit rows and a positive finite occlusion cost, the minimum
    of every interior cell is one of its three candidates and compares
    equal to it, the cell receives one of the tags MATCH, SKIP_LEFT,
    SKIP_RIGHT, and the branch that prints "Error matching minimum" is
    never taken. *)
Theorem error_branch_unreachable {F : Type} `{OrderedArith F}
    (N : nat) (L R : list Z) (c : F) :
  cost_ok c -> uint8s L -> uint8s R ->
  let st := buildMatrices N L R c in
  printed st = [] /\
  forall i j, 1 <= i <= N -> 1 <= j <= N ->
    let '(m1, m2, m3) := candidates L R c (costMatrix st) i j in
    let minimum := min_of3 m1 m2 m3 in
    let tag := get2 0%Z (directionMatrix st) i j in
    (minimum = m1 \/ minimum = m2 \/ minimum = m3) /\
    (feqb minimum m3 = true \/ feqb minimum m1 = true \/
     feqb minimum m2 = true) /\
    (tag = MATCH \/ tag = SKIP_LEFT \/ tag = SKIP_RIGHT).
Proof.
  intros Hc HL HR st. split.
  - destruct (printed st) as [| [a b] l] eqn:E; [done |].
    assert (Hin : ErrorMatchingMinimum a b ∈ printed st)
      by (rewrite E; apply elem_of_cons; by left).
    apply printed_iff in Hin as (Ha & Hb & Hnone).
    pose proof (good_candidates N L R c Hc HL HR a b Ha Hb) as Hg.
    destruct (candidates _ _ _ _ _ _) as [[m1 m2] m3].
    destruct Hg as (G1 & G2 & G3). by apply tagOf_good in Hnone.
  - intros i j Hi Hj.
    pose proof (good_candidates N L R c Hc HL HR i j Hi Hj) as Hg.
    pose proof (buildMatrices_valid_tags N L R c i j Hi Hj) as Hv.
    fold st in Hg, Hv.
    destruct (candidates _ _ _ _ _ _) as [[m1 m2] m3].
    destruct Hg as (G1 & G2 & G3). cbv zeta.
    split; [apply min_of3_cases |]. split; [| exact Hv].
    destruct (min_of3_cases m1 m2 m3) as [-> | [-> | ->]];
      rewrite feqb_refl by done; auto.
Qed.

Lemma error_branch_unreachable_witness :
  let L := [10; 10]%Z in
  let R := [10; 50]%Z in
  let st := buildMatrices 2 L R (b64 5) in
  printed st = [] /\
  forall i j, 1 <= i <= 2 -> 1 <= j <= 2 ->
    let '(m1, m2, m3) := candidates L R (b64 5) (costMatrix st) i j in
    let minimum := min_of3 m1 m2 m3 in
    let tag := get2 0%Z (directionMatrix st) i j in
    (minimum = m1 \/ minimum = m2 \/ minimum = m3) /\
    (feqb minimum m3 = true \/ feqb minimum m1 = true \/
     feqb minimum m2 = true) /\
    (tag = MATCH \/ tag = SKIP_LEFT \/ tag = SKIP_RIGHT).
Proof.
  apply (error_branch_unreachable 2 [10; 10]%Z [10; 50]%Z (b64 5)).
  - vm_compute. split; [discriminate | reflexivity].
  - repeat constructor; lia.
  - repeat constructor; lia.
Defined.

Lemma traversal_terminates_witness :
  let D := [[1; 1; 1]; [1; 1; 3]; [1; 1; 3]]%Z in
  exists n i j tr,
    n <= 2 * 2 /\
    (forall fuel, n <= fuel -> matchedPairs D fuel 2 = Done (i, j, tr)) /\
    (forall fuel, fuel < n -> matchedPairs D fuel 2 = OutOfFuel) /\
    (i = 0 \/ j = 0) /\
    (forall fuel a b s, a = 0 \/ b = 0 ->
       backwardTraversal record D fuel a b s = Done (a, b, s)) /\
    (forall fuel a0 b0 s0 a b s,
       backwardTraversal record D fuel a0 b0 s0 = Done (a, b, s) ->
       a = 0 \/ b = 0) /\
    StronglySorted pair_below tr /\
    Forall (fun p => 1 <= p.1 <= 2 /\ 1 <= p.2 <= 2) tr.
Proof.
  apply (traversal_terminates 2 [[1; 1; 1]; [1; 1; 3]; [1; 1; 3]]%Z).
  intros i j Hi Hj.
  assert (Hi' : i = 1 \/ i = 2) by lia. assert (Hj' : j = 1 \/ j = 2) by lia.
  destruct Hi' as [-> | ->], Hj' as [-> | ->]; vm_compute; auto.
Defined.

(** ** The writes of the traversal *)

(** When the corner cell (N, N) is tagged MATCH, the first iteration writes
    at column N of a row of width N: the write is outside the row. *)
Lemma corner_match_out_of_bounds {F : Type} `{Arith F}
    (D : list (list Z)) (N rows rowNo fuel : nat) (lm rm : list (list F)) :
  1 <= N -> get2 0%Z D N N = MATCH ->
  shaped rows N lm -> rowNo < rows ->
  backwardTraversal (writeDisparity rowNo) D (S fuel) N N (lm, rm) =
  Raise IndexError.
Proof.
  intros HN Htag Hlm Hrow. destruct N as [| n]; [lia |].
  rewrite backwardTraversal_step. cbv zeta. rewrite Htag. simpl.
  unfold writeDisparity. simpl.
  rewrite (write2_shaped rows (S n) lm rowNo (S n) _ Hlm Hrow).
  destruct (decide (S n < S n)); [lia | reflexivity].
Qed.

(** C1 (negative). For the one-pixel rows L = [10], R = [10] and
    occlusionCost = 5 the traversal emits the matched pair (1, 1); the
    row width is 1, so column 1 is not a valid index, and the run ends
    in an IndexError instead of two maps. *)
Theorem matched_pair_out_of_bounds :
  let D := directionMatrix (buildMatrices 1 [10]%Z [10]%Z (b64 5)) in
  matchedPairs D 2 1 = Done (0, 0, [(1, 1)]) /\
  ~ (1 < length [10]%Z) /\
  write2 [[b64 0]] 0 1 (b64 (disparity 1 1)) = Raise IndexError /\
  go_call 2 [[10]]%Z [[10]]%Z (b64 5) = Raise IndexError.
Proof. vm_compute. repeat split; try reflexivity. lia. Qed.

(** ** The rescale *)

Section RescaleFacts.
Context {F : Type} `{OrderedArith F}.

Lemma isnan_good (x : F) : good x -> isnan x = false.
Proof. intros Hx. unfold isnan. by rewrite feqb_refl. Qed.

Lemma max_from_zeros (l : list F) :
  Forall (fun x => x = zero) l -> max_from zero l = zero.
Proof.
  induction 1 as [| x l -> _ IH]; [done |]. simpl.
  rewrite isnan_good by apply good_zero.
  by rewrite flt_irrefl by apply good_zero.
Qed.

Lemma concat_full_zero rows cols :
  Forall (fun x : F => x = zero) (concat (full rows cols zero)).
Proof.
  unfold full. induction rows as [| rows IH]; simpl; [constructor |].
  apply Forall_app. split; [| done].
  apply Forall_forall. intros x Hx. by apply elem_of_replicate in Hx as [-> _].
Qed.

Lemma array_max_full_zero rows cols :
  1 <= rows -> 1 <= cols -> array_max (full rows cols zero) = Done zero.
Proof.
  intros Hr Hcols. unfold array_max.
  pose proof (concat_full_zero rows cols) as Hall.
  destruct (concat (full rows cols zero)) as [| x l] eqn:E.
  - destruct rows as [| rows]; [lia |]. destruct cols as [| cols]; [lia |].
    discriminate E.
  - apply Forall_cons in Hall as [-> Hl].
    rewrite isnan_good by apply good_zero. by rewrite max_from_zeros.
Qed.

Lemma finalize_shape (maps : list (list F) * list (list F)) l r :
  finalize maps = Done (l, r) ->
  map length l = map length maps.1 /\ map length r = map length maps.2.
Proof.
  unfold finalize. destruct (scale maps.1) as [sl | |]; [| done | done].
  simpl. destruct (scale maps.2) as [sr | |]; [| done | done]. simpl.
  intros [= <- <-]. unfold astype_uint8.
  rewrite !map_map. split; apply map_ext; intros row; by rewrite !length_map.
Qed.
End RescaleFacts.

(** C4 (as amended). The rescale has no special case for a zero maximum.
    When the left map is all zero its maximum is 0, the factor
    [255.0 / max] is a division by zero, and the run ends in a
    ZeroDivisionError without an output map; the same holds for an
    all-zero right map when the left maximum is not zero.  When the rescale
    does return, the two output maps have the shapes of the input maps. *)
Theorem rescale_zero_max_raises {F : Type} `{OrderedArith F}
    (rows cols : nat) (other : list (list F)) :
  1 <= rows -> 1 <= cols ->
  array_max (full rows cols zero) = Done zero /\
  finalize (full rows cols zero, other) = Raise ZeroDivisionError /\
  (forall m, array_max other = Done m -> feqb m zero = false ->
     finalize (other, full rows cols zero) = Raise ZeroDivisionError) /\
  (forall maps l r, finalize maps = Done (l, r) ->
     map length l = map length maps.1 /\ map length r = map length maps.2).
Proof.
  intros Hr Hcols.
  pose proof (array_max_full_zero rows cols Hr Hcols) as Hmax.
  split; [done |]. split; [| split].
  - unfold finalize, scale. simpl. rewrite Hmax. simpl.
    by rewrite feqb_refl by apply good_zero.
  - intros m Hm Hnz. unfold finalize, scale. simpl. rewrite Hm. simpl.
    rewrite Hnz. simpl. rewrite Hmax. simpl.
    by rewrite feqb_refl by apply good_zero.
  - apply @finalize_shape.
Qed.

Lemma rescale_zero_max_raises_witness :
  array_max (full 1 2 (b64 0)) = Done (b64 0) /\
  finalize (full 1 2 (b64 0), [[b64 0; b64 128]]) = Raise ZeroDivisionError /\
  (forall m, array_max [[b64 0; b64 128]] = Done m -> feqb m zero = false ->
     finalize ([[b64 0; b64 128]], full 1 2 (b64 0)) =
     Raise ZeroDivisionError) /\
  (forall (maps : list (list spec_float) * list (list spec_float)) l r,
     finalize maps = Done (l, r) ->
     map length l = map length maps.1 /\ map length r = map length maps.2).
Proof.
  apply (rescale_zero_max_raises 1 2 [[b64 0; b64 128]]); lia.
Defined.

(** C4 (negative). An all-zero map (here the maps of the run on
    L = [0], R = [255], occlusionCost = 1, where nothing is matched) is
    not rescaled to an all-zero map: the run raises. *)
Lemma rescale_zero_max_counterexample :
  finalize ([[b64 0]], [[b64 0]]) <> Done ([[0%Z]], [[0%Z]]) /\
  go_call 2 [[0]]%Z [[255]]%Z (b64 1) = Raise ZeroDivisionError.
Proof. vm_compute. split; [discriminate | reflexivity]. Qed.

(** ** Two identical constant rows *)

Lemma nth_replicate_lt {A} (n i : nat) (x d : A) :
  i < n -> nth i (replicate n x) d = x.
Proof.
  revert i. induction n as [| n IH]; intros i Hi; [lia |].
  destruct i as [| i]; simpl; [done |]. apply IH. lia.
Qed.

Lemma diagonal_S k : diagonal (S k) = (S k, S k) :: diagonal k.
Proof. unfold diagonal. by rewrite seq_S, rev_app_distr. Qed.

Section ConstantRows.
Context {F : Type} `{OrderedArith F}.
Variables (N : nat) (z : Z) (c : F).
Hypothesis Hz : (0 <= z < 256)%Z.
Hypothesis Hc : cost_ok c.

Lemma matchingCost_same : matchingCost z z = zero.
Proof.
  unfold matchingCost. rewrite pow2_int64_sub_uint64 by done.
  replace ((z - z) * (z - z))%Z with 0%Z by lia. apply match_0.
Qed.

Lemma uint8s_replicate : uint8s (replicate N z).
Proof.
  apply Forall_forall. intros x Hx. by apply elem_of_replicate in Hx as [-> _].
Qed.

(** Along the diagonal the cost is zero and the tag is MATCH. *)
Lemma constant_rows_diagonal i :
  i <= N ->
  let st := buildMatrices N (replicate N z) (replicate N z) c in
  get2 zero (costMatrix st) i i = zero /\
  (1 <= i -> get2 0%Z (directionMatrix st) i i = MATCH).
Proof.
  intros Hi st. induction i as [| i IH].
  { split; [| lia]. unfold st. rewrite cost_row0 by lia.
    unfold scaled. by apply scale_0. }
  destruct IH as [IH _]; [lia |].
  pose proof (good_cell N _ _ c Hc uint8s_replicate uint8s_replicate) as Hg.
  assert (Hcands :
    candidates (replicate N z) (replicate N z) c (costMatrix st) (S i) (S i) =
    (zero, fadd (get2 zero (costMatrix st) i (S i)) c,
           fadd (get2 zero (costMatrix st) (S i) i) c)).
  { unfold candidates. replace (S i - 1) with i by lia.
    rewrite IH, !nth_replicate_lt by lia.
    by rewrite matchingCost_same, fadd_0_0. }
  set (m2 := fadd (get2 zero (costMatrix st) i (S i)) c) in *.
  set (m3 := fadd (get2 zero (costMatrix st) (S i) i) c) in *.
  assert (G2 : good m2) by (apply good_add; [apply Hg; lia | by apply good_cost]).
  assert (G3 : good m3) by (apply good_add; [apply Hg; lia | by apply good_cost]).
  assert (P2 : fltb zero m2 = true) by (apply fadd_pos; [apply Hg; lia | done]).
  assert (P3 : fltb zero m3 = true) by (apply fadd_pos; [apply Hg; lia | done]).
  assert (Hmin : min_of3 zero m2 m3 = zero).
  { unfold min_of3.
    rewrite (flt_asym zero m2) by (done || apply good_zero).
    by rewrite (flt_asym zero m3) by (done || apply good_zero). }
  split.
  - unfold st. rewrite cost_interior by lia. fold st. rewrite Hcands.
    exact Hmin.
  - intros _. unfold st. rewrite dir_interior by lia. fold st.
    rewrite Hcands. unfold tagOf. rewrite Hmin.
    rewrite (flt_neq zero m3) by (done || apply good_zero).
    by rewrite feqb_refl by apply good_zero.
Qed.

(** So the traversal walks down the diagonal, matching at every step. *)
Lemma constant_rows_path k :
  k <= N ->
  forall fuel tr, k <= fuel ->
  backwardTraversal record
    (directionMatrix (buildMatrices N (replicate N z) (replicate N z) c))
    fuel k k tr = Done (0, 0, tr ++ diagonal k).
Proof.
  induction k as [| k IH]; intros Hk fuel tr Hfuel.
  - rewrite backwardTraversal_stop by lia. unfold diagonal. simpl.
    by rewrite app_nil_r.
  - destruct fuel as [| fuel]; [lia |].
    rewrite backwardTraversal_step. cbv zeta.
    destruct (constant_rows_diagonal (S k) Hk) as [_ Htag].
    rewrite Htag by lia. simpl.
    rewrite IH by lia. by rewrite diagonal_S, <- app_assoc.
Qed.
End ConstantRows.

Lemma max_from_128 (l : list spec_float) :
  Forall zero_or_128 l -> max_from (b64 128) l = b64 128.
Proof.
  induction 1 as [| x l [-> | ->] _ IH]; [done | exact IH | exact IH].
Qed.

Lemma max_from_0 (l : list spec_float) :
  Forall zero_or_128 l -> b64 128 ∈ l -> max_from (b64 0) l = b64 128.
Proof.
  induction 1 as [| x l [-> | ->] Hl IH]; intros Hin.
  - by apply elem_of_nil in Hin.
  - apply elem_of_cons in Hin as [Heq | Hin]; [discriminate Heq |].
    by apply IH.
  - by apply max_from_128.
Qed.

Lemma array_max_128 (M : list (list spec_float)) :
  Forall (Forall zero_or_128) M -> b64 128 ∈ concat M ->
  array_max M = Done (b64 128).
Proof.
  intros HM Hin. unfold array_max.
  assert (Hall : Forall zero_or_128 (concat M)) by (by apply Forall_concat).
  destruct (concat M) as [| x l]; [by apply elem_of_nil in Hin |].
  apply Forall_cons in Hall as [[-> | ->] Hl].
  - apply elem_of_cons in Hin as [Heq | Hin]; [discriminate Heq |].
    f_equal. by apply max_from_0.
  - f_equal. by apply max_from_128.
Qed.

(** C9 (as amended). For two identical constant rows of 8-bit samples and
    a positive finite occlusion cost, the traversal emits exactly the pairs
    (N, N), ..., (1, 1): all MATCH, with i = j; the disparity of such a
    pair is 128; and the rescale of a map that holds 128 where it was
    written and 0 elsewhere divides by the maximum 128 and sends 128 to
    255 (and 0 to 0), not to zero. *)
Theorem constant_rows_all_match (N : nat) (z : Z) (c : spec_float) :
  (0 <= z < 256)%Z -> cost_ok c ->
  let row := replicate N z in
  let D := directionMatrix (buildMatrices N row row c) in
  (forall fuel, N <= fuel ->
     matchedPairs D fuel N = Done (0, 0, diagonal N)) /\
  (forall i, disparity i i = 128%Z) /\
  (forall M : list (list spec_float),
     Forall (Forall zero_or_128) M -> b64 128 ∈ concat M ->
     scale M = Done (fdiv (b64 255) (b64 128)) /\
     astype_uint8 (map (map (fun x => fmul x (fdiv (b64 255) (b64 128)))) M) =
     map (map (fun x => if feqb x (b64 128) then 255%Z else 0%Z)) M).
Proof.
  intros Hz Hc row D. split; [| split].
  - intros fuel Hfuel. unfold matchedPairs, D, row.
    by rewrite (constant_rows_path N z c Hz Hc N) by lia.
  - intros i. unfold disparity. lia.
  - intros M HM Hin. split.
    + unfold scale. by rewrite array_max_128.
    + unfold astype_uint8. rewrite map_map.
      rewrite Forall_forall in HM. apply map_ext_in. intros r Hr.
      rewrite map_map. apply list_elem_of_In, HM in Hr.
      rewrite Forall_forall in Hr. apply map_ext_in. intros x Hx.
      apply list_elem_of_In, Hr in Hx. by destruct Hx as [-> | ->].
Qed.

Lemma constant_rows_all_match_witness :
  let row := replicate 2 7%Z in
  let D := directionMatrix (buildMatrices 2 row row (b64 1)) in
  (forall fuel, 2 <= fuel ->
     matchedPairs D fuel 2 = Done (0, 0, diagonal 2)) /\
  (forall i, disparity i i = 128%Z) /\
  (forall M : list (list spec_float),
     Forall (Forall zero_or_128) M -> b64 128 ∈ concat M ->
     scale M = Done (fdiv (b64 255) (b64 128)) /\
     astype_uint8 (map (map (fun x => fmul x (fdiv (b64 255) (b64 128)))) M) =
     map (map (fun x => if feqb x (b64 128) then 255%Z else 0%Z)) M).
Proof.
  apply (constant_rows_all_match 2 7%Z (b64 1)); [lia |].
  vm_compute. split; [discriminate | reflexivity].
Defined.

(** C9 (negative). For the rows [7, 7] and [7, 7] with occlusionCost = 1
    the run does not return all-zero maps, and the rescale of the row
    [0, 128] is [0, 255], not zero. *)
Lemma constant_rows_counterexample :
  go_call 4 [[7; 7]]%Z [[7; 7]]%Z (b64 1) <> Done ([[0; 0]]%Z, [[0; 0]]%Z) /\
  finalize ([[b64 0; b64 128]], [[b64 0; b64 128]]) =
  Done ([[0; 255]]%Z, [[0; 255]]%Z).
Proof. vm_compute. split; [discriminate | reflexivity]. Qed.

(** ** Alignments and their costs *)

Section AlignmentFacts.
Context {F : Type} `{Arith F}.
Variables (L R : list Z) (c : F).

Lemma walk_snoc a b acc steps s :
  walk L R c a b acc (steps ++ [s]) =
  let '(a', b', acc') := walk L R c a b acc steps in
  ((advance a' b' s).1, (advance a' b' s).2, fadd acc' (stepCost L R c a' b' s)).
Proof.
  revert a b acc. induction steps as [| s0 steps IH]; intros a b acc; simpl.
  - reflexivity.
  - apply IH.
Qed.
End AlignmentFacts.

Section Optimality.
Context {F : Type} `{ExactArith F}.
Variables (N : nat) (L R : list Z) (c : F).
Hypothesis Hc : cost_ok c.
Hypothesis HL : uint8s L.
Hypothesis HR : uint8s R.

Local Abbreviation C := (costMatrix (buildMatrices N L R c)).

Lemma good_stepCost a b s : good (stepCost L R c a b s).
Proof.
  destruct s; simpl; [| by apply good_cost ..].
  apply good_matchingCost; by apply uint8s_nth.
Qed.

Lemma good_walk steps : forall a b acc,
  good acc -> good (walk L R c a b acc steps).2.
Proof.
  induction steps as [| s steps IH]; intros a b acc Hacc; simpl; [done |].
  apply IH. apply good_add; [done | apply good_stepCost].
Qed.

Lemma scaled_S i : scaled c (S i) = fadd (scaled c i) c.
Proof.
  unfold scaled. rewrite Nat2Z.inj_succ. apply scale_succ; [lia | done].
Qed.

Lemma cost_le_match a b :
  a < N -> b < N ->
  fle (get2 zero C (S a) (S b))
      (fadd (get2 zero C a b) (matchingCost (nth a L 0%Z) (nth b R 0%Z))).
Proof.
  intros Ha Hb. rewrite cost_interior by lia.
  pose proof (good_candidates N L R c Hc HL HR (S a) (S b)) as Hg.
  unfold minOf. destruct (candidates _ _ _ _ _ _) as [[m1 m2] m3] eqn:E.
  destruct Hg as (G1 & G2 & G3); [lia | lia |].
  unfold candidates in E. replace (S a - 1) with a in E by lia.
  replace (S b - 1) with b in E by lia. injection E as <- <- <-.
  by apply min_of3_le.
Qed.

Lemma cost_le_skipLeft a b :
  a < N -> b <= N ->
  fle (get2 zero C (S a) b) (fadd (get2 zero C a b) c).
Proof.
  intros Ha Hb. destruct b as [| b].
  - rewrite !cost_col0 by lia. rewrite scaled_S. apply fle_refl.
    apply good_add; [by apply good_scaled | by apply good_cost].
  - rewrite (cost_interior N L R c (S a) (S b)) by lia.
    pose proof (good_candidates N L R c Hc HL HR (S a) (S b)) as Hg.
    unfold minOf. destruct (candidates _ _ _ _ _ _) as [[m1 m2] m3] eqn:E.
    destruct Hg as (G1 & G2 & G3); [lia | lia |].
    unfold candidates in E. replace (S a - 1) with a in E by lia.
    injection E as <- <- <-. by apply min_of3_le.
Qed.

Lemma cost_le_skipRight a b :
  a <= N -> b < N ->
  fle (get2 zero C a (S b)) (fadd (get2 zero C a b) c).
Proof.
  intros Ha Hb. destruct a as [| a].
  - rewrite !cost_row0 by lia. rewrite scaled_S. apply fle_refl.
    apply good_add; [by apply good_scaled | by apply good_cost].
  - rewrite (cost_interior N L R c (S a) (S b)) by lia.
    pose proof (good_candidates N L R c Hc HL HR (S a) (S b)) as Hg.
    unfold minOf. destruct (candidates _ _ _ _ _ _) as [[m1 m2] m3] eqn:E.
    destruct Hg as (G1 & G2 & G3); [lia | lia |].
    unfold candidates in E. replace (S b - 1) with b in E by lia.
    injection E as <- <- <-. by apply min_of3_le.
Qed.

(** No alignment is cheaper than the cell. *)
Lemma cost_lower_bound steps : forall i j cost,
  aligns L R c i j steps cost -> i <= N -> j <= N ->
  fle (get2 zero C i j) cost.
Proof.
  unfold aligns. induction steps as [| s steps IH] using rev_ind;
    intros i j cost Hw Hi Hj.
  - simpl in Hw. injection Hw as <- <- <-. rewrite cost_row0 by lia.
    unfold scaled. simpl. rewrite scale_0 by done. apply fle_refl, good_zero.
  - rewrite walk_snoc in Hw.
    pose proof (good_walk steps 0 0 zero good_zero) as Hgood.
    destruct (walk L R c 0 0 zero steps) as [[a b] acc] eqn:E.
    simpl in Hgood. injection Hw as <- <- <-.
    pose proof (good_cell N L R c Hc HL HR) as Hg.
    assert (Hstep : forall x, good x -> fle (get2 zero C a b) acc ->
      a <= N -> b <= N ->
      fle x (fadd (get2 zero C a b) (stepCost L R c a b s)) ->
      fle x (fadd acc (stepCost L R c a b s))).
    { intros x Hx Hle Ha Hb Hx'.
      apply (fle_trans x (fadd (get2 zero C a b) (stepCost L R c a b s)));
        try done.
      - apply good_add; [by apply Hg | apply good_stepCost].
      - apply good_add; [done | apply good_stepCost].
      - apply fadd_mono; try done; try apply good_stepCost; [by apply Hg |].
        apply fle_refl, good_stepCost. }
    destruct s; simpl in *.
    + apply Hstep; [apply Hg; lia | apply IH; (done || lia) | lia | lia |].
      apply cost_le_match; lia.
    + apply Hstep; [apply Hg; lia | apply IH; (done || lia) | lia | lia |].
      apply cost_le_skipLeft; lia.
    + apply Hstep; [apply Hg; lia | apply IH; (done || lia) | lia | lia |].
      apply cost_le_skipRight; lia.
Qed.

(** Some alignment costs exactly the cell. *)
Lemma cost_attained i j :
  i <= N -> j <= N ->
  exists steps, aligns L R c i j steps (get2 zero C i j).
Proof.
  unfold aligns. remember (i + j) as k eqn:Hk. revert i j Hk.
  induction k as [k IH] using lt_wf_ind. intros i j -> Hi Hj.
  destruct i as [| i].
  - destruct j as [| j].
    + exists []. simpl. rewrite cost_row0 by lia. unfold scaled. simpl.
      by rewrite scale_0.
    + destruct (IH (0 + j) ltac:(lia) 0 j eq_refl) as [steps Hs]; [lia | lia |].
      exists (steps ++ [SkipRight]). rewrite walk_snoc, Hs. simpl.
      rewrite !cost_row0 by lia. by rewrite scaled_S.
  - destruct j as [| j].
    + destruct (IH (i + 0) ltac:(lia) i 0 eq_refl) as [steps Hs]; [lia | lia |].
      exists (steps ++ [SkipLeft]). rewrite walk_snoc, Hs. simpl.
      rewrite !cost_col0 by lia. by rewrite scaled_S.
    + rewrite (cost_interior N L R c (S i) (S j)) by lia.
      unfold minOf, candidates.
      replace (S i - 1) with i by lia. replace (S j - 1) with j by lia.
      match goal with |- context [min_of3 ?a ?b ?d] =>
        destruct (min_of3_cases a b d) as [-> | [-> | ->]] end.
      * destruct (IH (i + j) ltac:(lia) i j eq_refl) as [steps Hs];
          [lia | lia |].
        exists (steps ++ [Match]). by rewrite walk_snoc, Hs.
      * destruct (IH (i + S j) ltac:(lia) i (S j) eq_refl) as [steps Hs];
          [lia | lia |].
        exists (steps ++ [SkipLeft]). by rewrite walk_snoc, Hs.
      * destruct (IH (S i + j) ltac:(lia) (S i) j eq_refl) as [steps Hs];
          [lia | lia |].
        exists (steps ++ [SkipRight]). by rewrite walk_snoc, Hs.
Qed.
End Optimality.



(** ** Monotonicity in the occlusion cost *)

Section Monotone.
Context {F : Type} `{MonotoneArith F}.
Variables (N : nat) (L R : list Z) (c1 c2 : F).
Hypothesis Hc1 : cost_ok c1.
Hypothesis Hc2 : cost_ok c2.
Hypothesis Hle : fle c1 c2.
Hypothesis HL : uint8s L.
Hypothesis HR : uint8s R.

Lemma scaled_mono i : fle (scaled c1 i) (scaled c2 i).
Proof. unfold scaled. apply scale_mono; (done || lia). Qed.

Lemma min_of3_mono (a b d a' b' d' : F) :
  good a -> good b -> good d -> good a' -> good b' -> good d' ->
  fle a a' -> fle b b' -> fle d d' ->
  fle (min_of3 a b d) (min_of3 a' b' d').
Proof.
  intros Ga Gb Gd Ga' Gb' Gd' Ha Hb Hd.
  destruct (min_of3_le a b d Ga Gb Gd) as (L1 & L2 & L3).
  pose proof (good_min_of3 a b d Ga Gb Gd) as Gm.
  apply min_of3_glb; try done.
  - by apply (fle_trans _ a).
  - by apply (fle_trans _ b).
  - by apply (fle_trans _ d).
Qed.

Lemma cost_mono a b :
  a <= N -> b <= N ->
  fle (get2 zero (costMatrix (buildMatrices N L R c1)) a b)
      (get2 zero (costMatrix (buildMatrices N L R c2)) a b).
Proof.
  remember (a + b) as k eqn:Hk. revert a b Hk.
  induction k as [k IH] using lt_wf_ind. intros a b -> Ha Hb.
  destruct (decide (a = 0)) as [-> | Ha0].
  { rewrite !cost_row0 by done. apply scaled_mono. }
  destruct (decide (b = 0)) as [-> | Hb0].
  { rewrite !cost_col0 by done. apply scaled_mono. }
  rewrite !cost_interior by lia. unfold minOf, candidates.
  pose proof (good_cell N L R c1 Hc1 HL HR) as G1.
  pose proof (good_cell N L R c2 Hc2 HL HR) as G2.
  assert (Gm : good (matchingCost (nth (a - 1) L 0%Z) (nth (b - 1) R 0%Z)))
    by (apply good_matchingCost; by apply uint8s_nth).
  apply min_of3_mono;
    try (apply good_add; [(apply G1 || apply G2); lia |]; try done;
         by apply good_cost).
  - apply fadd_mono; try done; try ((apply G1 || apply G2); lia).
    + eapply IH; [| reflexivity | |]; lia.
    + by apply fle_refl.
  - apply fadd_mono; try done; try ((apply G1 || apply G2); lia);
      try (by apply good_cost).
    eapply IH; [| reflexivity | |]; lia.
  - apply fadd_mono; try done; try ((apply G1 || apply G2); lia);
      try (by apply good_cost).
    eapply IH; [| reflexivity | |]; lia.
Qed.
End Monotone.

(** C7. In an arithmetic whose addition and product by an integer are
    monotone (binary64, the arithmetic of the program, is one, and so is
    exact arithmetic), for fixed 8-bit rows and positive finite occlusion
    costs c1 <= c2, the total path cost C[N][N] computed with c1 is at most
    the one computed with c2. *)
Theorem total_cost_monotone {F : Type} `{MonotoneArith F}
    (N : nat) (L R : list Z) (c1 c2 : F) :
  cost_ok c1 -> cost_ok c2 -> fle c1 c2 -> uint8s L -> uint8s R ->
  fle (get2 zero (costMatrix (buildMatrices N L R c1)) N N)
      (get2 zero (costMatrix (buildMatrices N L R c2)) N N).
Proof. intros. by apply cost_mono. Qed.

Lemma total_cost_monotone_witness :
  let L := [10; 10]%Z in
  let R := [10; 50]%Z in
  fle (get2 zero (costMatrix (buildMatrices 2 L R (b64 5))) 2 2)
      (get2 zero (costMatrix (buildMatrices 2 L R (b64 6))) 2 2).
Proof.
  apply (total_cost_monotone 2 [10; 10]%Z [10; 50]%Z (b64 5) (b64 6)).
  - vm_compute. split; [discriminate | reflexivity].
  - vm_compute. split; [discriminate | reflexivity].
  - vm_compute. reflexivity.
  - repeat constructor; lia.
  - repeat constructor; lia.
Defined.

(** ** The swapped run *)

Section Transpose.
Context {F : Type} `{OrderedArith F}.
Variables (N : nat) (L R : list Z) (c : F).
Hypothesis Hc : cost_ok c.
Hypothesis HL : uint8s L.
Hypothesis HR : uint8s R.

Lemma matchingCost_sym z1 z2 :
  (0 <= z1 < 256)%Z -> (0 <= z2 < 256)%Z ->
  matchingCost z2 z1 = matchingCost z1 z2.
Proof.
  intros H1 H2. unfold matchingCost.
  rewrite !pow2_int64_sub_uint64 by done. do 2 f_equal. ring.
Qed.

(** The cost matrix of the swapped rows is the transpose. *)
Lemma cost_transpose a b :
  a <= N -> b <= N ->
  get2 zero (costMatrix (buildMatrices N R L c)) a b =
  get2 zero (costMatrix (buildMatrices N L R c)) b a.
Proof.
  remember (a + b) as k eqn:Hk. revert a b Hk.
  induction k as [k IH] using lt_wf_ind. intros a b -> Ha Hb.
  destruct (decide (a = 0)) as [-> | Ha0].
  { by rewrite cost_row0, cost_col0. }
  destruct (decide (b = 0)) as [-> | Hb0].
  { by rewrite cost_row0, cost_col0. }
  rewrite !cost_interior by lia. unfold minOf, candidates.
  rewrite (IH (a - 1 + (b - 1))) by lia. rewrite (IH (a - 1 + b)) by lia.
  rewrite (IH (a + (b - 1))) by lia.
  rewrite (matchingCost_sym (nth (b - 1) L 0%Z) (nth (a - 1) R 0%Z))
    by (by apply uint8s_nth).
  pose proof (good_cell N L R c Hc HL HR) as Hg.
  apply min_of3_swap.
  - apply good_add; [apply Hg; lia |].
    apply good_matchingCost; by apply uint8s_nth.
  - apply good_add; [apply Hg; lia | by apply good_cost].
  - apply good_add; [apply Hg; lia | by apply good_cost].
Qed.

Lemma candidates_transpose a b :
  1 <= a <= N -> 1 <= b <= N ->
  candidates R L c (costMatrix (buildMatrices N R L c)) a b =
  let '(m1, m2, m3) :=
    candidates L R c (costMatrix (buildMatrices N L R c)) b a in
  (m1, m3, m2).
Proof.
  intros Ha Hb. unfold candidates. rewrite !cost_transpose by lia.
  by rewrite (matchingCost_sym (nth (b - 1) L 0%Z) (nth (a - 1) R 0%Z))
    by (by apply uint8s_nth).
Qed.

(** Without a tie, so is the direction matrix, up to [mirror]. *)
Lemma dir_transpose a b :
  1 <= a <= N -> 1 <= b <= N ->
  untied (candidates L R c (costMatrix (buildMatrices N L R c)) b a) = true ->
  get2 0%Z (directionMatrix (buildMatrices N R L c)) a b =
  mirror (get2 0%Z (directionMatrix (buildMatrices N L R c)) b a).
Proof.
  intros Ha Hb Hun. rewrite !dir_interior by lia.
  rewrite candidates_transpose by lia.
  pose proof (good_candidates N L R c Hc HL HR b a Hb Ha) as Hg.
  destruct (candidates L R c _ b a) as [[m1 m2] m3].
  destruct Hg as (G1 & G2 & G3).
  unfold untied in Hun. unfold tagOf.
  rewrite (min_of3_swap m1 m2 m3) by done.
  destruct (feqb (min_of3 m1 m2 m3) m1), (feqb (min_of3 m1 m2 m3) m2),
    (feqb (min_of3 m1 m2 m3) m3); done.
Qed.
End Transpose.

Section SwapRun.
Context {F : Type} `{Arith F}.

Lemma write2_cases (M : list (list F)) i j v :
  write2 M i j v = Done (set2 M i j v) \/ write2 M i j v = Raise IndexError.
Proof.
  unfold write2. destruct (M !! i) as [row |]; [| by right].
  destruct (decide (j < length row)); [by left | by right].
Qed.

Lemma disparity_sym i j : disparity i j = disparity j i.
Proof. unfold disparity. lia. Qed.

Lemma writeDisparity_swap rowNo i j (lm rm : list (list F)) :
  writeDisparity rowNo i j (rm, lm) =
  swap_outcome (writeDisparity rowNo j i (lm, rm)).
Proof.
  unfold writeDisparity. simpl. rewrite (disparity_sym i j).
  destruct (write2_cases lm rowNo j (of_int (disparity j i))) as [-> | ->],
    (write2_cases rm rowNo i (of_int (disparity j i))) as [-> | ->];
    reflexivity.
Qed.

Lemma writeDisparity_shaped n m rowNo i j (lm rm lm' rm' : list (list F)) :
  shaped n m lm -> shaped n m rm ->
  writeDisparity rowNo i j (lm, rm) = Done (lm', rm') ->
  shaped n m lm' /\ shaped n m rm'.
Proof.
  intros Hl Hr. unfold writeDisparity. simpl.
  destruct (write2_cases lm rowNo i (of_int (disparity i j))) as [-> | ->];
    [| done].
  destruct (write2_cases rm rowNo j (of_int (disparity i j))) as [-> | ->];
    [| done].
  simpl. intros [= <- <-]. split; by apply shaped_set2.
Qed.

Lemma backwardTraversal_swap (D D' : list (list Z)) (N rowNo : nat) :
  (forall i j, 1 <= i <= N -> 1 <= j <= N ->
     get2 0%Z D' i j = mirror (get2 0%Z D j i)) ->
  forall fuel i j lm rm, i <= N -> j <= N ->
  backwardTraversal (writeDisparity rowNo) D' fuel i j (rm, lm) =
  swap_run (backwardTraversal (writeDisparity rowNo) D fuel j i (lm, rm)).
Proof.
  intros HD fuel. induction fuel as [| fuel IH]; intros i j lm rm Hi Hj.
  - destruct i as [| i]; [by rewrite !backwardTraversal_stop by lia |].
    destruct j as [| j]; [by rewrite !backwardTraversal_stop by lia |].
    reflexivity.
  - destruct i as [| i]; [by rewrite !backwardTraversal_stop by lia |].
    destruct j as [| j]; [by rewrite !backwardTraversal_stop by lia |].
    rewrite !backwardTraversal_step. cbv zeta.
    rewrite HD by lia. unfold mirror, SKIP_LEFT, SKIP_RIGHT.
    set (tag := get2 0%Z D (S j) (S i)).
    destruct (Z.eqb_spec tag 1) as [-> | H1].
    + simpl. rewrite writeDisparity_swap.
      destruct (writeDisparity rowNo (S j) (S i) (lm, rm))
        as [[lm' rm'] | e |]; simpl; [| done | done].
      apply IH; lia.
    + destruct (Z.eqb_spec tag 2) as [-> | H2].
      * simpl. apply IH; lia.
      * destruct (Z.eqb_spec tag 3) as [-> | H3].
        -- simpl. apply IH; lia.
        -- destruct (Z.eqb_spec tag 1); [done |].
           destruct (Z.eqb_spec tag 2); [done |].
           destruct (Z.eqb_spec tag 3); [done |].
           apply IH; lia.
Qed.

Lemma backwardTraversal_shaped (D : list (list Z)) n m rowNo fuel :
  forall i j (lm rm : list (list F)) i' j' lm' rm',
  shaped n m lm -> shaped n m rm ->
  backwardTraversal (writeDisparity rowNo) D fuel i j (lm, rm) =
  Done (i', j', (lm', rm')) ->
  shaped n m lm' /\ shaped n m rm'.
Proof.
  induction fuel as [| fuel IH]; intros i j lm rm i' j' lm' rm' Hl Hr.
  - destruct i as [| i]; [rewrite backwardTraversal_stop by lia; by intros [= _ _ <- <-] |].
    destruct j as [| j]; [rewrite backwardTraversal_stop by lia; by intros [= _ _ <- <-] |].
    done.
  - destruct i as [| i]; [rewrite backwardTraversal_stop by lia; by intros [= _ _ <- <-] |].
    destruct j as [| j]; [rewrite backwardTraversal_stop by lia; by intros [= _ _ <- <-] |].
    rewrite backwardTraversal_step. cbv zeta.
    repeat case_match; try (by apply IH).
    destruct (writeDisparity rowNo (S i) (S j) (lm, rm))
      as [[lm1 rm1] | e |] eqn:E; simpl; [| done | done].
    destruct (writeDisparity_shaped n m rowNo _ _ _ _ _ _ Hl Hr E).
    by apply IH.
Qed.
End SwapRun.

Section SwapEstimator.
Context {F : Type} `{OrderedArith F}.
Variables (rows cols fuel : nat) (leftImage rightImage : list (list Z)) (c : F).
Hypothesis Hc : cost_ok c.
Hypothesis HLs : shaped rows cols leftImage.
Hypothesis HRs : shaped rows cols rightImage.
Hypothesis HL : Forall uint8s leftImage.
Hypothesis HR : Forall uint8s rightImage.
Hypothesis Hties : forall rowNo, rowNo < rows ->
  no_ties cols (nth rowNo leftImage []) (nth rowNo rightImage []) c.

Lemma uint8s_row (img : list (list Z)) rowNo :
  Forall uint8s img -> uint8s (nth rowNo img []).
Proof.
  intros Himg. destruct (nth_in_or_default rowNo img []) as [Hin | ->].
  - rewrite Forall_forall in Himg. by apply Himg, list_elem_of_In.
  - constructor.
Qed.

Lemma processRow_swap rowNo (lm rm : list (list F)) :
  rowNo < rows ->
  processRow fuel cols rightImage leftImage c rowNo (rm, lm) =
  swap_outcome (processRow fuel cols leftImage rightImage c rowNo (lm, rm)).
Proof.
  intros Hrow. unfold processRow.
  rewrite (backwardTraversal_swap
    (directionMatrix (buildMatrices cols (nth rowNo leftImage [])
                        (nth rowNo rightImage []) c)) _ cols rowNo);
    [| | lia | lia].
  - by destruct (backwardTraversal _ _ _ _ _ _) as [[[i j] [lm' rm']] | e |].
  - intros i j Hi Hj.
    apply dir_transpose; try done; try (by apply uint8s_row).
    by apply Hties.
Qed.

Lemma processRow_shaped n m rowNo (lm rm lm' rm' : list (list F)) :
  shaped n m lm -> shaped n m rm ->
  processRow fuel cols leftImage rightImage c rowNo (lm, rm) = Done (lm', rm') ->
  shaped n m lm' /\ shaped n m rm'.
Proof.
  intros Hl Hr. unfold processRow.
  destruct (backwardTraversal _ _ _ _ _ _) as [[[i j] [lm1 rm1]] | e |] eqn:E;
    simpl; [| done | done].
  intros [= <- <-].
  eapply backwardTraversal_shaped; [exact Hl | exact Hr | exact E].
Qed.

Lemma forRows_swap n m (rowNos : list nat) : forall (lm rm : list (list F)),
  Forall (fun rowNo => rowNo < rows) rowNos ->
  shaped n m lm -> shaped n m rm ->
  forRows (processRow fuel cols rightImage leftImage c) rowNos (rm, lm) =
  swap_outcome
    (forRows (processRow fuel cols leftImage rightImage c) rowNos (lm, rm)) /\
  (forall lm' rm',
     forRows (processRow fuel cols leftImage rightImage c) rowNos (lm, rm)
     = Done (lm', rm') -> shaped n m lm' /\ shaped n m rm').
Proof.
  induction rowNos as [| rowNo rowNos IH]; intros lm rm Hall Hl Hr.
  - simpl. split; [done |]. by intros lm' rm' [= <- <-].
  - apply Forall_cons in Hall as [Hrow Hall]. simpl.
    rewrite processRow_swap by done.
    destruct (processRow fuel cols leftImage rightImage c rowNo (lm, rm))
      as [[lm1 rm1] | e |] eqn:E; simpl; [| done | done].
    destruct (processRow_shaped n m rowNo _ _ _ _ Hl Hr E) as [Hl1 Hr1].
    by apply IH.
Qed.
End SwapEstimator.

Section SwapFinalize.
Context {F : Type} `{Arith F}.

Lemma shaped_concat_length {A} n m (M : list (list A)) :
  shaped n m M -> length (concat M) = n * m.
Proof.
  intros [<- Hall]. induction Hall as [| row M Hrow _ IH]; [done |].
  simpl. rewrite length_app, Hrow, IH. lia.
Qed.

Lemma scale_cases (M : list (list F)) :
  (exists s, scale M = Done s) \/
  (scale M = Raise ValueError /\ concat M = []) \/
  (scale M = Raise ZeroDivisionError /\ concat M <> []).
Proof.
  unfold scale, array_max. destruct (concat M) as [| x l].
  - right. left. done.
  - simpl. case_match; [right; right; done | left; eauto].
Qed.

Lemma finalize_swap n m (lm rm : list (list F)) :
  shaped n m lm -> shaped n m rm ->
  finalize (rm, lm) = swap_outcome (finalize (lm, rm)).
Proof.
  intros Hl Hr. unfold finalize. simpl.
  pose proof (shaped_concat_length n m lm Hl) as Ll.
  pose proof (shaped_concat_length n m rm Hr) as Lr.
  destruct (scale_cases lm) as [[sl ->] | [[-> El] | [-> El]]],
    (scale_cases rm) as [[sr ->] | [[-> Er] | [-> Er]]]; simpl; try done.
  - rewrite El in Ll. destruct (concat rm); [done | simpl in *; lia].
  - rewrite Er in Lr. destruct (concat lm); [done | simpl in *; lia].
Qed.
End SwapFinalize.



(** The two runs of the witness do return maps, exchanged. *)
Example swap_without_ties_runs :
  createDisparityMap 4 [[10; 50]]%Z [[50; 99]]%Z (b64 60)
    (full 1 3 (b64 0)) (full 1 3 (b64 0)) =
  Done ([[0; 0; 255]]%Z, [[0; 255; 0]]%Z) /\
  createDisparityMap 4 [[50; 99]]%Z [[10; 50]]%Z (b64 60)
    (full 1 3 (b64 0)) (full 1 3 (b64 0)) =
  Done ([[0; 255; 0]]%Z, [[0; 0; 255]]%Z).
Proof. vm_compute. split; reflexivity. Qed.


(** * Further properties of the code *)

(** ** The matching cost (line 45) *)

(** X1. For 8-bit samples the matching cost of line 45 is the square of
    their difference divided by 16, although for z1 < z2 the difference
    itself wraps to 2^64 - (z2 - z1) (numba types it uint64); so the cost
    is the same for (z1, z2) and (z2, z1).  Any arithmetic. *)
Theorem matching_cost_wraparound {F : Type} `{Arith F} (z1 z2 : Z) :
  (0 <= z1 < 256)%Z -> (0 <= z2 < 256)%Z ->
  (z1 < z2 -> sub_uint64 z1 z2 = 2 ^ 64 - (z2 - z1))%Z /\
  matchingCost z1 z2 =
    fdiv (of_int ((z1 - z2) * (z1 - z2))%Z) (of_int 16%Z) /\
  matchingCost z1 z2 = matchingCost z2 z1.
Proof.
  intros H1 H2. split; [| split].
  - intros Hlt. unfold sub_uint64, uint64.
    symmetry. apply Z.mod_unique with (q := (-1)%Z); lia.
  - unfold matchingCost. by rewrite pow2_int64_sub_uint64.
  - unfold matchingCost. rewrite !pow2_int64_sub_uint64 by done.
    do 2 f_equal. ring.
Qed.

Lemma matching_cost_wraparound_witness :
  (10 < 50 -> sub_uint64 10 50 = 2 ^ 64 - (50 - 10))%Z /\
  matchingCost 10 50 =
    fdiv (of_int ((10 - 50) * (10 - 50))%Z) (of_int 16%Z : spec_float) /\
  matchingCost 10 50 = (matchingCost 50 10 : spec_float).
Proof.
  apply (matching_cost_wraparound 10 50); lia.
Defined.

Section MatchingCost64.
Local Open Scope Z_scope.

Lemma exact_quotient_all :
  forallb (fun k => exact_quotient (Z.of_nat k)
                      (fdiv (b64 (Z.of_nat k * Z.of_nat k)) (b64 variance)))
          (seq 0 256) = true.
Proof. vm_compute. reflexivity. Qed.

(** X2. In binary64 the matching cost of two 8-bit samples is computed
    without rounding: it is a canonical finite float whose value is exactly
    (z1 - z2)^2 / 16 (stated in the unit 2^ebase of [value64]), and it is
    +0 exactly when the two samples are equal. *)
Theorem matching_cost_exact (z1 z2 : Z) :
  0 <= z1 < 256 -> 0 <= z2 < 256 ->
  let x : spec_float := matchingCost z1 z2 in
  canonical64 x /\ finite64 x /\
  16 * value64 x = (z1 - z2) * (z1 - z2) * 2 ^ (- ebase) /\
  (x = b64 0 <-> z1 = z2).
Proof.
  intros H1 H2 x. subst x. unfold matchingCost.
  rewrite pow2_int64_sub_uint64 by done. rewrite <- Z.abs_square.
  set (d := Z.abs (z1 - z2)).
  assert (Hd : 0 <= d < 256) by lia.
  assert (Hz : d = 0 <-> z1 = z2) by lia.
  pose proof exact_quotient_all as Hall. rewrite forallb_forall in Hall.
  specialize (Hall (Z.to_nat d)). rewrite Z2Nat.id in Hall by lia.
  specialize (Hall ltac:(apply in_seq; lia)).
  unfold exact_quotient in Hall.
  apply andb_true_iff in Hall as [Hall Hzero].
  apply andb_true_iff in Hall as [Hall Hval].
  apply andb_true_iff in Hall as [Hcan Hfin].
  apply Z.eqb_eq in Hval.
  set (x := fdiv (b64 (d * d)) (b64 variance)) in *.
  change (fdiv (of_int (d * d)) (of_int variance)) with x.
  split; [| split; [| split]].
  - destruct x as [[] | [] | | [] m e]; try done.
    split; [| done]. cbn [good64]. cbn [canonical64b] in Hcan.
    unfold bounded, canonical_mantissa in Hcan.
    apply andb_true_iff in Hcan as [Hc _]. apply Z.eqb_eq in Hc.
    unfold fexp in Hc. lia.
  - by destruct x.
  - exact Hval.
  - rewrite <- Hz. destruct x as [[] | [] | | [] m e]; try done.
    + apply Z.eqb_eq in Hzero. done.
    + apply negb_true_iff, Z.eqb_neq in Hzero. done.
Qed.

Lemma matching_cost_exact_witness :
  let x : spec_float := matchingCost 10 50 in
  canonical64 x /\ finite64 x /\
  16 * value64 x = (10 - 50) * (10 - 50) * 2 ^ (- ebase) /\
  (x = b64 0 <-> 10 = 50).
Proof. apply (matching_cost_exact 10 50); lia. Defined.

End MatchingCost64.

(** ** The boundary of the two matrices (lines 33-39) *)

Section Boundary.
Context {F : Type} `{Arith F}.
Variables (N : nat) (L R : list Z) (c : F).

(** The inner loops write interior cells only: the top row and the left
    column of the direction matrix keep the ones of [np.ones]. *)
Lemma direction_boundary a b :
  a = 0 \/ b = 0 ->
  get2 0%Z (directionMatrix (buildMatrices N L R c)) a b =
  get2 0%Z (full (N + 1) (N + 1) 1%Z) a b.
Proof.
  intros Hab. unfold buildMatrices.
  set (Q := fun (st : @matrices F) =>
    get2 0%Z (directionMatrix st) a b = get2 0%Z (full (N + 1) (N + 1) 1%Z) a b).
  apply (foldl_seq_ind (fun _ st => Q st)); [done |].
  intros i st Hi Hst. apply (foldl_seq_ind (fun _ st => Q st)); [done |].
  intros j st' Hj Hst'. unfold Q. rewrite cell_eq. cbv zeta.
  destruct (tagOf _) as [t |]; cbn [directionMatrix]; [| done].
  rewrite get2_set2_ne by (intros [=]; lia). done.
Qed.
End Boundary.

(** X3. For every input and every arithmetic, both matrices are
    (N + 1) by (N + 1); the cells (i, 0) and (0, i) of the cost matrix hold
    the product float(i) * occlusionCost of lines 37-39, which the inner
    loops never overwrite; and the top row and left column of the direction
    matrix keep the 1 of [np.ones]. *)
Theorem builder_boundary {F : Type} `{Arith F}
    (N : nat) (L R : list Z) (c : F) (i : nat) :
  i <= N ->
  let st := buildMatrices N L R c in
  shaped (N + 1) (N + 1) (costMatrix st) /\
  shaped (N + 1) (N + 1) (directionMatrix st) /\
  get2 zero (costMatrix st) i 0 = fmul (of_int (Z.of_nat i)) c /\
  get2 zero (costMatrix st) 0 i = fmul (of_int (Z.of_nat i)) c /\
  get2 0%Z (directionMatrix st) i 0 = 1%Z /\
  get2 0%Z (directionMatrix st) 0 i = 1%Z.
Proof.
  intros Hi st. pose proof (buildMatrices_built N L R c) as Hb.
  destruct Hb as [HC HD Hr0 Hc0 _ _ _ _].
  repeat split; try apply HC; try apply HD.
  - by apply Hc0.
  - by apply Hr0.
  - unfold st. rewrite direction_boundary by lia. apply get2_full; lia.
  - unfold st. rewrite direction_boundary by lia. apply get2_full; lia.
Qed.

Lemma builder_boundary_witness :
  let st := buildMatrices 2 [10; 10]%Z [10; 50]%Z (b64 5) in
  shaped (2 + 1) (2 + 1) (costMatrix st) /\
  shaped (2 + 1) (2 + 1) (directionMatrix st) /\
  get2 zero (costMatrix st) 2 0 = fmul (of_int (Z.of_nat 2)) (b64 5) /\
  get2 zero (costMatrix st) 0 2 = fmul (of_int (Z.of_nat 2)) (b64 5) /\
  get2 0%Z (directionMatrix st) 2 0 = 1%Z /\
  get2 0%Z (directionMatrix st) 0 2 = 1%Z.
Proof. apply (builder_boundary 2 [10; 10]%Z [10; 50]%Z (b64 5) 2). lia. Defined.

(** ** Termination of the traversal on the builder's matrix *)

(** X4. For every input, whatever the occlusion cost (NaN and infinities
    included) and the samples, every cell of the direction matrix the
    builder produces holds 1, 2 or 3; so the branch "Error within direction
    matrix" of the traversal is never taken, and the [while] loop started
    at (N, N) ends within 2 * N iterations at a cursor with i = 0 or
    j = 0. *)
Theorem traversal_always_terminates {F : Type} `{Arith F}
    (N : nat) (L R : list Z) (c : F) (fuel : nat) :
  2 * N <= fuel ->
  let D := directionMatrix (buildMatrices N L R c) in
  (forall i j, i <= N -> j <= N ->
     get2 0%Z D i j = 1%Z \/ get2 0%Z D i j = 2%Z \/ get2 0%Z D i j = 3%Z) /\
  exists i j tr,
    matchedPairs D fuel N = Done (i, j, tr) /\ (i = 0 \/ j = 0).
Proof.
  intros Hfuel D. split.
  - intros i j Hi Hj. destruct (decide (i = 0 \/ j = 0)) as [Hz | Hnz].
    + left. unfold D. rewrite direction_boundary by done. apply get2_full; lia.
    + apply (buildMatrices_valid_tags N L R c); lia.
  - destruct (record_run D N (buildMatrices_valid_tags N L R c) (N + N) N N [])
      as (n & i & j & tr & Hn & Hdone & _ & Hz & _); [lia | lia | lia |].
    exists i, j, tr. split; [| done]. apply Hdone. lia.
Qed.

Lemma traversal_always_terminates_witness :
  let D := directionMatrix
             (buildMatrices 2 [10; 10]%Z [10; 50]%Z (S754_nan : spec_float)) in
  (forall i j, i <= 2 -> j <= 2 ->
     get2 0%Z D i j = 1%Z \/ get2 0%Z D i j = 2%Z \/ get2 0%Z D i j = 3%Z) /\
  exists i j tr,
    matchedPairs D 4 2 = Done (i, j, tr) /\ (i = 0 \/ j = 0).
Proof.
  apply (traversal_always_terminates 2 [10; 10]%Z [10; 50]%Z
           (S754_nan : spec_float) 4). lia.
Defined.

(** ** The traversal and its writes (lines 72-84) *)

Section Factor.
Context {St : Type}.
Variable emit : nat -> nat -> St -> outcome St.
Variable D : list (list Z).

(** A traversal does to its state what emitting the matched pairs of the
    recording traversal does, in the same order. *)
Lemma backwardTraversal_emitAll fuel : forall i j tr0 i' j' tr1 (s : St),
  backwardTraversal record D fuel i j tr0 = Done (i', j', tr1) ->
  exists tr, tr1 = tr0 ++ tr /\
    backwardTraversal emit D fuel i j s =
    (s' ← emitAll emit tr s; Done (i', j', s')).
Proof.
  induction fuel as [| fuel IH]; intros i j tr0 i' j' tr1 s.
  - destruct i as [| i];
      [rewrite !backwardTraversal_stop by lia; intros [= <- <- <-];
       exists []; by rewrite app_nil_r |].
    destruct j as [| j];
      [rewrite !backwardTraversal_stop by lia; intros [= <- <- <-];
       exists []; by rewrite app_nil_r |].
    done.
  - destruct i as [| i];
      [rewrite !backwardTraversal_stop by lia; intros [= <- <- <-];
       exists []; by rewrite app_nil_r |].
    destruct j as [| j];
      [rewrite !backwardTraversal_stop by lia; intros [= <- <- <-];
       exists []; by rewrite app_nil_r |].
    rewrite !backwardTraversal_step. cbv zeta.
    destruct (get2 0%Z D (S i) (S j) =? 1)%Z.
    + unfold record at 1. simpl. intros Hrun.
      destruct (emit (S i) (S j) s) as [s1 | e |] eqn:E.
      * destruct (IH _ _ _ _ _ _ s1 Hrun) as (tr & -> & Hemit).
        exists ((S i, S j) :: tr). rewrite <- app_assoc. split; [done |].
        simpl. rewrite E. simpl. exact Hemit.
      * destruct (IH _ _ _ _ _ _ s Hrun) as (tr & -> & _).
        exists ((S i, S j) :: tr). rewrite <- app_assoc. split; [done |].
        simpl. by rewrite E.
      * destruct (IH _ _ _ _ _ _ s Hrun) as (tr & -> & _).
        exists ((S i, S j) :: tr). rewrite <- app_assoc. split; [done |].
        simpl. by rewrite E.
    + destruct (get2 0%Z D (S i) (S j) =? 2)%Z; [apply IH |].
      destruct (get2 0%Z D (S i) (S j) =? 3)%Z; apply IH.
Qed.
End Factor.

(** X5. The traversal calls the body of its MATCH branch exactly on the
    matched pairs, in the order (largest first) in which the recording
    traversal lists them: running it with any such body, for instance the
    two writes of lines 77-78, is running the body on the pairs of that
    list one after the other, an exception of the body ending the run. *)
Theorem traversal_emits_matched_pairs {St : Type}
    (emit : nat -> nat -> St -> outcome St) (D : list (list Z))
    (fuel N i j : nat) (tr : list (nat * nat)) (s : St) :
  matchedPairs D fuel N = Done (i, j, tr) ->
  backwardTraversal emit D fuel N N s =
  (s' ← emitAll emit tr s; Done (i, j, s')).
Proof.
  unfold matchedPairs. intros Hrun.
  destruct (backwardTraversal_emitAll emit D fuel N N [] i j tr s Hrun)
    as (tr' & -> & Hemit).
  exact Hemit.
Qed.

Lemma traversal_emits_matched_pairs_witness :
  let D := directionMatrix (buildMatrices 2 [10; 50]%Z [50; 99]%Z (b64 60)) in
  backwardTraversal (writeDisparity 0) D 4 2 2
    (full 1 3 (b64 0), full 1 3 (b64 0)) =
  (s' ← emitAll (writeDisparity 0) [(2, 1)] (full 1 3 (b64 0), full 1 3 (b64 0));
   Done (1, 0, s')).
Proof.
  apply (traversal_emits_matched_pairs (writeDisparity 0)
           (directionMatrix (buildMatrices 2 [10; 50]%Z [50; 99]%Z (b64 60)))
           4 2 1 0 [(2, 1)]).
  vm_compute. reflexivity.
Defined.

Section RowWrites.
Context {F : Type} `{Arith F}.
Variables (rows cols rowNo : nat).
Hypothesis Hrow : rowNo < rows.

(** The writes of a strictly decreasing trace: all of them succeed when
    every pair is inside the maps, and then each matched column holds its
    disparity and every other cell is unchanged; otherwise the first pair
    outside raises. *)
Lemma emitAll_writes (tr : list (nat * nat)) : forall (lm rm : list (list F)),
  shaped rows cols lm -> shaped rows cols rm ->
  StronglySorted pair_below tr ->
  (Forall (in_cols cols) tr /\
   exists lm' rm',
     emitAll (writeDisparity rowNo) tr (lm, rm) = Done (lm', rm') /\
     shaped rows cols lm' /\ shaped rows cols rm' /\
     (forall d a b, (a, b) ∈ tr ->
        get2 d lm' rowNo a = of_int (disparity a b) /\
        get2 d rm' rowNo b = of_int (disparity a b)) /\
     (forall d r k, r <> rowNo \/ k ∉ tr.*1 ->
        get2 d lm' r k = get2 d lm r k) /\
     (forall d r k, r <> rowNo \/ k ∉ tr.*2 ->
        get2 d rm' r k = get2 d rm r k)) \/
  (~ Forall (in_cols cols) tr /\
   emitAll (writeDisparity rowNo) tr (lm, rm) = Raise IndexError).
Proof.
  induction tr as [| [a b] tr IH]; intros lm rm Hl Hr Hss.
  - left. split; [constructor |]. exists lm, rm. simpl.
    split; [done |]. split; [done |]. split; [done |].
    split; [| by split].
    intros d a b Hin. by apply elem_of_nil in Hin.
  - apply StronglySorted_inv in Hss as [Hss Hbelow].
    set (v := of_int (disparity a b)).
    assert (Hhd : writeDisparity rowNo a b (lm, rm) =
                  if decide (a < cols) then
                    if decide (b < cols)
                    then Done (set2 lm rowNo a v, set2 rm rowNo b v)
                    else Raise IndexError
                  else Raise IndexError).
    { unfold writeDisparity. cbn [fst snd]. fold v.
      rewrite (write2_shaped rows cols lm rowNo a _ Hl Hrow).
      destruct (decide (a < cols)); [| done]. simpl.
      rewrite (write2_shaped rows cols rm rowNo b _ Hr Hrow).
      by destruct (decide (b < cols)). }
    cbn [emitAll]. rewrite Hhd. clear Hhd.
    destruct (decide (a < cols)) as [Ha | Ha];
      [| right; split; [| done];
         intros Hall; apply Forall_cons in Hall as [[? ?] _]; simpl in *; lia].
    destruct (decide (b < cols)) as [Hb | Hb];
      [| right; split; [| done];
         intros Hall; apply Forall_cons in Hall as [[? ?] _]; simpl in *; lia].
    simpl.
    destruct (IH (set2 lm rowNo a v) (set2 rm rowNo b v))
      as [(Hall & lm' & rm' & Hrun & Hl' & Hr' & Hval & Hfl & Hfr)
         | (Hnall & Hrun)];
      [by apply shaped_set2 | by apply shaped_set2 | done | |].
    + left. split; [constructor; [split; done | done] |].
      exists lm', rm'. split; [done |]. split; [done |]. split; [done |].
      assert (Hfst : a ∉ tr.*1).
      { intros Hin. apply list_elem_of_fmap in Hin as ([a' b'] & -> & Hin).
        rewrite Forall_forall in Hbelow. specialize (Hbelow _ Hin).
        unfold pair_below in Hbelow. simpl in Hbelow. lia. }
      assert (Hsnd : b ∉ tr.*2).
      { intros Hin. apply list_elem_of_fmap in Hin as ([a' b'] & -> & Hin).
        rewrite Forall_forall in Hbelow. specialize (Hbelow _ Hin).
        unfold pair_below in Hbelow. simpl in Hbelow. lia. }
      split; [| split].
      * intros d a' b' Hin. apply elem_of_cons in Hin as [[= -> ->] | Hin].
        -- rewrite Hfl by (by right). rewrite Hfr by (by right).
           rewrite !(get2_set2_eq _ rows cols) by done. done.
        -- by apply Hval.
      * intros d r k Hrk. rewrite Hfl.
        -- apply get2_set2_ne. intros [= <- <-].
           destruct Hrk as [? | Hk]; [done |]. apply Hk. simpl. left.
        -- destruct Hrk as [? | Hk]; [by left | right].
           intros Hin. apply Hk. simpl. by right.
      * intros d r k Hrk. rewrite Hfr.
        -- apply get2_set2_ne. intros [= <- <-].
           destruct Hrk as [? | Hk]; [done |]. apply Hk. simpl. left.
        -- destruct Hrk as [? | Hk]; [by left | right].
           intros Hin. apply Hk. simpl. by right.
    + right. split; [| done]. intros Hall. apply Hnall.
      by apply Forall_cons in Hall as [_ ?].
Qed.
End RowWrites.



(** ** The traced path is an optimal alignment *)

Section MatchesOf.
Context {F : Type} `{Arith F}.
Variables (L R : list Z) (c : F).

Lemma matchesOf_snoc steps s : forall a b acc,
  matchesOf a b (steps ++ [s]) =
  matchesOf a b steps ++
  match s with
  | Match => [(S (walk L R c a b acc steps).1.1, S (walk L R c a b acc steps).1.2)]
  | _ => []
  end.
Proof.
  induction steps as [| s0 steps IH]; intros a b acc.
  - destruct s; reflexivity.
  - destruct s0; simpl.
    + by rewrite (IH _ _ (fadd acc (stepCost L R c a b Match))).
    + by rewrite (IH _ _ (fadd acc (stepCost L R c a b SkipLeft))).
    + by rewrite (IH _ _ (fadd acc (stepCost L R c a b SkipRight))).
Qed.
End MatchesOf.

Section Traceback.
Context {F : Type} `{ExactArith F}.
Variables (N : nat) (L R : list Z) (c : F).
Hypothesis Hc : cost_ok c.
Hypothesis HL : uint8s L.
Hypothesis HR : uint8s R.

Local Abbreviation C := (costMatrix (buildMatrices N L R c)).
Local Abbreviation D := (directionMatrix (buildMatrices N L R c)).

Lemma boundary_walk_row j :
  j <= N ->
  exists steps, walk L R c 0 0 zero steps = (0, j, get2 zero C 0 j) /\
                matchesOf 0 0 steps = [].
Proof.
  induction j as [| j IH]; intros Hj.
  - exists []. simpl. rewrite cost_row0 by lia. unfold scaled. simpl.
    by rewrite scale_0.
  - destruct IH as (steps & Hw & Hm); [lia |].
    exists (steps ++ [SkipRight]).
    rewrite walk_snoc, Hw, (matchesOf_snoc L R c _ _ 0 0 zero), Hm. simpl.
    rewrite !cost_row0 by lia. by rewrite (scaled_S c Hc).
Qed.

Lemma boundary_walk_col i :
  i <= N ->
  exists steps, walk L R c 0 0 zero steps = (i, 0, get2 zero C i 0) /\
                matchesOf 0 0 steps = [].
Proof.
  induction i as [| i IH]; intros Hi.
  - exists []. simpl. rewrite cost_row0 by lia. unfold scaled. simpl.
    by rewrite scale_0.
  - destruct IH as (steps & Hw & Hm); [lia |].
    exists (steps ++ [SkipLeft]).
    rewrite walk_snoc, Hw, (matchesOf_snoc L R c _ _ 0 0 zero), Hm. simpl.
    rewrite !cost_col0 by lia. by rewrite (scaled_S c Hc).
Qed.

(** From every cursor the traversal stops, and the pairs it matches are
    the matches of an alignment whose cost is the cell of the cursor. *)
Lemma traceback_aligns k : forall i j,
  i + j <= k -> i <= N -> j <= N ->
  exists i' j' tr steps,
    (forall fuel tr0, i + j <= fuel ->
       backwardTraversal record D fuel i j tr0 = Done (i', j', tr0 ++ tr)) /\
    walk L R c 0 0 zero steps = (i, j, get2 zero C i j) /\
    matchesOf 0 0 steps = rev tr.
Proof.
  induction k as [| k IH]; intros i j Hk Hi Hj.
  { assert (i = 0) as -> by lia. assert (j = 0) as -> by lia.
    destruct (boundary_walk_row 0) as (steps & Hw & Hm); [lia |].
    exists 0, 0, [], steps. split; [| done].
    intros fuel tr0 _. rewrite backwardTraversal_stop by lia.
    by rewrite app_nil_r. }
  destruct i as [| i].
  { destruct (boundary_walk_row j Hj) as (steps & Hw & Hm).
    exists 0, j, [], steps. split; [| done].
    intros fuel tr0 _. rewrite backwardTraversal_stop by lia.
    by rewrite app_nil_r. }
  destruct j as [| j].
  { destruct (boundary_walk_col (S i) Hi) as (steps & Hw & Hm).
    exists (S i), 0, [], steps. split; [| done].
    intros fuel tr0 _. rewrite backwardTraversal_stop by lia.
    by rewrite app_nil_r. }
  pose proof (dir_interior N L R c (S i) (S j) ltac:(lia) ltac:(lia)) as Hd.
  pose proof (cost_interior N L R c (S i) (S j) ltac:(lia) ltac:(lia)) as Hcost.
  pose proof (good_candidates N L R c Hc HL HR (S i) (S j)
                ltac:(lia) ltac:(lia)) as Hg.
  unfold candidates in Hd, Hcost, Hg.
  replace (S i - 1) with i in * by lia. replace (S j - 1) with j in * by lia.
  set (m1 := fadd (get2 zero C i j)
               (matchingCost (nth i L 0%Z) (nth j R 0%Z))) in *.
  set (m2 := fadd (get2 zero C i (S j)) c) in *.
  set (m3 := fadd (get2 zero C (S i) j) c) in *.
  destruct Hg as (G1 & G2 & G3).
  pose proof (good_min_of3 m1 m2 m3 G1 G2 G3) as Gm.
  unfold minOf in Hcost. unfold tagOf in Hd.
  destruct (feqb (min_of3 m1 m2 m3) m3) eqn:E3.
  - apply feqb_eq in E3; [| done | done].
    destruct (IH (S i) j) as (i' & j' & tr & steps & Hrun & Hw & Hm);
      [lia | lia | lia |].
    exists i', j', tr, (steps ++ [SkipRight]). split; [| split].
    + intros [| fuel] tr0 Hf; [lia |].
      rewrite backwardTraversal_step. cbv zeta. rewrite Hd. simpl.
      apply Hrun. lia.
    + rewrite walk_snoc, Hw. simpl. by rewrite Hcost, E3.
    + by rewrite (matchesOf_snoc L R c _ _ 0 0 zero), Hm, app_nil_r.
  - destruct (feqb (min_of3 m1 m2 m3) m1) eqn:E1.
    + apply feqb_eq in E1; [| done | done].
      destruct (IH i j) as (i' & j' & tr & steps & Hrun & Hw & Hm);
        [lia | lia | lia |].
      exists i', j', ((S i, S j) :: tr), (steps ++ [Match]). split; [| split].
      * intros [| fuel] tr0 Hf; [lia |].
        rewrite backwardTraversal_step. cbv zeta. rewrite Hd. simpl.
        unfold record at 1. simpl. rewrite Hrun by lia.
        by rewrite <- app_assoc.
      * rewrite walk_snoc, Hw. simpl. by rewrite Hcost, E1.
      * rewrite (matchesOf_snoc L R c _ _ 0 0 zero), Hm, Hw. done.
    + destruct (feqb (min_of3 m1 m2 m3) m2) eqn:E2.
      * apply feqb_eq in E2; [| done | done].
        destruct (IH i (S j)) as (i' & j' & tr & steps & Hrun & Hw & Hm);
          [lia | lia | lia |].
        exists i', j', tr, (steps ++ [SkipLeft]). split; [| split].
        -- intros [| fuel] tr0 Hf; [lia |].
           rewrite backwardTraversal_step. cbv zeta. rewrite Hd. simpl.
           apply Hrun. lia.
        -- rewrite walk_snoc, Hw. simpl. by rewrite Hcost, E2.
        -- by rewrite (matchesOf_snoc L R c _ _ 0 0 zero), Hm, app_nil_r.
      * exfalso. apply (tagOf_good m1 m2 m3 G1 G2 G3). unfold tagOf.
        by rewrite E3, E1, E2.
Qed.
End Traceback.



(** ** Two identical rows *)

Section IdenticalRows.
Context {F : Type} `{OrderedArith F}.
Variables (N : nat) (L : list Z) (c : F).
Hypothesis HL : uint8s L.
Hypothesis Hc : cost_ok c.

Lemma matchingCost_refl z : (0 <= z < 256)%Z -> matchingCost z z = zero.
Proof.
  intros Hz. unfold matchingCost. rewrite pow2_int64_sub_uint64 by done.
  replace ((z - z) * (z - z))%Z with 0%Z by lia. apply match_0.
Qed.

(** Along the diagonal the cost is zero and the tag is MATCH. *)
Lemma identical_rows_diagonal i :
  i <= N ->
  let st := buildMatrices N L L c in
  get2 zero (costMatrix st) i i = zero /\
  (1 <= i -> get2 0%Z (directionMatrix st) i i = MATCH).
Proof.
  intros Hi st. induction i as [| i IH].
  { split; [| lia]. unfold st. rewrite cost_row0 by lia.
    unfold scaled. by apply scale_0. }
  destruct IH as [IH _]; [lia |].
  pose proof (good_cell N L L c Hc HL HL) as Hg.
  assert (Hcands :
    candidates L L c (costMatrix st) (S i) (S i) =
    (zero, fadd (get2 zero (costMatrix st) i (S i)) c,
           fadd (get2 zero (costMatrix st) (S i) i) c)).
  { unfold candidates. replace (S i - 1) with i by lia.
    rewrite IH. rewrite matchingCost_refl by (by apply uint8s_nth).
    by rewrite fadd_0_0. }
  set (m2 := fadd (get2 zero (costMatrix st) i (S i)) c) in *.
  set (m3 := fadd (get2 zero (costMatrix st) (S i) i) c) in *.
  assert (G2 : good m2) by (apply good_add; [apply Hg; lia | by apply good_cost]).
  assert (G3 : good m3) by (apply good_add; [apply Hg; lia | by apply good_cost]).
  assert (P2 : fltb zero m2 = true) by (apply fadd_pos; [apply Hg; lia | done]).
  assert (P3 : fltb zero m3 = true) by (apply fadd_pos; [apply Hg; lia | done]).
  assert (Hmin : min_of3 zero m2 m3 = zero).
  { unfold min_of3.
    rewrite (flt_asym zero m2) by (done || apply good_zero).
    by rewrite (flt_asym zero m3) by (done || apply good_zero). }
  split.
  - unfold st. rewrite cost_interior by lia. fold st. rewrite Hcands.
    exact Hmin.
  - intros _. unfold st. rewrite dir_interior by lia. fold st.
    rewrite Hcands. unfold tagOf. rewrite Hmin.
    rewrite (flt_neq zero m3) by (done || apply good_zero).
    by rewrite feqb_refl by apply good_zero.
Qed.

Lemma identical_rows_path k :
  k <= N ->
  forall fuel tr, k <= fuel ->
  backwardTraversal record (directionMatrix (buildMatrices N L L c))
    fuel k k tr = Done (0, 0, tr ++ diagonal k).
Proof.
  induction k as [| k IH]; intros Hk fuel tr Hfuel.
  - rewrite backwardTraversal_stop by lia. unfold diagonal. simpl.
    by rewrite app_nil_r.
  - destruct fuel as [| fuel]; [lia |].
    rewrite backwardTraversal_step. cbv zeta.
    destruct (identical_rows_diagonal (S k) Hk) as [_ Htag].
    rewrite Htag by lia. simpl.
    rewrite IH by lia. by rewrite diagonal_S, <- app_assoc.
Qed.
End IdenticalRows.

(** X8. For two identical rows of 8-bit samples (constant or not) and a
    positive finite occlusion cost, every diagonal cell C[i][i] is zero and
    tagged MATCH, and the traversal matches every pixel with itself: it
    emits (N, N), ..., (1, 1) and stops at (0, 0).  binary64 included. *)
Theorem identical_rows_match_diagonal {F : Type} `{OrderedArith F}
    (N : nat) (L : list Z) (c : F) (fuel : nat) :
  uint8s L -> cost_ok c -> N <= fuel ->
  let st := buildMatrices N L L c in
  matchedPairs (directionMatrix st) fuel N = Done (0, 0, diagonal N) /\
  (forall i, i <= N -> get2 zero (costMatrix st) i i = zero) /\
  (forall i, 1 <= i <= N -> get2 0%Z (directionMatrix st) i i = MATCH).
Proof.
  intros HL Hc Hfuel st. split; [| split].
  - unfold matchedPairs, st.
    by rewrite (identical_rows_path N L c HL Hc N) by lia.
  - intros i Hi. by apply (identical_rows_diagonal N L c HL Hc i).
  - intros i Hi. apply (identical_rows_diagonal N L c HL Hc i); lia.
Qed.

Lemma identical_rows_match_diagonal_witness :
  let st := buildMatrices 3 [10; 200; 7]%Z [10; 200; 7]%Z (b64 5) in
  matchedPairs (directionMatrix st) 3 3 = Done (0, 0, diagonal 3) /\
  (forall i, i <= 3 -> get2 zero (costMatrix st) i i = zero) /\
  (forall i, 1 <= i <= 3 -> get2 0%Z (directionMatrix st) i i = MATCH).
Proof.
  apply (identical_rows_match_diagonal 3 [10; 200; 7]%Z (b64 5) 3).
  - repeat constructor; lia.
  - vm_compute. split; [discriminate | reflexivity].
  - lia.
Defined.



(** ** The cost of the swapped rows *)

(** X10. For 8-bit rows and a positive finite occlusion cost, the cost
    matrix built for the rows in the other order is the transpose of the
    original one, ties or not; in particular the total cost C[N][N] does
    not depend on which image is called left.  binary64 included. *)
Theorem cost_matrix_transpose {F : Type} `{OrderedArith F}
    (N : nat) (L R : list Z) (c : F) (a b : nat) :
  cost_ok c -> uint8s L -> uint8s R -> a <= N -> b <= N ->
  get2 zero (costMatrix (buildMatrices N R L c)) a b =
  get2 zero (costMatrix (buildMatrices N L R c)) b a.
Proof. intros. by apply cost_transpose. Qed.

Lemma cost_matrix_transpose_witness :
  get2 zero (costMatrix (buildMatrices 2 [10; 50]%Z [10; 10]%Z (b64 5))) 2 1 =
  get2 zero (costMatrix (buildMatrices 2 [10; 10]%Z [10; 50]%Z (b64 5))) 1 2.
Proof.
  apply (cost_matrix_transpose 2 [10; 10]%Z [10; 50]%Z (b64 5) 2 1).
  - vm_compute. split; [discriminate | reflexivity].
  - repeat constructor; lia.
  - repeat constructor; lia.
  - lia.
  - lia.
Defined.

(** ** An occlusion cost that is not finite *)

(** X11. With an occlusion cost that is not finite (an infinity or a
    NaN) and at least one pixel per row, whatever the samples: line 38
    stores 0 * occlusionCost = NaN in C[0][0], the minimum of cell (1, 1)
    is NaN and equals none of the candidates, so the builder prints
    "Error matching minimum" for (1, 1), stores NaN there and leaves the
    tag 1 of [np.ones] in the direction matrix. *)
Theorem nonfinite_cost_error_branch (N : nat) (L R : list Z) (c : spec_float) :
  nonfinite64 c -> 1 <= N ->
  let st := buildMatrices N L R c in
  get2 zero (costMatrix st) 0 0 = S754_nan /\
  get2 zero (costMatrix st) 1 1 = S754_nan /\
  ErrorMatchingMinimum 1 1 ∈ printed st /\
  get2 0%Z (directionMatrix st) 1 1 = 1%Z.
Proof.
  intros Hc HN st.
  assert (H00 : get2 zero (costMatrix st) 0 0 = S754_nan).
  { unfold st. rewrite cost_row0 by lia. unfold scaled.
    destruct c as [s | s | | s m e]; try done. }
  assert (Hcands : exists m2 m3,
    candidates L R c (costMatrix st) 1 1 = (S754_nan, m2, m3)).
  { unfold candidates. cbn [Nat.sub]. rewrite H00. eauto. }
  destruct Hcands as (m2 & m3 & Hcands).
  assert (Hnone : tagOf (candidates L R c (costMatrix st) 1 1) = None).
  { rewrite Hcands. unfold tagOf, min_of3.
    change (fltb m2 S754_nan) with (SFltb m2 S754_nan).
    replace (SFltb m2 S754_nan) with false by (by destruct m2 as [| | | ? ? ?]).
    change (fltb m3 S754_nan) with (SFltb m3 S754_nan).
    replace (SFltb m3 S754_nan) with false by (by destruct m3 as [| | | ? ? ?]).
    reflexivity. }
  split; [done |]. split; [| split].
  - unfold st. rewrite cost_interior by lia. fold st. rewrite Hcands.
    unfold minOf, min_of3.
    change (fltb m2 S754_nan) with (SFltb m2 S754_nan).
    replace (SFltb m2 S754_nan) with false by (by destruct m2 as [| | | ? ? ?]).
    change (fltb m3 S754_nan) with (SFltb m3 S754_nan).
    replace (SFltb m3 S754_nan) with false by (by destruct m3 as [| | | ? ? ?]).
    reflexivity.
  - apply printed_iff. split; [lia |]. split; [lia | exact Hnone].
  - unfold st. rewrite dir_interior by lia. fold st. by rewrite Hnone.
Qed.

Lemma nonfinite_cost_error_branch_witness :
  let st := buildMatrices 2 [10; 10]%Z [10; 50]%Z (S754_infinity false) in
  get2 zero (costMatrix st) 0 0 = S754_nan /\
  get2 zero (costMatrix st) 1 1 = S754_nan /\
  ErrorMatchingMinimum 1 1 ∈ printed st /\
  get2 0%Z (directionMatrix st) 1 1 = 1%Z.
Proof.
  apply (nonfinite_cost_error_branch 2 [10; 10]%Z [10; 50]%Z
           (S754_infinity false)); [exact I | lia].
Defined.

(** ** Images without pixels, and the shape of the output *)

Section WholeRun.
Context {F : Type} `{Arith F}.

Lemma forRows_no_columns fuel (leftImage rightImage : list (list Z)) (c : F)
    (rowNos : list nat) (maps : list (list F) * list (list F)) :
  forRows (processRow fuel 0 leftImage rightImage c) rowNos maps = Done maps.
Proof.
  induction rowNos as [| rowNo rowNos IH]; [done |].
  assert (Hrow : processRow fuel 0 leftImage rightImage c rowNo maps = Done maps).
  { unfold processRow. by rewrite backwardTraversal_stop by lia. }
  cbn [forRows]. rewrite Hrow. simpl. exact IH.
Qed.

Lemma forRows_shaped fuel cols (leftImage rightImage : list (list Z)) (c : F)
    n m (rowNos : list nat) : forall (lm rm lm' rm' : list (list F)),
  shaped n m lm -> shaped n m rm ->
  forRows (processRow fuel cols leftImage rightImage c) rowNos (lm, rm) =
  Done (lm', rm') ->
  shaped n m lm' /\ shaped n m rm'.
Proof.
  induction rowNos as [| rowNo rowNos IH]; intros lm rm lm' rm' Hl Hr.
  - simpl. by intros [= <- <-].
  - cbn [forRows].
    destruct (processRow fuel cols leftImage rightImage c rowNo (lm, rm))
      as [[lm1 rm1] | e |] eqn:E; simpl; [| done | done].
    destruct (processRow_shaped cols fuel leftImage rightImage c n m rowNo
                _ _ _ _ Hl Hr E) as [Hl1 Hr1].
    by apply IH.
Qed.

Lemma astype_uint8_shaped n m (M : list (list F)) (s : F) :
  shaped n m M ->
  shaped n m (astype_uint8 (map (map (fun x => fmul x s)) M)) /\
  Forall (Forall (fun z => (0 <= z < 256)%Z))
         (astype_uint8 (map (map (fun x => fmul x s)) M)).
Proof.
  intros [Hlen Hall]. unfold astype_uint8. split; [split |].
  - by rewrite !length_map.
  - rewrite !Forall_map. eapply Forall_impl; [exact Hall |].
    intros row Hrow. simpl. by rewrite !length_map.
  - rewrite !Forall_map. apply Forall_forall. intros row _.
    rewrite !Forall_map. apply Forall_forall. intros x _. simpl.
    unfold uint8. apply Z.mod_pos_bound. lia.
Qed.
End WholeRun.

(** X12. When the left image has no pixel (no row, or rows of width 0)
    and the left map has no cell, no row is traversed and the rescale asks
    for the maximum of a zero-size array: the run ends in ValueError.
    This is the case of [go] on such an image. *)
Theorem image_without_pixels_raises {F : Type} `{Arith F}
    (fuel : nat) (leftImage rightImage : list (list Z)) (c : F)
    (leftMap rightMap : list (list F)) :
  Forall (fun row => row = []) leftImage -> concat leftMap = [] ->
  createDisparityMap fuel leftImage rightImage c leftMap rightMap =
    Raise ValueError /\
  go_call fuel leftImage rightImage c = Raise ValueError.
Proof.
  intros Hrows Hmap.
  assert (Hcols : length (nth 0 leftImage []) = 0).
  { destruct leftImage as [| row0 rest]; [done |].
    apply Forall_cons in Hrows as [-> _]. done. }
  assert (Hrun : forall lm rm, concat lm = [] ->
    createDisparityMap fuel leftImage rightImage c lm rm = Raise ValueError).
  { intros lm rm Hlm. unfold createDisparityMap. rewrite Hcols.
    rewrite forRows_no_columns. simpl. unfold finalize, scale, array_max.
    simpl. by rewrite Hlm. }
  split; [by apply Hrun |].
  unfold go_call. rewrite Hcols. apply Hrun.
  unfold full. induction (length leftImage) as [| n IH]; [done | exact IH].
Qed.

Lemma image_without_pixels_raises_witness :
  createDisparityMap 3 [[]; []] [[]; []] (b64 5) [[]; []] [[]; []] =
    Raise ValueError /\
  go_call 3 [[]; []] [[]; []] (b64 5) = Raise ValueError.
Proof.
  apply (image_without_pixels_raises 3 [[]; []] [[]; []] (b64 5)
           [[]; []] [[]; []]).
  - repeat constructor.
  - reflexivity.
Defined.

(** X13. Whenever [createDisparityMap] returns, for any images, the two
    output maps have the shape of the two input maps and every value is an
    8-bit integer (0 to 255). *)
Theorem output_shape {F : Type} `{Arith F}
    (fuel n m : nat) (leftImage rightImage : list (list Z)) (c : F)
    (leftMap rightMap : list (list F)) (l r : list (list Z)) :
  shaped n m leftMap -> shaped n m rightMap ->
  createDisparityMap fuel leftImage rightImage c leftMap rightMap =
    Done (l, r) ->
  shaped n m l /\ shaped n m r /\
  Forall (Forall (fun z => (0 <= z < 256)%Z)) l /\
  Forall (Forall (fun z => (0 <= z < 256)%Z)) r.
Proof.
  intros Hl Hr. unfold createDisparityMap.
  destruct (forRows _ _ _) as [[lm rm] | e |] eqn:E; simpl; [| done | done].
  destruct (forRows_shaped _ _ _ _ _ n m _ _ _ _ _ Hl Hr E) as [Hl' Hr'].
  unfold finalize. simpl.
  destruct (scale lm) as [sl | |]; simpl; [| done | done].
  destruct (scale rm) as [sr | |]; simpl; [| done | done].
  intros [= <- <-].
  destruct (astype_uint8_shaped n m lm sl Hl') as [? ?].
  destruct (astype_uint8_shaped n m rm sr Hr') as [? ?]. done.
Qed.

Lemma output_shape_witness :
  shaped 1 3 [[0; 0; 255]]%Z /\ shaped 1 3 [[0; 255; 0]]%Z /\
  Forall (Forall (fun z => (0 <= z < 256)%Z)) [[0; 0; 255]]%Z /\
  Forall (Forall (fun z => (0 <= z < 256)%Z)) [[0; 255; 0]]%Z.
Proof.
  apply (output_shape 4 1 3 [[10; 50]]%Z [[50; 99]]%Z (b64 60)
           (full 1 3 (b64 0)) (full 1 3 (b64 0))).
  - apply shaped_full.
  - apply shaped_full.
  - vm_compute. reflexivity.
Defined.

(** ** The cells of the cost matrix in binary64 *)

(** X14. In binary64, for 8-bit rows and a positive finite occlusion
    cost, every cell of the cost matrix is a canonical float that is
    neither NaN nor negative (it may be +infinity by overflow). *)
Theorem cost_cells_are_numbers (N : nat) (L R : list Z) (c : spec_float)
    (a b : nat) :
  canonical_cost64 c -> uint8s L -> uint8s R -> a <= N -> b <= N ->
  let x := get2 zero (costMatrix (buildMatrices N L R c)) a b in
  canonical64 x /\ x <> S754_nan /\ SFltb x (b64 0) = false.
Proof.
  intros Hc HL HR Ha Hb x.
  pose proof (good_cell N L R c Hc HL HR a b Ha Hb) as Hg.
  change (canonical64 x) in Hg. split; [done |].
  destruct x as [[] | [] | | [] m e]; destruct Hg as [Hg _]; done.
Qed.

Lemma cost_cells_are_numbers_witness :
  let x := get2 zero (costMatrix (buildMatrices 2 [10; 10]%Z [10; 50]%Z (b64 5)))
             2 2 in
  canonical64 x /\ x <> S754_nan /\ SFltb x (b64 0) = false.
Proof.
  apply (cost_cells_are_numbers 2 [10; 10]%Z [10; 50]%Z (b64 5) 2 2).
  - vm_compute. split; [discriminate | reflexivity].
  - repeat constructor; lia.
  - repeat constructor; lia.
  - lia.
  - lia.
Defined.

(** ** The rescale (lines 89-92) *)

Section MaxFacts.
Context {F : Type} `{OrderedArith F}.

Lemma max_from_spec (l : list F) : forall m,
  good m -> Forall good l ->
  (max_from m l = m \/ max_from m l ∈ l) /\
  fle m (max_from m l) /\
  Forall (fun x => fle x (max_from m l)) l /\
  good (max_from m l).
Proof.
  induction l as [| v l IH]; intros m Gm Gl.
  - simpl. repeat split; [by left | by apply fle_refl | constructor | done].
  - apply Forall_cons in Gl as [Gv Gl]. cbn [max_from].
    rewrite (isnan_good v Gv).
    set (m' := if fltb m v then v else m).
    assert (Gm' : good m') by (subst m'; by destruct (fltb m v)).
    assert (Hm : fle m m').
    { subst m'. destruct (fltb m v) eqn:E; [by apply flt_fle | by apply fle_refl]. }
    assert (Hv : fle v m').
    { subst m'. destruct (fltb m v) eqn:E; [by apply fle_refl | exact E]. }
    destruct (IH m' Gm' Gl) as (Hin & Hle & Hall & Gr).
    repeat split.
    + destruct Hin as [-> | Hin]; [| right; by right].
      subst m'. destruct (fltb m v); [right; by left | by left].
    + by apply (fle_trans m m' _).
    + constructor; [by apply (fle_trans v m' _) | done].
    + done.
Qed.
End MaxFacts.

(** X16. The maximum taken by the rescale: on a map without NaN or
    negative entries [max()] returns an entry of the map that no entry
    exceeds, and on a map without cells it raises ValueError. *)
Theorem array_max_is_maximum {F : Type} `{OrderedArith F}
    (M : list (list F)) :
  Forall (Forall good) M ->
  (concat M = [] -> array_max M = Raise ValueError) /\
  (forall mx, array_max M = Done mx ->
     mx ∈ concat M /\ Forall (fun x => fle x mx) (concat M)).
Proof.
  intros HM. assert (Hall : Forall good (concat M)) by (by apply Forall_concat).
  unfold array_max. split; [by intros -> |].
  intros mx. destruct (concat M) as [| x l]; [done |].
  apply Forall_cons in Hall as [Gx Gl]. rewrite (isnan_good x Gx).
  intros [= <-].
  destruct (max_from_spec l x Gx Gl) as (Hin & Hle & Hall & _).
  split.
  - destruct Hin as [-> | Hin]; [by left | by right].
  - by constructor.
Qed.

Lemma array_max_is_maximum_witness :
  (concat [[b64 0; b64 138]; [b64 128; b64 0]] = [] ->
   array_max [[b64 0; b64 138]; [b64 128; b64 0]] = Raise ValueError) /\
  (forall mx, array_max [[b64 0; b64 138]; [b64 128; b64 0]] = Done mx ->
     mx ∈ concat [[b64 0; b64 138]; [b64 128; b64 0]] /\
     Forall (fun x => fle x mx) (concat [[b64 0; b64 138]; [b64 128; b64 0]])).
Proof.
  apply (array_max_is_maximum [[b64 0; b64 138]; [b64 128; b64 0]]).
  repeat constructor; vm_compute; discriminate.
Defined.

(** X15. When the rescale returns and its two factors 255.0 / max are
    finite numbers, every cell of a map that holds zero (a pixel the
    traversal did not write) is 0 in the output map. *)
Theorem unwritten_cells_stay_zero
    (lm rm : list (list spec_float)) (l r : list (list Z)) (sl sr : spec_float) :
  finalize (lm, rm) = Done (l, r) ->
  scale lm = Done sl -> scale rm = Done sr ->
  finite64 sl -> sl <> S754_nan -> finite64 sr -> sr <> S754_nan ->
  (forall i j s, lm !! i ≫= (.!! j) = Some (S754_zero s) ->
     l !! i ≫= (.!! j) = Some 0%Z) /\
  (forall i j s, rm !! i ≫= (.!! j) = Some (S754_zero s) ->
     r !! i ≫= (.!! j) = Some 0%Z).
Proof.
  unfold finalize. simpl. intros Hfin Hsl Hsr Fl Nl Fr Nr.
  rewrite Hsl, Hsr in Hfin. simpl in Hfin. injection Hfin as <- <-.
  assert (Hzero : forall s (f : spec_float), finite64 f -> f <> S754_nan ->
            uint8 (ftrunc (fmul (S754_zero s) f)) = 0%Z).
  { intros s f Ff Nf. destruct f as [s' | s' | | s' m e]; done. }
  assert (Hcell : forall (M : list (list spec_float)) f i j s,
            finite64 f -> f <> S754_nan ->
            M !! i ≫= (.!! j) = Some (S754_zero s) ->
            astype_uint8 (map (map (fun x => fmul x f)) M) !! i ≫= (.!! j)
            = Some 0%Z).
  { intros M f i j s Ff Nf Hij. unfold astype_uint8.
    rewrite !list_lookup_fmap.
    destruct (M !! i) as [row |]; [| done]. simpl in *.
    rewrite !list_lookup_fmap. rewrite Hij. simpl. f_equal. by apply Hzero. }
  split; intros i j s Hij; by eapply Hcell.
Qed.

Lemma unwritten_cells_stay_zero_witness :
  (forall i j s, [[b64 0; b64 128]] !! i ≫= (.!! j) = Some (S754_zero s) ->
     [[0; 255]]%Z !! i ≫= (.!! j) = Some 0%Z) /\
  (forall i j s, [[b64 138; b64 0]] !! i ≫= (.!! j) = Some (S754_zero s) ->
     [[255; 0]]%Z !! i ≫= (.!! j) = Some 0%Z).
Proof.
  apply (unwritten_cells_stay_zero [[b64 0; b64 128]] [[b64 138; b64 0]]
           [[0; 255]]%Z [[255; 0]]%Z
           (fdiv (b64 255) (b64 128)) (fdiv (b64 255) (b64 138)));
    try (vm_compute; reflexivity); try exact I; vm_compute; discriminate.
Defined.
